(** * glop: the tactical grid layer

    A shallow embedding of the level controller (package [main]: grid graph
    adapter, commands, per-frame [Think], level loading) and of the basic
    attack action (package [game]), with the properties the specification
    states about them, and of the widget tree, the focus stack and the two
    tables of package [gui], with properties read off the code.

    Conventions.
    - Go's [int] is the 32-bit signed integer of the toolchain this code was
      written for (it still uses [os.Error]); values are carried as [Z] and
      additions, subtractions, multiplications, negations and quotients wrap,
      see [GoInt].
    - [float32]/[float64] values are carried as the rationals they denote.
      The only float arithmetic the embedded code performs on edge weights is
      the conversion of an [int], a halving and a maximum, all of which are
      exact in binary floating point. The [float32] sums and differences of
      the controller (the sprite positions, the distance to a click) are
      rounded to the nearest [float32], see [GoInt.round32]. [int(f)] of a
      float beyond the range of [int] is the smallest [int], as the 386
      toolchain converts, see [GoInt.of_float].
    - A slice is a list; [nil] and the empty slice are both [[]].
    - A pointer to an entity is an index into the level's entity list, so that
      two pointers to the same entity alias.
    - A run-time panic (index out of range, division by zero, [panic(...)]) is
      the result [None] of the option monad, or [Panicked] where the message
      matters. *)

From Stdlib Require Import ZArith QArith Qminmax Lqa Lia List String Bool.
From stdpp Require Import base option list gmap.
Import ListNotations.
Open Scope Z_scope.

(** ** Go integers *)

Module GoInt.

Definition int_bits : Z := 32.
Definition min_int : Z := - 2 ^ (int_bits - 1).
Definition max_int : Z := 2 ^ (int_bits - 1) - 1.

(** Two's-complement wrap-around of a mathematical integer. *)
Definition wrap (z : Z) : Z :=
  (z - min_int) mod 2 ^ int_bits + min_int.

Definition fits_int (z : Z) : Prop := min_int <= z <= max_int.

Definition add (a b : Z) : Z := wrap (a + b).
Definition sub (a b : Z) : Z := wrap (a - b).
Definition mul (a b : Z) : Z := wrap (a * b).
Definition neg (a : Z) : Z := wrap (- a).

(** [a / b] and [a % b] truncate toward zero and panic on a zero divisor. *)
Definition quo (a b : Z) : option Z :=
  if b =? 0 then None else Some (wrap (Z.quot a b)).
Definition rem (a b : Z) : option Z :=
  if b =? 0 then None else Some (Z.rem a b).

(** [len(s)] of a slice. *)
Definition len {A} (l : list A) : Z := Z.of_nat (length l).

(** [s[i]]: panics when [i] is out of range. *)
Definition index {A} (l : list A) (i : Z) : option A :=
  if i <? 0 then None else l !! Z.to_nat i.

(** [s[i] = x] for an index already read with [index]. *)
Definition store {A} (l : list A) (i : Z) (x : A) : list A :=
  <[Z.to_nat i := x]> l.

(** [int(f)] for a float [f]: the fractional part is discarded. For a float
    beyond the range of [int] Go leaves the result to the implementation; the
    386 toolchain stores what the x87 unit stores for a value it cannot
    convert, the smallest [int]. *)
Definition of_float (q : Q) : Z :=
  let z := Z.quot (Qnum q) (Z.pos (Qden q)) in
  if (min_int <=? z) && (z <=? max_int) then z else min_int.

(** [float64(n)]: exact for every 32-bit [n]. *)
Definition to_float (n : Z) : Q := inject_Z n.

(** [2^k] for any integer [k]. *)
Definition pow2 (k : Z) : Q :=
  if k <? 0 then 1 # Z.to_pos (2 ^ (- k)) else inject_Z (2 ^ k).

(** The integer nearest to [n / d] for [n >= 0], the even one of two that
    are equally near. *)
Definition nearest_even (n : Z) (d : positive) : Z :=
  let q := n / Z.pos d in
  let r := 2 * (n mod Z.pos d) in
  if r <? Z.pos d then q
  else if Z.pos d <? r then q + 1
  else if Z.even q then q else q + 1.

(** The exponent [e] with [2^e <= n / d < 2^(e+1)], for [n > 0]. *)
Definition binade (n : Z) (d : positive) : Z :=
  let e := Z.log2 n - Z.log2 (Z.pos d) in
  if (if e <? 0 then n * 2 ^ (- e) <? Z.pos d else n <? Z.pos d * 2 ^ e)
  then e - 1 else e.

(** The result of a [float32] operation whose exact result is [q]: the
    nearest number with a mantissa of 24 bits, the one with the even
    mantissa of two that are equally near; below the exponent -126 the
    spacing stays [2^-149]. The exponent is not bounded above: results
    beyond [max_float32] stand for an infinity. *)
Definition round32 (q : Q) : Q :=
  let n := Z.abs (Qnum q) in
  if n =? 0 then 0%Q else
  let k := Z.max (binade n (Qden q)) (-126) - 23 in
  let m := if k <? 0 then nearest_even (n * 2 ^ (- k)) (Qden q)
           else nearest_even n (Qden q * Z.to_pos (2 ^ k)) in
  Qred (inject_Z (Z.sgn (Qnum q) * m) * pow2 k).

(** The largest finite [float32]. *)
Definition max_float32 : Q := inject_Z ((2 ^ 24 - 1) * 2 ^ 104).

(** [float32(n)] for an [int]. *)
Definition to_float32 (n : Z) : Q := round32 (inject_Z n).

(** [a < b] on floats. *)
Definition Qltb (a b : Q) : bool := negb (Qle_bool b a).

End GoInt.

(** Sequencing of steps that may panic. *)
Notation "'do' x <- e ; k" :=
  (match e with Some x => k | None => None end)
  (at level 10, x name, e at level 100, k at level 200).
Notation "'do' ( x , y ) <- e ; k" :=
  (match e with Some (x, y) => k | None => None end)
  (at level 10, x name, y name, e at level 100, k at level 200).

(** Loops that thread an accumulator and may panic. *)
Fixpoint forM {A B} (f : B -> A -> option B) (b : B) (l : list A) : option B :=
  match l with
  | [] => Some b
  | a :: l' => do b' <- f b a; forM f b' l'
  end.

(** ** Package [main]: the level controller *)

Module Main.
Import GoInt.

(** Modelled from the spec: the "terrain category" of a cell. The
    declaration of [Terrain] is outside the embedded sources; its four
    constants are the ones [LoadLevel] and [Render] switch on. *)
Inductive Terrain := Grass | Brush | Water | Dirt.

#[global] Instance Terrain_eq_dec : EqDecision Terrain.
Proof. solve_decision. Defined.

Definition Terrain_code (t : Terrain) : nat :=
  match t with Grass => 0 | Brush => 1 | Water => 2 | Dirt => 3 end%nat.

Definition Terrain_of_code (n : nat) : option Terrain :=
  match n with
  | 0 => Some Grass | 1 => Some Brush | 2 => Some Water | 3 => Some Dirt
  | _ => None
  end%nat.

#[global] Instance Terrain_countable : Countable Terrain.
Proof. apply (inj_countable Terrain_code Terrain_of_code). by intros []. Defined.

(** [type Highlight int]; [NoHighlight] is the constant [None] of the source,
    the zero value. *)
Inductive Highlight := NoHighlight | Reachable | Attackable | MouseOver.

#[global] Instance Highlight_eq_dec : EqDecision Highlight.
Proof. solve_decision. Defined.

Record staticCellData := { cell_Terrain : Terrain }.
Record cachedCellData := { highlight : Highlight }.

(** [CellData] embeds both parts; the coercions play the role of Go's field
    promotion. *)
Record CellData := { static_ : staticCellData; cache_ : cachedCellData }.
Coercion static_ : CellData >-> staticCellData.
Coercion cache_ : CellData >-> cachedCellData.

Definition with_highlight (t : CellData) (h : Highlight) : CellData :=
  {| static_ := static_ t; cache_ := {| highlight := h |} |}.

(** [t.cachedCellData = cachedCellData{}] *)
Definition Clear (t : CellData) : CellData :=
  {| static_ := static_ t; cache_ := {| highlight := NoHighlight |} |}.

Definition maxNormi (x y x2 y2 : Z) : Z :=
  let dx := sub x2 x in
  let dx := if dx <? 0 then neg dx else dx in
  let dy := sub y2 y in
  let dy := if dy <? 0 then neg dy else dy in
  if dx >? dy then dx else dy.

Record StaticLevelData := { grid : list (list CellData) }.

(** A position on the board: two floats. *)
Record Vec2 := { X : Q; Y : Q }.

(** The [Weapon] interface, declared outside the embedded sources: [Cost()]
    and [Reach()]; its [Damage] method is a collaborator, see [Deps]. *)
Record Weapon := { Cost : Z; Reach : Z }.

(** The base data of a unit, declared outside the embedded sources: its
    weapons and what each terrain costs it to enter ([map[Terrain]int]; a
    terrain without an entry cannot be entered). *)
Record UnitType := { Weapons : list Weapon; Move_cost : gmap Terrain Z }.

(** Modelled from the spec: "Entity: owns position, action points, health,
    combat stats and a path queue of cells to traverse". The entity type is
    declared outside the embedded sources; the record holds the fields that
    the level controller reads and writes: the position, the action points,
    the health, the base data, the queued path, the commands sent to the
    sprite [s] (oldest first) and the position last passed to
    [turnToFace]. *)
Record entity := {
  pos : Vec2;
  AP : Z;
  Health : Z;
  Base : UnitType;
  path : list (Z * Z);
  s : list string;
  facing : option Vec2
}.

Inductive Command := NoCommand | Move | Attack.

(** What [Think] hands to the terrain widget: an upright sprite, a pointer to
    a cell of the grid, or a pointer to a copy of a cell local to [Think]. *)
Inductive Drawable :=
| Upright (x y : Q) (sprite : list string)
| FlattenedCell (x y : Q) (i j : nat)
| FlattenedCopy (x y : Q) (cell : CellData).

Record Level := {
  static_data : StaticLevelData;
  cached : bool;
  terrain : list Drawable;
  entities : list entity;
  selected : option nat;
  winx : Z;
  winy : Z;
  command : Command;
  reachable : list Z;
  in_range : list Z
}.
Coercion static_data : Level >-> StaticLevelData.

Record unitGraph := { level : Level; move_cost : gmap Terrain Z }.
Coercion level : unitGraph >-> Level.

(** Field assignments. *)
Definition set_grid (l : Level) (g : list (list CellData)) : Level :=
  {| static_data := {| grid := g |}; cached := cached l; terrain := terrain l;
     entities := entities l; selected := selected l; winx := winx l;
     winy := winy l; command := command l; reachable := reachable l;
     in_range := in_range l |}.
Definition set_cached (l : Level) (b : bool) : Level :=
  {| static_data := static_data l; cached := b; terrain := terrain l;
     entities := entities l; selected := selected l; winx := winx l;
     winy := winy l; command := command l; reachable := reachable l;
     in_range := in_range l |}.
Definition set_terrain (l : Level) (t : list Drawable) : Level :=
  {| static_data := static_data l; cached := cached l; terrain := t;
     entities := entities l; selected := selected l; winx := winx l;
     winy := winy l; command := command l; reachable := reachable l;
     in_range := in_range l |}.
Definition set_entities (l : Level) (es : list entity) : Level :=
  {| static_data := static_data l; cached := cached l; terrain := terrain l;
     entities := es; selected := selected l; winx := winx l;
     winy := winy l; command := command l; reachable := reachable l;
     in_range := in_range l |}.
Definition set_selected (l : Level) (o : option nat) : Level :=
  {| static_data := static_data l; cached := cached l; terrain := terrain l;
     entities := entities l; selected := o; winx := winx l;
     winy := winy l; command := command l; reachable := reachable l;
     in_range := in_range l |}.
Definition set_win (l : Level) (x y : Z) : Level :=
  {| static_data := static_data l; cached := cached l; terrain := terrain l;
     entities := entities l; selected := selected l; winx := x;
     winy := y; command := command l; reachable := reachable l;
     in_range := in_range l |}.
Definition set_command (l : Level) (c : Command) : Level :=
  {| static_data := static_data l; cached := cached l; terrain := terrain l;
     entities := entities l; selected := selected l; winx := winx l;
     winy := winy l; command := c; reachable := reachable l;
     in_range := in_range l |}.
Definition set_reachable (l : Level) (r : list Z) : Level :=
  {| static_data := static_data l; cached := cached l; terrain := terrain l;
     entities := entities l; selected := selected l; winx := winx l;
     winy := winy l; command := command l; reachable := r;
     in_range := in_range l |}.
Definition set_in_range (l : Level) (r : list Z) : Level :=
  {| static_data := static_data l; cached := cached l; terrain := terrain l;
     entities := entities l; selected := selected l; winx := winx l;
     winy := winy l; command := command l; reachable := reachable l;
     in_range := r |}.

Definition set_AP (e : entity) (ap : Z) : entity :=
  {| pos := pos e; AP := ap; Health := Health e; Base := Base e;
     path := path e; s := s e; facing := facing e |}.
Definition set_Health (e : entity) (h : Z) : entity :=
  {| pos := pos e; AP := AP e; Health := h; Base := Base e;
     path := path e; s := s e; facing := facing e |}.
Definition set_path (e : entity) (p : list (Z * Z)) : entity :=
  {| pos := pos e; AP := AP e; Health := Health e; Base := Base e;
     path := p; s := s e; facing := facing e |}.

(** [e.s.Command(c)]: the sprite receives one more command. *)
Definition sprite_Command (c : string) (e : entity) : entity :=
  {| pos := pos e; AP := AP e; Health := Health e; Base := Base e;
     path := path e; s := s e ++ [c]; facing := facing e |}.

(** Modelled from the spec: [turnToFace] is declared outside the embedded
    sources; it is the animation cue of an attack and only re-orients the
    entity towards the given position. *)
Definition turnToFace (p : Vec2) (e : entity) : entity :=
  {| pos := pos e; AP := AP e; Health := Health e; Base := Base e;
     path := path e; s := s e; facing := Some p |}.

(** Writing through an entity pointer. *)
Definition update_entity (l : Level) (i : nat) (f : entity -> entity) : Level :=
  set_entities l (alter f i (entities l)).

(** *** The grid as a graph *)

Definition NumVertex (sd : StaticLevelData) : option Z :=
  do row <- index (grid sd) 0; Some (mul (len (grid sd)) (len row)).

Definition fromVertex (sd : StaticLevelData) (v : Z) : option (Z * Z) :=
  do x <- rem v (len (grid sd)); do y <- quo v (len (grid sd)); Some (x, y).

Definition toVertex (sd : StaticLevelData) (x y : Z) : Z :=
  add x (mul y (len (grid sd))).

(** [l.grid[x][y]] *)
Definition cellAt (sd : StaticLevelData) (x y : Z) : option CellData :=
  do row <- index (grid sd) x; index row y.

Definition Fmax (a b : Q) : Q := Qmax a b.

(** Assumes that [src] and [dst] are adjacent. The result [-1] marks an
    impassable move. *)
Definition costToMove (l : unitGraph) (src dst : Z) : option Q :=
  do (x, y) <- fromVertex l src;
  do (x2, y2) <- fromVertex l dst;
  do c <- cellAt l x2 y2;
  match move_cost l !! cell_Terrain c with
  | None => Some (-1)%Q
  | Some cost_c =>
    if (x =? x2) || (y =? y2) then Some (to_float cost_c) else
    do a <- cellAt l x y2;
    match move_cost l !! cell_Terrain a with
    | None => Some (-1)%Q
    | Some cost_a =>
      do b <- cellAt l x2 y;
      match move_cost l !! cell_Terrain b with
      | None => Some (-1)%Q
      | Some cost_b =>
        let cost_ab := (to_float (add cost_a cost_b) / 2)%Q in
        Some (Fmax cost_ab (to_float cost_c))
      end
    end
  end.

(** The four slices [Adjacent] fills. *)
Record adjacency := {
  adj : list Z;
  weight : list Q;
  adj_diag : list Z;
  weight_diag : list Q
}.

Definition no_adjacency : adjacency :=
  {| adj := []; weight := []; adj_diag := []; weight_diag := [] |}.

(** Don't want to be able to walk through other units. *)
Definition occupied (l : Level) (cx cy : Z) : bool :=
  existsb (fun e => (of_float (X (pos e)) =? cx) && (of_float (Y (pos e)) =? cy))
          (entities l).

(** The body of the inner loop of [Adjacent] for one offset [(dx, dy)]. *)
Definition visit (l : unitGraph) (x y dx dy : Z) (a : adjacency) : option adjacency :=
  if (dx =? 0) && (dy =? 0) then Some a else
  do row0 <- index (grid l) 0;
  if (add y dy <? 0) || (add y dy >=? len row0) then Some a else
  if occupied l (add x dx) (add y dy) then Some a else
  do cost <- costToMove l (toVertex l x y) (toVertex l (add x dx) (add y dy));
  if Qltb cost 0 then Some a else
  if negb (dx =? 0) && negb (dy =? 0) then
    Some {| adj := adj a; weight := weight a;
            adj_diag := adj_diag a ++ [toVertex l (add x dx) (add y dy)];
            weight_diag := weight_diag a ++ [cost] |}
  else
    Some {| adj := adj a ++ [toVertex l (add x dx) (add y dy)];
            weight := weight a ++ [cost];
            adj_diag := adj_diag a; weight_diag := weight_diag a |}.

Definition offsets : list Z := [-1; 0; 1].

(** The diagonal neighbours are collected apart and listed at the end, so
    that searches prefer orthogonal moves. *)
Definition Adjacent (l : unitGraph) (v : Z) : option (list Z * list Q) :=
  do (x, y) <- fromVertex l v;
  do a <- forM (fun a dx =>
        if (add x dx <? 0) || (add x dx >=? len (grid l)) then Some a
        else forM (fun a dy => visit l x y dx dy a) a offsets)
      no_adjacency offsets;
  Some (adj a ++ adj_diag a, weight a ++ weight_diag a).

(** *** Collaborators

    Code of other packages and methods of types declared outside the
    embedded sources, on which the level controller calls. None of them is
    given the level itself to change: each returns a value. *)
(** What [weapon.Damage] returns, declared outside the embedded sources:
    whether the attack connects ([Hit] is the only value [DoAttack] names;
    [Miss] stands for every other) and the piercing damage. *)
Inductive Connection := Hit | Miss.
Record DamageKinds := { Piercing : Z }.
Record Resolution := { Connect : Connection; Damage : DamageKinds }.


Class Deps := {
  (** [e.Think(dt)], [e.OnRound()], [e.OnSetup()] *)
  entity_Think : Z -> entity -> entity;
  entity_OnRound : entity -> entity;
  entity_OnSetup : entity -> entity;
  (** [weapon.Damage(source, target)] *)
  Weapon_Damage : Weapon -> entity -> entity -> Resolution;
  (** [l.terrain.WindowToBoard(x, y)] *)
  WindowToBoard : Z -> Z -> Q * Q;
  (** [algorithm.ReachableWithinLimit(graph, sources, limit)] *)
  ReachableWithinLimit : unitGraph -> list Z -> Q -> option (list Z);
  (** [algorithm.Dijkstra(graph, sources, targets)]: the cost and the path;
      the cost is only read when the path is not empty. *)
  Dijkstra : unitGraph -> list Z -> list Z -> option (Q * list Z)
}.

Section Controller.
Context `{Deps}.

Definition Round (l : Level) : Level :=
  set_entities l (map entity_OnRound (entities l)).

Definition Setup (l : Level) : Level :=
  set_entities l (map entity_OnSetup (entities l)).

Definition clearCache (l : Level) : Level :=
  if negb (cached l) then l
  else set_cached (set_grid l (map (map Clear) (grid l))) false.

(** [l.grid[x][y].highlight = h] *)
Definition set_highlight (l : Level) (x y : Z) (h : Highlight) : option Level :=
  do row <- index (grid l) x;
  do c <- index row y;
  Some (set_grid l (store (grid l) x (store row y (with_highlight c h)))).

Definition mark (h : Highlight) (l : Level) (v : Z) : option Level :=
  do (x, y) <- fromVertex l v;
  set_highlight l x y h.

(** [Command] is an [int] in the source and any other value panics; the
    three constants are all the values the controller ever assigns. *)
Definition maintainCommand (l : Level) : option Level :=
  match command l with
  | Move => forM (mark Reachable) l (reachable l)
  | Attack => forM (mark Attackable) l (in_range l)
  | NoCommand => Some l
  end.

(** The loop of [PrepAttack] over [l.entities]; [sel] is the entity that
    [l.selected] points to. *)
Definition attack_candidates (l : Level) (si : nat) (sel : entity) (weapon : Weapon)
  : list Z :=
  fold_left (fun acc '(i, e) =>
    if decide (i = si) then acc else
    let x := of_float (X (pos e)) in
    let y := of_float (Y (pos e)) in
    let x2 := of_float (X (pos sel)) in
    let y2 := of_float (Y (pos sel)) in
    let dist := maxNormi x y x2 y2 in
    if dist >? Reach weapon then acc
    else acc ++ [toVertex l x y])
  (imap (fun i e => (i, e)) (entities l)) [].

Definition PrepAttack (l : Level) : option Level :=
  match selected l with
  | None => Some l
  | Some si =>
    do sel <- entities l !! si;
    do weapon <- index (Weapons (Base sel)) 0;
    if Cost weapon >? AP sel then Some l else
    let l := set_in_range l (attack_candidates l si sel weapon) in
    if len (in_range l) =? 0 then Some l else
    let l := set_command l Attack in
    Some (clearCache l)
  end.

(** The resolution of a hit or a miss on [target]. *)
Definition resolve (res : Resolution) (target : nat) (l : Level) : option Level :=
  match Connect res with
  | Hit =>
    let l := update_entity l target
               (fun t => set_Health t (sub (Health t) (Piercing (Damage res)))) in
    do t <- entities l !! target;
    if Health t <=? 0 then Some (update_entity l target (sprite_Command "killed"))
    else Some (update_entity l target (sprite_Command "damaged"))
  | Miss => Some (update_entity l target (sprite_Command "undamaged"))
  end.

Definition DoAttack (l : Level) (target : nat) : option Level :=
  match selected l with
  | None => Some l
  | Some si =>
    do sel <- entities l !! si;
    do weapon <- index (Weapons (Base sel)) 0;
    if Cost weapon >? AP sel then Some l else
    let l := update_entity l si (fun e => set_AP e (sub (AP e) (Cost weapon))) in
    do tgt <- entities l !! target;
    do sel <- entities l !! si;
    let x := of_float (X (pos tgt)) in
    let y := of_float (Y (pos tgt)) in
    let x2 := of_float (X (pos sel)) in
    let y2 := of_float (Y (pos sel)) in
    let dist := maxNormi x y x2 y2 in
    if dist >? Reach weapon then Some l else
    let res := Weapon_Damage weapon sel tgt in
    let l := update_entity l si (turnToFace (pos tgt)) in
    let l := if Reach weapon >? 2
             then update_entity l si (sprite_Command "ranged")
             else update_entity l si (sprite_Command "melee") in
    let l := update_entity l target (sprite_Command "defend") in
    do l <- resolve res target l;
    let l := clearCache l in
    Some (set_command l NoCommand)
  end.

Definition PrepMove (l : Level) : option Level :=
  match selected l with
  | None => Some l
  | Some si =>
    do sel <- entities l !! si;
    let bx := of_float (X (pos sel)) in
    let by_ := of_float (Y (pos sel)) in
    let graph := {| level := l; move_cost := Move_cost (Base sel) |} in
    do r <- ReachableWithinLimit graph [toVertex l bx by_] (to_float (AP sel));
    let l := set_reachable l r in
    if len (reachable l) =? 0 then Some l else
    let l := set_command l Move in
    Some (clearCache l)
  end.

Definition DoMove (l : Level) (click_x click_y : Z) : option Level :=
  match selected l with
  | None => Some l
  | Some si =>
    do sel <- entities l !! si;
    let start := toVertex l (of_float (X (pos sel))) (of_float (Y (pos sel))) in
    let end_ := toVertex l click_x click_y in
    let graph := {| level := l; move_cost := Move_cost (Base sel) |} in
    do (ap, path_) <- Dijkstra graph [start] [end_];
    if (len path_ =? 0) || (of_float ap >? AP sel) then Some l else
    let path_ := tail path_ in
    let l := update_entity l si (fun e => set_path e []) in
    let l := set_reachable l [] in
    do l <- forM (fun (l : Level) v =>
                    do (x, y) <- fromVertex l v;
                    Some (update_entity l si (fun e => set_path e (path e ++ [(x, y)]))))
                 l path_;
    let l := clearCache l in
    Some (set_command l NoCommand)
  end.

(** The loop body of [Think] for the entity at index [i]. *)
Definition think_entity (dt : Z) (l : Level) (i : nat) : option Level :=
  do e <- entities l !! i;
  let pbx := of_float (X (pos e)) in
  let pby := of_float (Y (pos e)) in
  let l := update_entity l i (entity_Think dt) in
  do e <- entities l !! i;
  let l := if negb (pbx =? of_float (X (pos e))) || negb (pby =? of_float (Y (pos e)))
           then clearCache l else l in
  Some (set_terrain l (terrain l ++
          [Upright (round32 (X (pos e) + (1 # 4))) (round32 (Y (pos e) + (1 # 4)))
                   (s e)])).

Definition think_entities (dt : Z) (l : Level) : option Level :=
  forM (think_entity dt) l (seq 0 (length (entities l))).

(** Draw tiles: a pointer to every cell of the grid. *)
Definition draw_tiles (l : Level) : Level :=
  set_terrain l (terrain l ++
    concat (imap (fun i row =>
              imap (fun j (_ : CellData) =>
                      FlattenedCell (to_float32 (Z.of_nat i)) (to_float32 (Z.of_nat j))
                                    i j)
                   row)
            (grid l))).

(** Highlight the square under the cursor, on a copy of the cell. *)
Definition draw_cursor (l : Level) : option Level :=
  let '(bx, by_) := WindowToBoard (winx l) (winy l) in
  let mx := of_float bx in
  let my := of_float by_ in
  do inside <- (if (mx >=? 0) && (my >=? 0) && (mx <? len (grid l))
                then do row0 <- index (grid l) 0; Some (my <? len row0)
                else Some false);
  if inside : bool then
    do c <- cellAt l mx my;
    let c := with_highlight c MouseOver in
    Some (set_terrain l (terrain l ++ [FlattenedCopy (to_float32 mx) (to_float32 my) c]))
  else Some l.

(** Highlight the selected entity, on a copy of the cell. *)
Definition draw_selected (l : Level) : option Level :=
  match selected l with
  | None => Some l
  | Some si =>
    do sel <- entities l !! si;
    do c <- cellAt l (of_float (X (pos sel))) (of_float (Y (pos sel)));
    let c := with_highlight c Reachable in
    Some (set_terrain l (terrain l ++ [FlattenedCopy (X (pos sel)) (Y (pos sel)) c]))
  end.

Definition Think (l : Level) (dt : Z) : option Level :=
  do l <- think_entities dt l;
  do l <- maintainCommand l;
  let l := draw_tiles l in
  do l <- draw_cursor l;
  do l <- draw_selected l;
  Some (set_cached l true).

(** *** Input *)

Definition Fabs (q : Q) : Q := if Qltb q 0 then (- q)%Q else q.

(** [d < dist] for a [float32] [d] and the smallest distance so far, where
    no distance stands for [+Inf]: a [d] beyond the largest [float32] is
    [+Inf] itself and smaller than nothing. *)
Definition nearer (d : Q) (dist : option Q) : bool :=
  Qle_bool d max_float32 &&
  match dist with None => true | Some dd => Qltb d dd end.

(** The entity closest to the click in the maximum norm, and its distance;
    no distance stands for [+Inf]. The sums and the differences are rounded
    to [float32] as the source computes them; [Vec2.Subtract] of the vector
    library subtracts by component. *)
Definition nearest (l : Level) (click : Vec2) : option nat * option Q :=
  fold_left (fun '(ent, dist) '(i, e) =>
    let dx := Fabs (round32 (X click - round32 (X (pos e) + (1 # 2))))%Q in
    let dy := Fabs (round32 (Y click - round32 (Y (pos e) + (1 # 2))))%Q in
    let d := Fmax dx dy in
    if nearer d dist then (Some i, Some d) else (ent, dist))
  (imap (fun i e => (i, e)) (entities l)) (None, None).

Definition closer_than (dist : option Q) (bound : Q) : bool :=
  match dist with None => false | Some d => Qltb d bound end.

(** [x], [y] is the cursor position read from the input system and [press]
    tells whether the event group holds a press of the mouse button. *)
Definition HandleEventGroup (l : Level) (x y : Z) (press : bool) : option Level :=
  let l := set_win l x y in
  let '(bx, by_) := WindowToBoard x y in
  if negb press then Some l else
  let '(ent, dist) := nearest l {| X := bx; Y := by_ |} in
  if bool_decide (selected l = None) && closer_than dist 3 then
    let l := set_selected l ent in
    let l := clearCache l in
    Some (set_command l NoCommand)
  else
    let target := if negb (bool_decide (selected l = None)) && closer_than dist (1 # 2)
                  then ent else None in
    do (l, target) <-
      match command l, target with
      | Move, None =>
        do l' <- DoMove l (of_float bx) (of_float by_); Some (l', target)
      | Attack, Some t =>
        do l' <- DoAttack l t; Some (l', None)
      | _, _ => Some (l, target)
      end;
    let l := match target with
             | Some t => set_selected l (Some t)
             | None => l
             end in
    let l := clearCache l in
    Some (set_command l NoCommand).

End Controller.

(** *** Loading a level *)

Record levelDataCell := { Terrain_label : string }.
Record levelData := { Image : string; Cells : list (list levelDataCell) }.
Record levelDataContainer := { Level_data : levelData }.

(** The result of a call that either returns or panics with a message. *)
Inductive outcome (A : Type) :=
| Returned (a : A)
| Panicked (msg : string).
Arguments Returned {A} a.
Arguments Panicked {A} msg.

Definition obind {A B} (o : outcome A) (k : A -> outcome B) : outcome B :=
  match o with
  | Returned a => k a
  | Panicked m => Panicked m
  end.

Fixpoint forO {A B} (f : B -> A -> outcome B) (b : B) (l : list A) : outcome B :=
  match l with
  | [] => Returned b
  | a :: l' => obind (f b a) (fun b' => forO f b' l')
  end.

Definition or_panic {A} (msg : string) (o : option A) : outcome A :=
  match o with
  | Some a => Returned a
  | None => Panicked msg
  end.

(** The file system, the JSON decoder and the terrain widget. The error
    that [json.Unmarshal] returns is discarded by [LoadLevel], so the decoder
    is the container it leaves behind, starting from the zero value. *)
Class LoadDeps := {
  filepath_Clean : string -> string;
  filepath_Join : string -> string -> string;
  os_Open : string -> string + string;
  ioutil_ReadAll : string -> string + string;
  json_Unmarshal : string -> levelDataContainer;
  gui_MakeTerrain : string -> Z -> Z -> Z -> Z -> option string
}.

Section Loading.
Context `{LoadDeps}.

Definition zero_cell : CellData :=
  {| static_ := {| cell_Terrain := Grass |};
     cache_ := {| highlight := NoHighlight |} |}.

(** [make([]CellData, n)] *)
Definition make_cells (n : Z) : option (list CellData) :=
  if n <? 0 then None else Some (replicate (Z.to_nat n) zero_cell).

(** [a[lo : hi]] of a slice whose capacity is its length. *)
Definition slice {A} (a : list A) (lo hi : Z) : option (list A) :=
  if (0 <=? lo) && (lo <=? hi) && (hi <=? len a)
  then Some (take (Z.to_nat (hi - lo)) (drop (Z.to_nat lo) a))
  else None.

(** The terrain category a label names. *)
Definition terrain_of_label (label : string) : option Terrain :=
  if String.eqb label "grass" then Some Grass
  else if String.eqb label "brush" then Some Brush
  else if String.eqb label "water" then Some Water
  else if String.eqb label "dirt" then Some Dirt
  else None.

Definition with_Terrain (c : CellData) (t : Terrain) : CellData :=
  {| static_ := {| cell_Terrain := t |}; cache_ := cache_ c |}.

(** The body of the inner loop: [level.grid[i][j].Terrain = ...] *)
Definition load_cell (ldc : levelDataContainer) (i : nat)
  (g : list (list CellData)) (j : nat) : outcome (list (list CellData)) :=
  obind (or_panic "index out of range" (Cells (Level_data ldc) !! i)) (fun cells_i =>
  obind (or_panic "index out of range" (cells_i !! j)) (fun c =>
  obind (or_panic "WTF" (terrain_of_label (Terrain_label c))) (fun t =>
  obind (or_panic "index out of range" (g !! i)) (fun row =>
  obind (or_panic "index out of range" (row !! j)) (fun old =>
  Returned (<[i := <[j := with_Terrain old t]> row]> g)))))).

Definition load_row (ldc : levelDataContainer)
  (g : list (list CellData)) (i : nat) : outcome (list (list CellData)) :=
  obind (or_panic "index out of range" (g !! i)) (fun row =>
  forO (load_cell ldc i) g (seq 0 (length row))).

Definition empty_Level (g : list (list CellData)) : Level :=
  {| static_data := {| grid := g |}; cached := false; terrain := [];
     entities := []; selected := None; winx := 0; winy := 0;
     command := NoCommand; reachable := []; in_range := [] |}.

(** The pair that [LoadLevel] returns: the level or [nil], and the error or
    [nil]. *)
Definition LoadLevel (pathname : string) : outcome (option Level * option string) :=
  let datapath := filepath_Join (filepath_Clean pathname) "data.json" in
  match os_Open datapath with
  | inl err => Returned (None, Some err)
  | inr datafile =>
  match ioutil_ReadAll datafile with
  | inl err => Returned (None, Some err)
  | inr data =>
    let ldc := json_Unmarshal data in
    let dx := len (Cells (Level_data ldc)) in
    obind (or_panic "index out of range" (index (Cells (Level_data ldc)) 0)) (fun cells0 =>
    let dy := len cells0 in
    obind (or_panic "makeslice: len out of range" (make_cells (mul dx dy))) (fun all_cells =>
    obind (forO (fun g (i : nat) =>
                   obind (or_panic "slice bounds out of range"
                            (slice all_cells (mul (Z.of_nat i) dy)
                                             (mul (add (Z.of_nat i) 1) dy)))
                         (fun row => Returned (g ++ [row])))
                [] (seq 0 (Z.to_nat dx))) (fun g =>
    obind (forO (load_row ldc) g (seq 0 (length g))) (fun g =>
    let bg_path := filepath_Join (filepath_Clean pathname) (Image (Level_data ldc)) in
    match gui_MakeTerrain bg_path 100 dx dy 65 with
    | Some err => Returned (None, Some err)
    | None => Returned (Some (empty_Level g), None)
    end))))
  end
  end.

End Loading.

End Main.

(** ** Package [algorithm]: searches over weighted graphs

    The package is not part of the embedded sources; the level controller
    only calls it. Its operations are modelled from the specification. *)

Module Algorithm.
Import GoInt.

(** The [Graph] interface: the vertices are [0 .. NumVertex-1] and
    [Adjacent v] gives the neighbours of [v] and, in a second slice, the
    weights of the edges to them. *)
Record Graph := {
  NumVertex : Z;
  Adjacent : Z -> list Z * list Q
}.

(** The edges that leave [u]: neighbour and weight. *)
Definition edges (G : Graph) (u : Z) : list (Z * Q) :=
  combine (fst (Adjacent G u)) (snd (Adjacent G u)).

(** A minimal entry of the queue (the first one among equals), and the
    queue without it. *)
Fixpoint pop_min (queue : list (Q * Z)) : option ((Q * Z) * list (Q * Z)) :=
  match queue with
  | [] => None
  | e :: queue' =>
    match pop_min queue' with
    | None => Some (e, [])
    | Some (m, rest) =>
      if Qltb (fst m) (fst e) then Some (m, e :: rest) else Some (e, queue')
    end
  end.

Definition finalized (v : Z) (done : list (Z * Q)) : bool :=
  existsb (fun '(u, _) => u =? v) done.

(** Modelled from the spec: the loop of reachable-within-limit, absent
    from the embedded sources. "Cost accumulation uses the same edge weights
    as shortest path; a vertex is added to the result the first time it is
    finalized at minimal cost": the cheapest pending entry is taken; the
    search ends when it is over the budget; an entry for a vertex that is
    already finalized is dropped; otherwise the vertex is finalized at the
    entry's cost and its neighbours are queued at that cost plus the edge
    weight. [None] is returned when the steps run out. *)
Fixpoint reach_loop (G : Graph) (limit : Q) (steps : nat)
  (queue : list (Q * Z)) (done : list (Z * Q)) : option (list (Z * Q)) :=
  match steps with
  | O => None
  | S steps' =>
    match pop_min queue with
    | None => Some done
    | Some ((c, v), rest) =>
      if Qltb limit c then Some done
      else if finalized v done then reach_loop G limit steps' rest done
      else reach_loop G limit steps'
             (rest ++ map (fun '(x, w) => ((c + w)%Q, x)) (edges G v))
             (done ++ [(v, c)])
    end
  end.

(** Every entry that is ever queued is a source or the end of an edge out of
    a vertex that is finalized once, which bounds the number of steps. *)
Definition vertices (G : Graph) : list Z :=
  map Z.of_nat (seq 0 (Z.to_nat (NumVertex G))).

Definition step_bound (G : Graph) (src : list Z) : nat :=
  S (length src + list_sum (map (fun v => length (edges G v)) (vertices G))).

(** Modelled from the spec: "given one or more source vertices and a budget,
    returns the set of all vertices whose shortest cost from any source is
    <= budget, inclusive of the source". The vertices are listed in the order
    in which they are finalized. *)
Definition ReachableWithinLimit (G : Graph) (src : list Z) (limit : Q)
  : option (list Z) :=
  match reach_loop G limit (step_bound G src) (map (fun s => (0%Q, s)) src) [] with
  | Some done => Some (map fst done)
  | None => None
  end.

(** *** Costs of paths *)

(** [walk G u v c]: some path of [G] leads from [u] to [v] and the weights of
    its edges add up to [c]. *)
Inductive walk (G : Graph) (u : Z) : Z -> Q -> Prop :=
| walk_here : walk G u u 0%Q
| walk_edge v c x w :
    walk G u v c -> In (x, w) (edges G v) -> walk G u x (c + w)%Q.

(** [d] is the true shortest-path cost of [v] from the sources: the cost of
    some path from a source, and no path from a source is cheaper. *)
Definition shortest_cost (G : Graph) (src : list Z) (v : Z) (d : Q) : Prop :=
  (exists s, In s src /\ walk G s v d) /\
  (forall s c, In s src -> walk G s v c -> (d <= c)%Q).

(** The graphs the engine is meant for: edges stay among the vertices and
    carry no negative weight. *)
Definition closed (G : Graph) : Prop :=
  forall u x w, In (x, w) (edges G u) -> 0 <= x < NumVertex G.

Definition nonnegative (G : Graph) : Prop :=
  forall u x w, In (x, w) (edges G u) -> (0 <= w)%Q.

End Algorithm.

(** ** Package [game]: the basic attack action *)

Module Game.
Import GoInt.

(** A board position with its integer cell coordinates [Xi()], [Yi()]. *)
Record BoardPos := { Xi : Z; Yi : Z }.

(** Modelled from the spec: the [Entity] type of this package is absent from
    the embedded sources. "Entity: owns position, action points, health,
    combat stats (attack/defense)"; [s] holds the commands sent to the
    sprite, oldest first, and [facing] the position last turned to. *)
Record Entity := {
  Pos : BoardPos;
  ap : Z;
  attack_stat : Z;
  defense_stat : Z;
  health : Z;
  s : list string;
  facing : option BoardPos
}.

Definition CurAp (e : Entity) : Z := ap e.
Definition CurAttack (e : Entity) : Z := attack_stat e.
Definition CurDefense (e : Entity) : Z := defense_stat e.
Definition CurHealth (e : Entity) : Z := health e.

(** Modelled from the spec: "AP spend", absent from the embedded sources,
    takes the amount off the entity's action points. *)
Definition SpendAp (n : Z) (e : Entity) : Entity :=
  {| Pos := Pos e; ap := sub (ap e) n; attack_stat := attack_stat e;
     defense_stat := defense_stat e; health := health e; s := s e;
     facing := facing e |}.

(** Modelled from the spec: "health decreases by" the damage dealt;
    [DoDamage] is absent from the embedded sources. *)
Definition DoDamage (n : Z) (e : Entity) : Entity :=
  {| Pos := Pos e; ap := ap e; attack_stat := attack_stat e;
     defense_stat := defense_stat e; health := sub (health e) n; s := s e;
     facing := facing e |}.

(** [e.s.Command(c)] *)
Definition sprite_Command (c : string) (e : Entity) : Entity :=
  {| Pos := Pos e; ap := ap e; attack_stat := attack_stat e;
     defense_stat := defense_stat e; health := health e; s := s e ++ [c];
     facing := facing e |}.

(** Modelled from the spec: the "animation cue" [turnToFace], absent from
    the embedded sources, only re-orients the entity. *)
Definition turnToFace (p : BoardPos) (e : Entity) : Entity :=
  {| Pos := Pos e; ap := ap e; attack_stat := attack_stat e;
     defense_stat := defense_stat e; health := health e; s := s e;
     facing := Some p |}.

(** The cells of this package carry their highlight as a set of bits
    ([highlight |= Attackable]); no bit set is "none". *)
Record CellData := { highlight : Z }.

(** The level owns the entities (a pointer to an entity is its index) and
    the grid. *)
Record Level := {
  entities : list Entity;
  grid : list (list CellData)
}.

Definition update_entity (l : Level) (i : nat) (f : Entity -> Entity) : Level :=
  {| entities := alter f i (entities l); grid := grid l |}.

(** Modelled from the spec: [GetCellAtPos], absent from the embedded
    sources, is the cell at the integer coordinates of a position; the
    function below is [l.GetCellAtPos(p).highlight |= mask]. *)
Definition highlight_at (l : Level) (p : BoardPos) (mask : Z) : option Level :=
  do row <- index (grid l) (Xi p);
  do c <- index row (Yi p);
  Some {| entities := entities l;
          grid := store (grid l) (Xi p)
                    (store row (Yi p) {| highlight := Z.lor (highlight c) mask |}) |}.

(** Modelled from the spec: "clears any derived highlight associated with
    this action". [clearCache(mask)], absent from the embedded sources, takes
    the bits of [mask] off every cell. *)
Definition clearCache (mask : Z) (l : Level) : Level :=
  {| entities := entities l;
     grid := map (map (fun c => {| highlight := Z.ldiff (highlight c) mask |}))
                 (grid l) |}.

(** Collaborators: the highlight bit of attackable cells, the range query
    and the distance between positions. *)
Class Deps := {
  Attackable : Z;
  getEntsWithinRange : nat -> Z -> Level -> list nat;
  Pos_Dist : BoardPos -> BoardPos -> Z
}.

(** The embedded [basicAction] holds the acting entity [Ent]; the level it
    points to is threaded through the methods. *)
Record ActionBasicAttack := {
  Ent : nat;
  Cost : Z;
  Power : Z;
  Range : Z;
  Melee : Z;
  targets : list nat;
  mark : option nat
}.

Definition set_targets (a : ActionBasicAttack) (t : list nat) : ActionBasicAttack :=
  {| Ent := Ent a; Cost := Cost a; Power := Power a; Range := Range a;
     Melee := Melee a; targets := t; mark := mark a |}.
Definition set_mark (a : ActionBasicAttack) (m : option nat) : ActionBasicAttack :=
  {| Ent := Ent a; Cost := Cost a; Power := Power a; Range := Range a;
     Melee := Melee a; targets := targets a; mark := m |}.

Inductive ActionCommit := NoAction | StandardAction.
Inductive MaintenanceStatus := InProgress | Complete.

Section Action.
Context `{Deps}.

(** The state is the level and the action; the result is [None] on a panic. *)
Definition Prep (l : Level) (a : ActionBasicAttack)
  : option (bool * Level * ActionBasicAttack) :=
  do ent <- entities l !! Ent a;
  if CurAp ent <? Cost a then Some (false, l, a) else
  let a := set_targets a (getEntsWithinRange (Ent a) (Range a) l) in
  if len (targets a) =? 0 then Some (false, l, a) else
  do l <- forM (fun l target =>
                  do t <- entities l !! target;
                  highlight_at l (Pos t) Attackable)
               l (targets a);
  Some (true, l, a).

Definition Cancel (l : Level) (a : ActionBasicAttack) : Level * ActionBasicAttack :=
  let a := set_mark a None in
  let a := set_targets a [] in
  (clearCache Attackable l, a).

Definition MouseOver (l : Level) (a : ActionBasicAttack) (bx by_ : Q)
  : Level * ActionBasicAttack := (l, a).

(** The loop of [MouseClick] over [a.targets]. *)
Fixpoint click_target (l : Level) (bx by_ : Q) (ts : list nat) : option (option nat) :=
  match ts with
  | [] => Some None
  | t :: ts' =>
    do e <- entities l !! t;
    if (of_float bx =? Xi (Pos e)) && (of_float by_ =? Yi (Pos e))
    then Some (Some t) else click_target l bx by_ ts'
  end.

Definition MouseClick (l : Level) (a : ActionBasicAttack) (bx by_ : Q)
  : option (ActionCommit * ActionBasicAttack) :=
  do r <- click_target l bx by_ (targets a);
  match r with
  | Some t => Some (StandardAction, set_mark a (Some t))
  | None => Some (NoAction, a)
  end.

Definition aiDoAttack (l : Level) (a : ActionBasicAttack) (m : nat)
  : option (bool * ActionBasicAttack) :=
  do me <- entities l !! m;
  do ent <- entities l !! Ent a;
  if Range a <? Pos_Dist (Pos me) (Pos ent) then Some (false, a) else
  if CurAp ent <? Cost a then Some (false, a) else
  Some (true, set_mark a (Some m)).

(** [a.Power + a.Ent.CurAttack() + ((Dice("5d5") - 2) / 3 - 4)], where
    [roll] is what [Dice("5d5")] returned. *)
Definition attack_roll (a : ActionBasicAttack) (ent : Entity) (roll : Z) : Z :=
  add (add (Power a) (CurAttack ent)) (sub (wrap (Z.quot (sub roll 2) 3)) 4).

(** [roll] is the value that the call [Dice("5d5")] returns. *)
Definition Maintain (l : Level) (a : ActionBasicAttack) (dt : Z) (roll : Z)
  : option (MaintenanceStatus * Level * ActionBasicAttack) :=
  match mark a with
  | None => let '(l, a) := Cancel l a in Some (Complete, l, a)
  | Some m =>
    do ent <- entities l !! Ent a;
    if CurAp ent <? Cost a
    then let '(l, a) := Cancel l a in Some (Complete, l, a)
    else
    let l := update_entity l (Ent a) (SpendAp (Cost a)) in
    let l := if negb (Melee a =? 0)
             then update_entity l (Ent a) (sprite_Command "melee")
             else update_entity l (Ent a) (sprite_Command "ranged") in
    do ent <- entities l !! Ent a;
    let attack := attack_roll a ent roll in
    do me <- entities l !! m;
    let defense := CurDefense me in
    let l := update_entity l m (sprite_Command "defend") in
    do l <- (if attack <=? defense
             then Some (update_entity l m (sprite_Command "undamaged"))
             else
               let l := update_entity l m (DoDamage (sub attack defense)) in
               do me <- entities l !! m;
               if CurHealth me <=? 0
               then Some (update_entity l m (sprite_Command "killed"))
               else Some (update_entity l m (sprite_Command "damaged")));
    do me <- entities l !! m;
    let l := update_entity l (Ent a) (turnToFace (Pos me)) in
    let '(l, a) := Cancel l a in
    Some (Complete, l, a)
  end.

End Action.

End Game.

(** ** Package [gui]: the widget tree and the focus stack *)

Module Gui.
Import GoInt.

(** The tree only compares widgets ([n.children[i].widget == w]) and calls
    their methods; a widget is named by a number. *)
Definition Widget := nat.

(** A [*Node] is an address in the store of nodes, or [nil]. *)
Record Node := {
  widget : Widget;
  parent : option nat;
  children : list nat
}.

Definition set_parent (n : Node) (p : option nat) : Node :=
  {| widget := widget n; parent := p; children := children n |}.
Definition set_children (n : Node) (cs : list nat) : Node :=
  {| widget := widget n; parent := parent n; children := cs |}.

(** The store of nodes is a list: an address is an index, and [new(Node)]
    takes the next one. *)

(** [pathFromRoot]: the first loop follows the parent pointers and appends.
    [None] stands for a loop that does not end within [steps] turns (the
    parent pointers form a cycle) or for an address outside the store, which
    no pointer of the program holds. *)
Fixpoint climb (steps : nat) (h : list Node) (p : option nat) (path : list nat)
  : option (list nat) :=
  match p with
  | None => Some path
  | Some a =>
    match steps with
    | O => None
    | S steps' => do n <- h !! a; climb steps' h (parent n) (path ++ [a])
    end
  end.

(** [path[i], path[j] = path[j], path[i]] *)
Definition swap {A} (path : list A) (i j : nat) : option (list A) :=
  do x <- path !! i;
  do y <- path !! j;
  Some (<[j := x]> (<[i := y]> path)).

(** The second loop: [for i := 0; i < len(path)/2; i++]; the counters stay
    between 0 and the length of the slice. *)
Definition reverse_in_place {A} (path : list A) : option (list A) :=
  forM (fun p i => swap p i (length p - i - 1)) path (seq 0 (length path / 2)).

Definition pathFromRoot (steps : nat) (h : list Node) (n : option nat) : option (list nat) :=
  do path <- climb steps h n [];
  reverse_in_place path.

(** The calls that the tree makes on widgets, oldest first. A widget's
    methods belong to the widget: they are collaborators, and they are not
    given the nodes to change. *)
Inductive call :=
| call_Think (w : Widget) (ms : Z) (has_focus : bool)
| call_AddChild (w child : Widget)
| call_RemoveChild (w child : Widget).

Record Focus := { focus_nodes : list (option nat) }.

Definition top (f : Focus) : option nat :=
  match focus_nodes f with
  | [] => None
  | n :: _ => n
  end.

(** Whatever widget currently has focus loses it, and the widget passed to
    this function gains it. *)
Definition Take (f : Focus) (n : option nat) : Focus :=
  let nodes := if len (focus_nodes f) =? 0 then focus_nodes f ++ [None]
               else focus_nodes f in
  {| focus_nodes := <[(length nodes - 1)%nat := n]> nodes |}.

Definition Push (f : Focus) (n : option nat) : Focus :=
  {| focus_nodes := focus_nodes f ++ [n] |}.

Definition Pop (f : Focus) : Main.outcome Focus :=
  if len (focus_nodes f) =? 0
  then Main.Panicked "Cannot pop an empty Focus stack"
  else Main.Returned {| focus_nodes := take (length (focus_nodes f) - 1) (focus_nodes f) |}.

(** The state that the methods of [Node] work on. *)
Record tree := {
  nodes : list Node;
  calls : list call
}.

Section Methods.

(** What a widget answers to [Think], given the calls made on widgets so
    far. *)
Variable Widget_Think : list call -> Widget -> Z -> bool -> bool.

(** [think]: first the children, then the node itself. [None] when the
    nesting is deeper than [depth] (the children pointers form a cycle). *)
Fixpoint think (depth : nat) (n : nat) (ms : Z) (st : tree * Focus)
  : option (tree * Focus) :=
  match depth with
  | O => None
  | S depth' =>
    do node <- nodes (fst st) !! n;
    do st <- forM (fun st child => think depth' child ms st) st (children node);
    let '(t, focus) := st in
    let has_focus := bool_decide (Some n = top focus) in
    let answer := Widget_Think (calls t) (widget node) ms has_focus in
    let t := {| nodes := nodes t;
                calls := calls t ++ [call_Think (widget node) ms has_focus] |} in
    if answer then Some (t, Take focus (Some n)) else Some (t, focus)
  end.

End Methods.

(** [InstallWidget]; the parameters are handed on to [AddChild] untouched
    and are not recorded. *)
Definition InstallWidget (t : tree) (n : nat) (w : Widget) : option (tree * nat) :=
  do node <- nodes t !! n;
  let kid := length (nodes t) in
  let h := nodes t ++ [{| widget := w; parent := Some n; children := [] |}] in
  let h := <[n := set_children node (children node ++ [kid])]> h in
  Some ({| nodes := h; calls := calls t ++ [call_AddChild (widget node) w] |}, kid).

(** One turn of the loop of [UninstallWidget]: [cs] is the array behind
    [n.children]. *)
Definition unlink (w : Widget) (st : list nat * nat * list Node) (i : nat)
  : option (list nat * nat * list Node) :=
  let '(cs, cur, h) := st in
  do c <- cs !! i;
  if negb (cur <? length cs)%nat then None else
  let cs := <[cur := c]> cs in
  do c <- cs !! i;
  do node <- h !! c;
  if decide (widget node = w)
  then Some (cs, cur, <[c := set_parent node None]> h)
  else Some (cs, S cur, h).

Definition UninstallWidget (t : tree) (n : nat) (w : Widget) : option tree :=
  do node <- nodes t !! n;
  do st <- forM (unlink w) (children node, 0%nat, nodes t)
                (seq 0 (length (children node)));
  let '(cs, cur, h) := st in
  do node <- h !! n;
  let h := <[n := set_children node (take cur cs)]> h in
  Some {| nodes := h; calls := calls t ++ [call_RemoveChild (widget node) w] |}.

End Gui.

(** ** Package [gui]: the vertical and the horizontal table *)

Module GuiTable.
Import GoInt.

(** [Dims] and [Region] are declared outside the embedded sources; the
    tables use the fields below ([Region] embeds a [Dims]). *)
Record Dims := { Dx : Z; Dy : Z }.
Record Region := { X : Z; Y : Z; Dims_ : Dims }.

Definition set_Dx (d : Dims) (v : Z) : Dims := {| Dx := v; Dy := Dy d |}.
Definition set_Dy (d : Dims) (v : Z) : Dims := {| Dx := Dx d; Dy := v |}.
Definition set_X (r : Region) (v : Z) : Region := {| X := v; Y := Y r; Dims_ := Dims_ r |}.
Definition set_Y (r : Region) (v : Z) : Region := {| X := X r; Y := v; Dims_ := Dims_ r |}.
Definition set_Dims (r : Region) (d : Dims) : Region := {| X := X r; Y := Y r; Dims_ := d |}.

(** A child widget, as far as a table is concerned: what it answers to
    [Expandable()] and [Requested()]. Its [Draw] is a collaborator; the
    table's calls to it are recorded. *)
Record Child := {
  Expandable : bool * bool;
  Requested : Dims
}.

(** The fields of the embedded [BasicZone] and [StandardParent] that the
    tables read and write. *)
Record Table := {
  Request_dims : Dims;
  Render_region : Region;
  Ex : bool;
  Ey : bool;
  Children : list Child
}.

Definition set_Request_dims (w : Table) (d : Dims) : Table :=
  {| Request_dims := d; Render_region := Render_region w; Ex := Ex w; Ey := Ey w;
     Children := Children w |}.
Definition set_Render_region (w : Table) (r : Region) : Table :=
  {| Request_dims := Request_dims w; Render_region := r; Ex := Ex w; Ey := Ey w;
     Children := Children w |}.
Definition set_Ex (w : Table) (b : bool) : Table :=
  {| Request_dims := Request_dims w; Render_region := Render_region w; Ex := b;
     Ey := Ey w; Children := Children w |}.
Definition set_Ey (w : Table) (b : bool) : Table :=
  {| Request_dims := Request_dims w; Render_region := Render_region w; Ex := Ex w;
     Ey := b; Children := Children w |}.

(** What a [Draw] does, in order: calls on the graphics library, with the
    colour components as the decimal literals of the source, and calls of
    [Draw] on the children (the child's index and the region it is given). *)
Inductive drawing :=
| gl_Enable (cap : string)
| gl_Disable (cap : string)
| gl_Color4d (r g b a : Q)
| gl_Begin (mode : string)
| gl_Vertex2i (x y : Z)
| gl_End
| child_Draw (i : nat) (region : Region).

(** The body of the loop of [VerticalTable.DoThink]. *)
Definition vertical_request (w : Table) (child : Child) : Table :=
  let '(ex, ey) := Expandable child in
  let w := if ex then set_Ex w true else w in
  let w := if ey then set_Ey w true else w in
  let w := set_Request_dims w
             (set_Dy (Request_dims w) (add (Dy (Request_dims w)) (Dy (Requested child)))) in
  if Dx (Requested child) >? Dx (Request_dims w)
  then set_Request_dims w (set_Dx (Request_dims w) (Dx (Requested child)))
  else w.

Definition VerticalTable_DoThink (w : Table) : Table :=
  let w := set_Request_dims w {| Dx := 0; Dy := 0 |} in
  let w := set_Ex w false in
  let w := set_Ey w false in
  fold_left vertical_request (Children w) w.

(** The body of the loop of [HorizontalTable.DoThink]. *)
Definition horizontal_request (w : Table) (child : Child) : Table :=
  let '(ex, ey) := Expandable child in
  let w := if ex then set_Ex w true else w in
  let w := if ey then set_Ey w true else w in
  let w := set_Request_dims w
             (set_Dx (Request_dims w) (add (Dx (Request_dims w)) (Dx (Requested child)))) in
  if Dy (Requested child) >? Dy (Request_dims w)
  then set_Request_dims w (set_Dy (Request_dims w) (Dy (Requested child)))
  else w.

Definition HorizontalTable_DoThink (w : Table) : Table :=
  let w := set_Request_dims w {| Dx := 0; Dy := 0 |} in
  let w := set_Ex w false in
  let w := set_Ey w false in
  fold_left horizontal_request (Children w) w.

(** The width and height of the frame that both tables draw. *)
Definition frame_dx (w : Table) (region : Region) : Z :=
  if (Dx (Dims_ region) >? Dx (Request_dims w)) && negb (Ex w)
  then Dx (Request_dims w) else Dx (Dims_ region).
Definition frame_dy (w : Table) (region : Region) : Z :=
  if (Dy (Dims_ region) >? Dy (Request_dims w)) && negb (Ex w)
  then Dy (Request_dims w) else Dy (Dims_ region).

Definition vertical_frame (w : Table) (region : Region) : list drawing :=
  let dx := frame_dx w region in
  let dy := frame_dy w region in
  let x0 := X region in
  let x1 := add (X region) dx in
  let top := add (Y region) (Dy (Dims_ region)) in
  let bottom := sub (add (Y region) (Dy (Dims_ region))) dy in
  [ gl_Enable "BLEND"; gl_Disable "TEXTURE_2D";
    gl_Color4d 0 0 0 (7 # 10); gl_Begin "QUADS";
    gl_Vertex2i x0 bottom; gl_Vertex2i x0 top;
    gl_Vertex2i x1 top; gl_Vertex2i x1 bottom;
    gl_End;
    gl_Color4d 1 1 1 (1 # 2); gl_Begin "LINES";
    gl_Vertex2i x0 bottom; gl_Vertex2i x0 top;
    gl_Vertex2i x0 top; gl_Vertex2i x1 top;
    gl_Vertex2i x1 top; gl_Vertex2i x1 bottom;
    gl_Vertex2i x1 bottom; gl_Vertex2i x0 bottom;
    gl_End ].

(** The sum of what the children that can grow along y request. *)
Definition vertical_fill_request (w : Table) : Z :=
  fold_left (fun acc child =>
               if snd (Expandable child) then add acc (Dy (Requested child)) else acc)
            (Children w) 0.

Definition vertical_fill_available (w : Table) (region : Region) : Z :=
  let fill_available := sub (Dy (Dims_ region)) (Dy (Request_dims w)) in
  if fill_available <? 0 then 0 else fill_available.

(** The region that the second loop of [VerticalTable.Draw] gives to a
    child, from the region of the child before it. *)
Definition vertical_place (w : Table) (region : Region) (child_region : Region)
  (child : Child) : option Region :=
  let fill_available := vertical_fill_available w region in
  let fill_request := vertical_fill_request w in
  let child_region := set_Dims child_region (Requested child) in
  do child_region <-
    (if snd (Expandable child) && (fill_request >? 0) then
       do q <- quo (mul (Dy (Dims_ child_region)) fill_available) fill_request;
       Some (set_Dims child_region
               (set_Dy (Dims_ child_region) (add (Dy (Dims_ child_region)) q)))
     else Some child_region);
  do child_region <-
    (if Dy (Dims_ region) <? Dy (Request_dims w) then
       let d := set_Dy (Dims_ child_region)
                  (mul (Dy (Dims_ child_region)) (Dy (Dims_ region))) in
       do q <- quo (Dy d) (Dy (Request_dims w));
       Some (set_Dims child_region (set_Dy d q))
     else Some child_region);
  let child_region :=
    if Dx (Dims_ child_region) >? Dx (Dims_ region)
    then set_Dims child_region (set_Dx (Dims_ child_region) (Dx (Dims_ region)))
    else child_region in
  let child_region :=
    if (Dx (Dims_ child_region) <? Dx (Dims_ region)) && fst (Expandable child)
    then set_Dims child_region (set_Dx (Dims_ child_region) (Dx (Dims_ region)))
    else child_region in
  let child_region := set_X child_region (X region) in
  let child_region := set_Y child_region (sub (Y child_region) (Dy (Dims_ child_region))) in
  Some child_region.

(** [None] is the panic of a division by zero. *)
Definition VerticalTable_Draw (w : Table) (region : Region)
  : option (Table * list drawing) :=
  let start := {| X := 0; Y := add (Y region) (Dy (Dims_ region));
                  Dims_ := {| Dx := 0; Dy := 0 |} |} in
  do st <- forM (fun '(child_region, out) '(i, child) =>
                   do child_region <- vertical_place w region child_region child;
                   Some (child_region, out ++ [child_Draw i child_region]))
                (start, vertical_frame w region)
                (imap (fun i child => (i, child)) (Children w));
  Some (set_Render_region w region, snd st).

Definition horizontal_frame (w : Table) (region : Region) : list drawing :=
  let dx := frame_dx w region in
  let dy := frame_dy w region in
  let x0 := X region in
  let x1 := add (X region) dx in
  let bottom := Y region in
  let top := add (Y region) (Dy (Dims_ region)) in
  [ gl_Enable "BLEND"; gl_Disable "TEXTURE_2D";
    gl_Color4d 0 0 0 (7 # 10); gl_Begin "QUADS";
    gl_Vertex2i x0 bottom; gl_Vertex2i x0 top;
    gl_Vertex2i x1 top; gl_Vertex2i x1 bottom;
    gl_End;
    gl_Color4d 1 1 1 (1 # 2); gl_Begin "LINES";
    gl_Vertex2i x0 bottom; gl_Vertex2i x0 top;
    gl_Vertex2i x0 top; gl_Vertex2i x1 top;
    gl_Vertex2i x1 top; gl_Vertex2i x1 bottom;
    gl_Vertex2i x1 (sub (add (Y region) (Dy (Dims_ region))) dy); gl_Vertex2i x0 bottom;
    gl_End ].

(** The sum of what the children that can grow along x request. *)
Definition horizontal_fill_request (w : Table) : Z :=
  fold_left (fun acc child =>
               if fst (Expandable child) then add acc (Dx (Requested child)) else acc)
            (Children w) 0.

Definition horizontal_fill_available (w : Table) (region : Region) : Z :=
  let fill_available := sub (Dx (Dims_ region)) (Dx (Request_dims w)) in
  if fill_available <? 0 then 0 else fill_available.

(** The region that the second loop of [HorizontalTable.Draw] gives to a
    child; [child_region] is the variable as the turn before left it. *)
Definition horizontal_place (w : Table) (region : Region) (child_region : Region)
  (child : Child) : option Region :=
  let fill_available := horizontal_fill_available w region in
  let fill_request := horizontal_fill_request w in
  let child_region := set_Dims child_region (Requested child) in
  do child_region <-
    (if fst (Expandable child) && (fill_request >? 0) then
       do q <- quo (mul (Dx (Dims_ child_region)) fill_available) fill_request;
       Some (set_Dims child_region
               (set_Dx (Dims_ child_region) (add (Dx (Dims_ child_region)) q)))
     else Some child_region);
  do child_region <-
    (if Dx (Dims_ region) <? Dx (Request_dims w) then
       let d := set_Dx (Dims_ child_region)
                  (mul (Dx (Dims_ child_region)) (Dx (Dims_ region))) in
       do q <- quo (Dx d) (Dx (Request_dims w));
       Some (set_Dims child_region (set_Dx d q))
     else Some child_region);
  let child_region :=
    if Dy (Dims_ child_region) >? Dy (Dims_ region)
    then set_Dims child_region (set_Dy (Dims_ child_region) (Dy (Dims_ region)))
    else child_region in
  let child_region :=
    if (Dy (Dims_ child_region) <? Dy (Dims_ region)) && snd (Expandable child)
    then set_Dims child_region (set_Dy (Dims_ child_region) (Dy (Dims_ region)))
    else child_region in
  let child_region :=
    set_Y child_region
      (sub (add (Y region) (Dy (Dims_ region))) (Dy (Dims_ child_region))) in
  Some child_region.

(** After [child.Draw(child_region)]: [child_region.X += child_region.Dx]. *)
Definition horizontal_advance (child_region : Region) : Region :=
  set_X child_region (add (X child_region) (Dx (Dims_ child_region))).

Definition HorizontalTable_Draw (w : Table) (region : Region)
  : option (Table * list drawing) :=
  let start := {| X := X region; Y := 0; Dims_ := {| Dx := 0; Dy := 0 |} |} in
  do st <- forM (fun '(child_region, out) '(i, child) =>
                   do child_region <- horizontal_place w region child_region child;
                   Some (horizontal_advance child_region,
                         out ++ [child_Draw i child_region]))
                (start, horizontal_frame w region)
                (imap (fun i child => (i, child)) (Children w));
  Some (set_Render_region w region, snd st).

End GuiTable.

(** * Properties *)

(** ** Go integers *)

Section GoIntFacts.
Import GoInt.

Lemma wrap_fits_int z : fits_int z -> wrap z = z.
Proof.
  unfold fits_int, wrap, min_int, max_int, int_bits. intros Hz.
  rewrite Z.mod_small; lia.
Qed.

Lemma wrap_range z : fits_int (wrap z).
Proof.
  unfold fits_int, wrap, min_int, max_int, int_bits.
  pose proof (Z.mod_pos_bound (z - - 2 ^ (32 - 1)) (2 ^ 32) ltac:(lia)). lia.
Qed.

Lemma max_int_eq : max_int = 2147483647.
Proof. reflexivity. Qed.

Lemma min_int_eq : min_int = -2147483648.
Proof. reflexivity. Qed.

Lemma index_Some {A} (l : list A) i x :
  index l i = Some x <-> 0 <= i /\ l !! Z.to_nat i = Some x.
Proof.
  unfold index. destruct (Z.ltb_spec i 0); split; intros; try easy; lia.
Qed.

Lemma index_None {A} (l : list A) i :
  index l i = None <-> i < 0 \/ len l <= i.
Proof.
  unfold index, len. destruct (Z.ltb_spec i 0).
  - split; [lia | done].
  - rewrite lookup_ge_None. lia.
Qed.

Lemma index_in_range {A} (l : list A) i :
  0 <= i < len l -> exists x, index l i = Some x /\ In x l.
Proof.
  intros Hi. destruct (index l i) as [x|] eqn:E.
  - exists x. split; [done|]. apply index_Some in E as [_ E].
    apply list_elem_of_In, list_elem_of_lookup. eauto.
  - apply index_None in E. lia.
Qed.

Lemma Qltb_spec (a b : Q) : reflect (a < b)%Q (Qltb a b).
Proof.
  unfold Qltb. destruct (Qle_bool b a) eqn:E; constructor.
  - intros Hlt. apply Qle_bool_iff in E. lra.
  - apply Qnot_le_lt. intros Hc. apply Qle_bool_iff in Hc. congruence.
Qed.

End GoIntFacts.

(** ** The grid graph adapter *)

Section GridGraph.
Import GoInt Main.

(** The extent of the grid: [len(grid)] cells along x, [len(grid[0])] cells
    along y. *)
Definition dim_x (sd : StaticLevelData) : Z := len (grid sd).
Definition dim_y (sd : StaticLevelData) : Z :=
  match grid sd with
  | [] => 0
  | row :: _ => len row
  end.

(** A grid as [LoadLevel] builds it: every row is as long as the first, and
    the cells can be numbered by an [int]. *)
Definition rectangular (sd : StaticLevelData) : Prop :=
  (forall row, In row (grid sd) -> len row = dim_y sd) /\
  dim_x sd * dim_y sd <= max_int.

Definition in_bounds (sd : StaticLevelData) (x y : Z) : Prop :=
  0 <= x < dim_x sd /\ 0 <= y < dim_y sd.

(** The cost of entering the cell [(x, y)], when it is passable. *)
Definition cost_at (g : unitGraph) (x y : Z) : option Z :=
  match cellAt g x y with
  | Some c => move_cost g !! cell_Terrain c
  | None => None
  end.

Lemma dim_x_pos sd x y : in_bounds sd x y -> 0 < dim_x sd.
Proof. unfold in_bounds. lia. Qed.

Lemma index_grid_0 sd :
  0 < dim_x sd -> exists row0, index (grid sd) 0 = Some row0 /\ len row0 = dim_y sd.
Proof.
  unfold dim_x, dim_y, len. destruct (grid sd) as [|row rows]; simpl; [lia|].
  intros _. by exists row.
Qed.

Lemma cellAt_in_bounds sd x y :
  rectangular sd -> in_bounds sd x y -> is_Some (cellAt sd x y).
Proof.
  intros [Hrows _] [Hx Hy]. unfold cellAt.
  destruct (index_in_range (grid sd) x Hx) as (row & -> & Hin).
  destruct (index_in_range row y) as (c & -> & _); [|done].
  by rewrite (Hrows row Hin).
Qed.

Lemma toVertex_in_bounds sd x y :
  rectangular sd -> in_bounds sd x y ->
  toVertex sd x y = x + y * dim_x sd /\ 0 <= x + y * dim_x sd <= max_int.
Proof.
  intros [_ Hfit] [Hx Hy]. unfold toVertex, add, mul. fold (dim_x sd).
  assert (y * dim_x sd <= (dim_y sd - 1) * dim_x sd)
    by (apply Z.mul_le_mono_nonneg_r; lia).
  assert (0 <= y * dim_x sd) by (apply Z.mul_nonneg_nonneg; lia).
  pose proof min_int_eq. pose proof max_int_eq.
  rewrite (wrap_fits_int (y * dim_x sd)) by (unfold fits_int; lia).
  rewrite wrap_fits_int by (unfold fits_int; lia). lia.
Qed.

Lemma fromVertex_toVertex sd x y :
  rectangular sd -> in_bounds sd x y ->
  fromVertex sd (toVertex sd x y) = Some (x, y).
Proof.
  intros Hr Hb. destruct (toVertex_in_bounds sd x y Hr Hb) as [-> Hv].
  destruct Hb as [Hx Hy]. unfold fromVertex, rem, quo. fold (dim_x sd).
  destruct (Z.eqb_spec (dim_x sd) 0); [lia|].
  rewrite Z.rem_mod_nonneg, Z.quot_div_nonneg by lia.
  rewrite Z.mod_add, Z.div_add, Z.mod_small, Z.div_small by lia.
  destruct Hr as [_ Hfit]. pose proof min_int_eq. pose proof max_int_eq.
  assert (y * dim_x sd <= (dim_y sd - 1) * dim_x sd)
    by (apply Z.mul_le_mono_nonneg_r; lia).
  rewrite wrap_fits_int by (unfold fits_int; lia). done.
Qed.

Lemma toVertex_inj sd x y x' y' :
  rectangular sd -> in_bounds sd x y -> in_bounds sd x' y' ->
  toVertex sd x y = toVertex sd x' y' -> x = x' /\ y = y'.
Proof.
  intros Hr Hb Hb' E.
  pose proof (fromVertex_toVertex sd x y Hr Hb) as E1.
  pose proof (fromVertex_toVertex sd x' y' Hr Hb') as E2.
  rewrite E in E1. rewrite E1 in E2. by inversion E2.
Qed.

(** What [costToMove] computes for two cells of the grid: the cost of the
    destination for an orthogonal step; for a diagonal step the larger of the
    destination's cost and the mean of the two corner cells' costs; [-1] when
    one of the cells involved has no cost for the mover. *)
Definition step_cost (g : unitGraph) (x y x2 y2 : Z) : Q :=
  match cost_at g x2 y2 with
  | None => (-1)%Q
  | Some cost_c =>
    if (x =? x2) || (y =? y2) then to_float cost_c else
    match cost_at g x y2 with
    | None => (-1)%Q
    | Some cost_a =>
      match cost_at g x2 y with
      | None => (-1)%Q
      | Some cost_b => Fmax (to_float (add cost_a cost_b) / 2) (to_float cost_c)
      end
    end
  end.

Lemma costToMove_in_bounds (g : unitGraph) x y x2 y2 :
  rectangular g -> in_bounds g x y -> in_bounds g x2 y2 ->
  costToMove g (toVertex g x y) (toVertex g x2 y2) = Some (step_cost g x y x2 y2).
Proof.
  intros Hr Hb Hb2. unfold costToMove, step_cost, cost_at.
  rewrite !fromVertex_toVertex by done.
  destruct (cellAt_in_bounds g x2 y2 Hr Hb2) as [c ->].
  destruct (move_cost g !! cell_Terrain c); [|done].
  destruct ((x =? x2) || (y =? y2)); [done|].
  destruct (cellAt_in_bounds g x y2 Hr) as [a ->];
    [destruct Hb, Hb2; by split|].
  destruct (move_cost g !! cell_Terrain a); [|done].
  destruct (cellAt_in_bounds g x2 y Hr) as [b ->];
    [destruct Hb, Hb2; by split|].
  by destruct (move_cost g !! cell_Terrain b).
Qed.

(** The edge that [Adjacent] lists for the offset [(ddx, ddy)] from the cell
    [(x, y)]: the neighbour is on the grid, no entity stands on it, and the
    step has a cost. *)
Definition neighbour (g : unitGraph) (x y ddx ddy : Z) (e : Z * Q) : Prop :=
  (ddx <> 0 \/ ddy <> 0) /\
  in_bounds g (x + ddx) (y + ddy) /\
  occupied g (x + ddx) (y + ddy) = false /\
  ~ (step_cost g x y (x + ddx) (y + ddy) < 0)%Q /\
  e = (toVertex g (x + ddx) (y + ddy), step_cost g x y (x + ddx) (y + ddy)).

Definition entries (a : adjacency) : list (Z * Q) :=
  combine (adj a) (weight a) ++ combine (adj_diag a) (weight_diag a).

Definition balanced (a : adjacency) : Prop :=
  length (adj a) = length (weight a) /\
  length (adj_diag a) = length (weight_diag a).

Lemma combine_snoc {A B} (l : list A) (l' : list B) a b :
  length l = length l' -> combine (l ++ [a]) (l' ++ [b]) = combine l l' ++ [(a, b)].
Proof.
  revert l'. induction l as [|x l IH]; intros [|y l'] E; simpl in *; try done.
  rewrite IH; [done | lia].
Qed.

Lemma small_offset_fits a d :
  0 <= a <= max_int -> -1 <= d <= 1 -> -1 <= a + d <= max_int -> add a d = a + d.
Proof.
  intros. unfold add. apply wrap_fits_int. unfold fits_int.
  pose proof min_int_eq. lia.
Qed.

Lemma dims_fit sd x y :
  rectangular sd -> in_bounds sd x y -> dim_x sd <= max_int /\ dim_y sd <= max_int.
Proof.
  intros [_ Hfit] [Hx Hy]. split.
  - assert (dim_x sd * 1 <= dim_x sd * dim_y sd)
      by (apply Z.mul_le_mono_nonneg_l; lia). lia.
  - assert (1 * dim_y sd <= dim_x sd * dim_y sd)
      by (apply Z.mul_le_mono_nonneg_r; lia). lia.
Qed.

Lemma visit_spec (g : unitGraph) x y ddx ddy a :
  rectangular g -> in_bounds g x y ->
  0 <= x + ddx < dim_x g -> -1 <= ddx <= 1 -> -1 <= ddy <= 1 ->
  balanced a ->
  exists a', visit g x y ddx ddy a = Some a' /\ balanced a' /\
    forall e, In e (entries a') <-> In e (entries a) \/ neighbour g x y ddx ddy e.
Proof.
  intros Hr Hb Hx Hdx Hdy [Hl Hld].
  destruct (dims_fit g x y Hr Hb) as [Hfx Hfy].
  pose proof Hb as [Hbx Hby].
  unfold visit.
  rewrite (small_offset_fits x ddx), (small_offset_fits y ddy) by lia.
  destruct (Z.eqb_spec ddx 0) as [Ex|Ex], (Z.eqb_spec ddy 0) as [Ey|Ey]; simpl.
  { exists a. split; [done|]. split; [done|]. intros e. split; [tauto|].
    intros [?|(Hne & _)]; [done | lia]. }
  all: destruct (index_grid_0 g) as (row0 & -> & ->); [lia|].
  all: destruct (Z.ltb_spec (y + ddy) 0) as [Hlo|Hlo]; simpl.
  all: try (exists a; split; [done|]; split; [done|]; intros e; split; [tauto|];
            intros [?|(_ & [_ ?] & _)]; [done | lia]).
  all: destruct (Z.geb_spec (y + ddy) (dim_y g)) as [Hhi|Hhi]; simpl.
  all: try (exists a; split; [done|]; split; [done|]; intros e; split; [tauto|];
            intros [?|(_ & [_ ?] & _)]; [done | lia]).
  all: destruct (occupied g (x + ddx) (y + ddy)) eqn:Hocc.
  all: try (exists a; split; [done|]; split; [done|]; intros e; split; [tauto|];
            intros [?|(_ & _ & ? & _)]; [done | congruence]).
  all: rewrite costToMove_in_bounds by (done || (split; lia)).
  all: destruct (Qltb_spec (step_cost g x y (x + ddx) (y + ddy)) 0) as [Hneg|Hneg].
  all: try (exists a; split; [done|]; split; [done|]; intros e; split; [tauto|];
            intros [?|(_ & _ & _ & ? & _)]; [done | tauto]).
  all: eexists; split; [reflexivity|]; split;
    [split; simpl; rewrite ?length_app; simpl; lia|].
  all: intros e; unfold entries; simpl; rewrite ?combine_snoc by done;
    rewrite ?in_app_iff; simpl; unfold neighbour, in_bounds; split; intros Hin.
  all: repeat match goal with
       | Hd : _ \/ _ |- _ => destruct Hd
       | Hc : _ /\ _ |- _ => destruct Hc
       | Hf : False |- _ => destruct Hf
       end; subst; try tauto.
  all: right; repeat split; (lia || done || tauto).
Qed.

Lemma combine_append {A B} (l1 l2 : list A) (k1 k2 : list B) :
  length l1 = length k1 ->
  combine (l1 ++ l2) (k1 ++ k2) = combine l1 k1 ++ combine l2 k2.
Proof.
  revert k1. induction l1 as [|x l1 IH]; intros [|y k1] E; simpl in *; try done.
  rewrite IH; [done | lia].
Qed.

Lemma forM_cons {A B} (f : B -> A -> option B) b a l :
  forM f b (a :: l) = (do b' <- f b a; forM f b' l).
Proof. reflexivity. Qed.

Lemma visit_column (g : unitGraph) x y ddx dys a :
  rectangular g -> in_bounds g x y ->
  0 <= x + ddx < dim_x g -> -1 <= ddx <= 1 ->
  Forall (fun d => -1 <= d <= 1) dys ->
  balanced a ->
  exists a', forM (fun a dy => visit g x y ddx dy a) a dys = Some a' /\
    balanced a' /\
    forall e, In e (entries a') <->
      In e (entries a) \/ exists ddy, In ddy dys /\ neighbour g x y ddx ddy e.
Proof.
  intros Hr Hb Hx Hdx Hdys. revert a.
  induction Hdys as [|dy dys Hdy _ IH]; intros a Ha; simpl.
  - exists a. split; [done|]. split; [done|]. intros e.
    split; [tauto | intros [?|(? & [] & _)]; done].
  - destruct (visit_spec g x y ddx dy a Hr Hb Hx Hdx Hdy Ha) as (a1 & -> & Ha1 & E1).
    destruct (IH a1 Ha1) as (a2 & -> & Ha2 & E2).
    exists a2. split; [done|]. split; [done|]. intros e.
    rewrite E2, E1. split.
    + intros [[?|?]|(ddy & ? & ?)]; eauto 6.
    + intros [?|(ddy & [<-|?] & ?)]; eauto 6.
Qed.

Lemma visit_all (g : unitGraph) x y dxs a :
  rectangular g -> in_bounds g x y ->
  Forall (fun d => -1 <= d <= 1) dxs ->
  balanced a ->
  exists a',
    forM (fun a dx =>
            if (add x dx <? 0) || (add x dx >=? len (grid g)) then Some a
            else forM (fun a dy => visit g x y dx dy a) a offsets) a dxs = Some a' /\
    balanced a' /\
    forall e, In e (entries a') <->
      In e (entries a) \/
      exists ddx ddy, In ddx dxs /\ In ddy offsets /\ neighbour g x y ddx ddy e.
Proof.
  intros Hr Hb Hdxs. revert a.
  destruct (dims_fit g x y Hr Hb) as [Hfx Hfy]. pose proof Hb as [Hbx Hby].
  induction Hdxs as [|dx dxs Hdx _ IH]; intros a Ha.
  - exists a. split; [done|]. split; [done|]. intros e.
    split; [tauto | intros [?|(? & ? & [] & _)]; done].
  - rewrite forM_cons, (small_offset_fits x dx) by lia.
    destruct (Z.ltb_spec (x + dx) 0) as [Hlo|Hlo]; cbn [orb];
      [|destruct (Z.geb_spec (x + dx) (len (grid g))) as [Hhi|Hhi]; cbn [orb]].
    1,2: destruct (IH a Ha) as (a2 & -> & Ha2 & E2);
      exists a2; (split; [done|]); (split; [done|]); intros e; rewrite E2; split;
      [ intros [?|(ddx & ddy & ? & ? & ?)];
        [by left | right; exists ddx, ddy; cbn [In]; tauto]
      | intros [?|(ddx & ddy & [<-|?] & ? & Hn)];
        [ by left
        | destruct Hn as (_ & [? _] & _); unfold dim_x in *; lia
        | right; exists ddx, ddy; tauto ] ].
    assert (Forall (fun d => -1 <= d <= 1) offsets) as Hoff
      by (repeat constructor; lia).
    destruct (visit_column g x y dx offsets a Hr Hb ltac:(unfold dim_x; lia) Hdx Hoff Ha)
      as (a1 & -> & Ha1 & E1).
    destruct (IH a1 Ha1) as (a2 & -> & Ha2 & E2).
    exists a2. split; [done|]. split; [done|]. intros e.
    rewrite E2, E1. split.
    + intros [[?|(ddy & ? & ?)]|(ddx & ddy & ? & ? & ?)];
        [ by left
        | right; exists dx, ddy; cbn [In]; tauto
        | right; exists ddx, ddy; cbn [In]; tauto ].
    + intros [?|(ddx & ddy & [<-|?] & ? & ?)];
        [ left; by left
        | left; right; exists ddy; tauto
        | right; exists ddx, ddy; tauto ].
Qed.

(** The edges out of a cell of a rectangular grid: [Adjacent] does not
    panic, its two slices have the same length, and the pairs of neighbour
    and weight are exactly the [neighbour]s at the eight offsets. *)
Lemma Adjacent_spec (g : unitGraph) x y :
  rectangular g -> in_bounds g x y ->
  exists adj weight,
    Adjacent g (toVertex g x y) = Some (adj, weight) /\
    length adj = length weight /\
    forall e, In e (combine adj weight) <->
      exists ddx ddy, In ddx offsets /\ In ddy offsets /\ neighbour g x y ddx ddy e.
Proof.
  intros Hr Hb. unfold Adjacent. rewrite fromVertex_toVertex by done.
  assert (Forall (fun d => -1 <= d <= 1) offsets) as Hoff
    by (repeat constructor; lia).
  destruct (visit_all g x y offsets no_adjacency Hr Hb Hoff) as (a & -> & [Hl Hld] & E);
    [by split|].
  eexists _, _. split; [reflexivity|]. split.
  - rewrite !length_app. lia.
  - intros e. rewrite combine_append by done. fold (entries a). rewrite E.
    split; [intros [[]|?]; done | eauto].
Qed.

(** The weight the specification gives to a diagonal step whose corner
    cells cost [ca] and [cb] and whose destination costs [cc]. *)
Definition diagonal_weight (ca cb cc : Z) : Q :=
  Qmax ((inject_Z ca + inject_Z cb) / 2) (inject_Z cc).

Lemma in_combine_fst {A B} (l : list A) (k : list B) x :
  length l = length k -> In x l -> exists y, In (x, y) (combine l k).
Proof.
  revert k. induction l as [|a l IH]; intros [|b k] E; simpl in *; try done.
  intros [-> | Hin]; [eauto|].
  destruct (IH k ltac:(lia) Hin) as [y Hy]. eauto.
Qed.

Lemma step_cost_diagonal (g : unitGraph) x y x2 y2 :
  x <> x2 -> y <> y2 ->
  step_cost g x y x2 y2 =
    match cost_at g x2 y2, cost_at g x y2, cost_at g x2 y with
    | Some cc, Some ca, Some cb => Fmax (to_float (add ca cb) / 2) (to_float cc)
    | _, _, _ => (-1)%Q
    end.
Proof.
  intros Hx Hy. unfold step_cost.
  destruct (cost_at g x2 y2); [|done].
  destruct (Z.eqb_spec x x2); [done|]. destruct (Z.eqb_spec y y2); [done|]. simpl.
  destruct (cost_at g x y2); [|done]. by destruct (cost_at g x2 y).
Qed.

Lemma diagonal_weight_fits ca cb cc :
  fits_int (ca + cb) ->
  (Fmax (to_float (add ca cb) / 2) (to_float cc) == diagonal_weight ca cb cc)%Q.
Proof.
  intros Hf. unfold Fmax, to_float, diagonal_weight, add.
  rewrite wrap_fits_int by done. rewrite inject_Z_plus. reflexivity.
Qed.

(** C1. For two diagonally adjacent cells [(x, y)] and [(x+ddx, y+ddy)] of a
    rectangular grid, [Adjacent] returns without panic and: (1) an edge to
    the destination only exists when both corner cells [(x, y+ddy)],
    [(x+ddx, y)] and the destination have a cost for the mover, and its
    weight is then max((cost A + cost B) / 2, cost of the destination);
    (2) when a corner or the destination is impassable the destination is
    not listed at all, whatever the other cells cost; (3) when the three
    cells are passable, no entity stands on the destination and the weight is
    not negative, the edge is listed. The sum of the corner costs is assumed
    to fit a Go [int]. *)
Theorem diagonal_edge_weight (g : unitGraph) (x y ddx ddy : Z) :
  rectangular g ->
  in_bounds g x y -> in_bounds g (x + ddx) (y + ddy) ->
  ddx = 1 \/ ddx = -1 -> ddy = 1 \/ ddy = -1 ->
  exists adj weight,
    Adjacent g (toVertex g x y) = Some (adj, weight) /\
    length adj = length weight /\
    (forall w, In (toVertex g (x + ddx) (y + ddy), w) (combine adj weight) ->
       exists ca cb cc,
         cost_at g x (y + ddy) = Some ca /\
         cost_at g (x + ddx) y = Some cb /\
         cost_at g (x + ddx) (y + ddy) = Some cc /\
         (fits_int (ca + cb) -> (w == diagonal_weight ca cb cc)%Q)) /\
    (cost_at g x (y + ddy) = None \/
     cost_at g (x + ddx) y = None \/
     cost_at g (x + ddx) (y + ddy) = None ->
     ~ In (toVertex g (x + ddx) (y + ddy)) adj) /\
    (forall ca cb cc,
       cost_at g x (y + ddy) = Some ca ->
       cost_at g (x + ddx) y = Some cb ->
       cost_at g (x + ddx) (y + ddy) = Some cc ->
       fits_int (ca + cb) ->
       occupied g (x + ddx) (y + ddy) = false ->
       (0 <= diagonal_weight ca cb cc)%Q ->
       exists w, In (toVertex g (x + ddx) (y + ddy), w) (combine adj weight) /\
                 (w == diagonal_weight ca cb cc)%Q).
Proof.
  intros Hr Hb Hb2 Hdx Hdy.
  destruct (Adjacent_spec g x y Hr Hb) as (adj & weight & E & Hlen & Hin).
  exists adj, weight. split; [done|]. split; [done|].
  assert (Hedge : forall w,
            In (toVertex g (x + ddx) (y + ddy), w) (combine adj weight) ->
            w = step_cost g x y (x + ddx) (y + ddy) /\
            ~ (step_cost g x y (x + ddx) (y + ddy) < 0)%Q).
  { intros w Hw. apply Hin in Hw as (ex & ey & _ & _ & _ & Hb' & _ & Hpos & Heq).
    inversion Heq as [[Hv Hw]].
    apply toVertex_inj in Hv as [Hx Hy]; [|done..].
    assert (ex = ddx) as -> by lia. assert (ey = ddy) as -> by lia. done. }
  rewrite step_cost_diagonal in Hedge by lia.
  split; [|split].
  - intros w Hw. destruct (Hedge w Hw) as [-> Hpos].
    destruct (cost_at g (x + ddx) (y + ddy)) as [cc|]; [|by destruct Hpos].
    destruct (cost_at g x (y + ddy)) as [ca|]; [|by destruct Hpos].
    destruct (cost_at g (x + ddx) y) as [cb|]; [|by destruct Hpos].
    exists ca, cb, cc. repeat split; [done..|]. apply diagonal_weight_fits.
  - intros Hnone Hadj.
    destruct (in_combine_fst adj weight _ Hlen Hadj) as [w Hw].
    destruct (Hedge w Hw) as [_ Hpos]. apply Hpos.
    destruct Hnone as [-> | [-> | ->]];
      repeat (match goal with |- context [match ?o with _ => _ end] => destruct o end);
      done.
  - intros ca cb cc Ha Hb' Hc Hf Hocc Hpos.
    exists (step_cost g x y (x + ddx) (y + ddy)).
    assert (step_cost g x y (x + ddx) (y + ddy) == diagonal_weight ca cb cc)%Q as Hw.
    { rewrite step_cost_diagonal by lia. rewrite Ha, Hb', Hc.
      by apply diagonal_weight_fits. }
    split; [|done]. apply Hin. exists ddx, ddy.
    split; [unfold offsets; simpl; lia|]. split; [unfold offsets; simpl; lia|].
    repeat split; try done; try lia; try apply Hb2.
    rewrite Hw. lra.
Qed.

End GridGraph.

(** ** Reachable within a limit *)

Section Reachability.
Import GoInt Algorithm.

Variable G : Graph.
Variable src : list Z.
Variable limit : Q.

Lemma pop_min_None (queue : list (Q * Z)) :
  pop_min queue = None -> queue = [].
Proof.
  destruct queue as [|e queue]; [done|]. simpl.
  destruct (pop_min queue) as [[m rest]|]; [|done].
  by destruct (Qltb (fst m) (fst e)).
Qed.

Lemma pop_min_Some (queue : list (Q * Z)) m rest :
  pop_min queue = Some (m, rest) ->
  Permutation queue (m :: rest) /\
  forall e, In e queue -> (fst m <= fst e)%Q.
Proof.
  revert m rest. induction queue as [|e queue IH]; intros m rest; simpl; [done|].
  destruct (pop_min queue) as [[m' rest']|] eqn:E.
  - destruct (IH m' rest' eq_refl) as [Hperm Hmin].
    destruct (Qltb_spec (fst m') (fst e)) as [Hlt|Hge]; intros [= <- <-].
    + split.
      * rewrite Hperm. apply perm_swap.
      * intros e' [<-|Hin]; [lra | by apply Hmin].
    + split; [done|].
      intros e' [<-|Hin]; [lra|]. specialize (Hmin e' Hin). lra.
  - intros [= <- <-]. apply pop_min_None in E as ->. split; [done|].
    intros e' [<-|[]]. lra.
Qed.

Lemma finalized_true v (fin : list (Z * Q)) :
  finalized v fin = true <-> exists d, In (v, d) fin.
Proof.
  unfold finalized. rewrite existsb_exists. split.
  - intros ([u d] & Hin & Heq). apply Z.eqb_eq in Heq as ->. eauto.
  - intros [d Hin]. exists (v, d). split; [done| apply Z.eqb_refl].
Qed.

Lemma finalized_false v (fin : list (Z * Q)) :
  finalized v fin = false <-> ~ In v (map fst fin).
Proof.
  rewrite <- not_true_iff_false, finalized_true, in_map_iff. split.
  - intros Hn ([u d] & <- & Hin). eauto.
  - intros Hn [d Hin]. apply Hn. by exists (v, d).
Qed.

(** [x] is accounted for at a cost of at most [b]: finalized that cheaply,
    or waiting in the queue that cheaply. *)
Definition covered (x : Z) (b : Q) (queue : list (Q * Z)) (fin : list (Z * Q)) : Prop :=
  (exists d, In (x, d) fin /\ (d <= b)%Q) \/
  (exists c, In (c, x) queue /\ (c <= b)%Q).

(** The invariant of the search loop. *)
Record inv (queue : list (Q * Z)) (fin : list (Z * Q)) : Prop := {
  inv_queue_walk : forall c v, In (c, v) queue ->
    exists s, In s src /\ walk G s v c;
  inv_done_walk : forall v d, In (v, d) fin ->
    (exists s, In s src /\ walk G s v d) /\ (d <= limit)%Q;
  inv_order : forall v d c u, In (v, d) fin -> In (c, u) queue -> (d <= c)%Q;
  inv_edges : forall u d x w, In (u, d) fin -> In (x, w) (edges G u) ->
    covered x (d + w) queue fin;
  inv_src : forall s, In s src -> covered s 0 queue fin;
  inv_nodup : NoDup (map fst fin)
}.

Lemma inv_start : inv (map (fun s => (0%Q, s)) src) [].
Proof.
  split; try done.
  - intros c v Hin. apply in_map_iff in Hin as (s & [= <- <-] & Hs).
    exists s. split; [done| constructor].
  - intros s Hs. right. exists 0%Q. split; [|lra].
    apply in_map_iff. eauto.
  - constructor.
Qed.

Lemma inv_skip queue fin c v rest :
  inv queue fin ->
  pop_min queue = Some ((c, v), rest) ->
  finalized v fin = true ->
  inv rest fin.
Proof.
  intros [Hq Hd Ho He Hs Hn] Hpop Hfin.
  apply pop_min_Some in Hpop as [Hperm Hmin].
  apply finalized_true in Hfin as [dv Hdv].
  assert (Hsub : forall e, In e rest -> In e queue).
  { intros e Hin. eapply Permutation_in; [symmetry; exact Hperm|]. by right. }
  assert (Hcov : forall x b, covered x b queue fin -> covered x b rest fin).
  { intros x b [Hl|(c' & Hin & Hle)]; [by left|].
    eapply Permutation_in in Hin; [|exact Hperm].
    destruct Hin as [[= <- <-]|Hin]; [|right; eauto].
    left. exists dv. split; [done|].
    assert (dv <= c)%Q; [|lra].
    eapply Ho; [exact Hdv|]. eapply Permutation_in; [symmetry; exact Hperm|]. by left. }
  split; eauto.
Qed.

Hypothesis Hnonneg : nonnegative G.

Lemma inv_finalize queue fin c v rest :
  inv queue fin ->
  pop_min queue = Some ((c, v), rest) ->
  ~ (limit < c)%Q ->
  finalized v fin = false ->
  inv (rest ++ map (fun '(x, w) => ((c + w)%Q, x)) (edges G v)) (fin ++ [(v, c)]).
Proof.
  intros [Hq Hd Ho He Hs Hn] Hpop Hlim Hfin.
  apply pop_min_Some in Hpop as [Hperm Hmin].
  apply finalized_false in Hfin.
  assert (Hhead : In (c, v) queue).
  { eapply Permutation_in; [symmetry; exact Hperm|]. by left. }
  assert (Hsub : forall e, In e rest -> In e queue).
  { intros e Hin. eapply Permutation_in; [symmetry; exact Hperm|]. by right. }
  assert (Hpush : forall c' x,
            In (c', x) (map (fun '(x, w) => ((c + w)%Q, x)) (edges G v)) <->
            exists w, In (x, w) (edges G v) /\ c' = (c + w)%Q).
  { intros c' x. rewrite in_map_iff. split.
    - intros ([x' w] & [= <- <-] & Hin). eauto.
    - intros (w & Hin & ->). by exists (x, w). }
  assert (Hcov : forall x b, covered x b queue fin ->
            covered x b (rest ++ map (fun '(x, w) => ((c + w)%Q, x)) (edges G v))
                    (fin ++ [(v, c)])).
  { intros x b [(d & Hin & Hle)|(c' & Hin & Hle)].
    - left. exists d. split; [|done]. apply in_app_iff. by left.
    - eapply Permutation_in in Hin; [|exact Hperm].
      destruct Hin as [[= <- <-]|Hin].
      + left. exists c. split; [|done]. apply in_app_iff. right. by left.
      + right. exists c'. split; [|done]. apply in_app_iff. by left. }
  split.
  - intros c' x Hin. apply in_app_iff in Hin as [Hin|Hin]; [eauto|].
    apply Hpush in Hin as (w & Hin & ->).
    destruct (Hq c v Hhead) as (s & Hs' & Hw). exists s. split; [done|].
    econstructor; eauto.
  - intros x d Hin. apply in_app_iff in Hin as [Hin|[[= <- <-]|[]]]; [eauto|].
    split; [eauto | lra].
  - intros x d c' u Hin Hin'.
    assert (d <= c)%Q as Hdc.
    { apply in_app_iff in Hin as [Hin|[[= <- <-]|[]]]; [eauto | lra]. }
    apply in_app_iff in Hin' as [Hin'|Hin'].
    + apply in_app_iff in Hin as [Hin|[[= <- <-]|[]]]; [eauto|].
      apply (Hmin (c', u)). eauto.
    + apply Hpush in Hin' as (w & Hin' & ->).
      specialize (Hnonneg _ _ _ Hin'). lra.
  - intros u d x w Hin Hedge.
    apply in_app_iff in Hin as [Hin|[[= <- <-]|[]]]; [eauto|].
    right. exists (c + w)%Q. split; [|lra]. apply in_app_iff. right.
    apply Hpush. eauto.
  - eauto.
  - rewrite map_app. simpl. apply NoDup_app. split; [done|]. split.
    + intros x Hx Hv. apply list_elem_of_In in Hx, Hv.
      destruct Hv as [<-|[]]. by apply Hfin.
    + apply NoDup_singleton.
Qed.

(** What is known of the finalized vertices when the search ends. *)
Definition settled (fin : list (Z * Q)) : Prop :=
  NoDup (map fst fin) /\
  (forall v d, In (v, d) fin ->
     (exists s, In s src /\ walk G s v d) /\ (d <= limit)%Q) /\
  (forall s v c, In s src -> walk G s v c -> (c <= limit)%Q ->
     exists d, In (v, d) fin /\ (d <= c)%Q).

Lemma inv_settled queue fin :
  inv queue fin ->
  (forall c v, In (c, v) queue -> (limit < c)%Q) ->
  settled fin.
Proof.
  intros [Hq Hd Ho He Hs Hn] Hover. split; [done|]. split; [done|].
  intros s v c Hsrc Hwalk. induction Hwalk as [|v c x w Hwalk IH Hedge]; intros Hc.
  - destruct (Hs s Hsrc) as [Hl|(c' & Hin & Hle)]; [done|].
    specialize (Hover _ _ Hin). lra.
  - pose proof (Hnonneg _ _ _ Hedge) as Hw.
    destruct IH as (d & Hin & Hle); [lra|].
    destruct (He _ _ _ _ Hin Hedge) as [(d' & Hin' & Hle')|(c' & Hin' & Hle')].
    + exists d'. split; [done| lra].
    + specialize (Hover _ _ Hin'). lra.
Qed.

Lemma reach_loop_settled steps queue fin r :
  inv queue fin ->
  reach_loop G limit steps queue fin = Some r ->
  settled r.
Proof.
  revert queue fin. induction steps as [|steps IH]; intros queue fin Hinv; simpl; [done|].
  destruct (pop_min queue) as [[[c v] rest]|] eqn:Hpop.
  - destruct (Qltb_spec limit c) as [Hover|Hin].
    + intros [= <-]. apply (inv_settled queue); [done|].
      apply pop_min_Some in Hpop as [_ Hmin].
      intros c' v' Hin. specialize (Hmin _ Hin). simpl in Hmin. lra.
    + destruct (finalized v fin) eqn:Hfin.
      * apply IH. by eapply inv_skip.
      * apply IH. by eapply inv_finalize.
  - intros [= <-]. apply pop_min_None in Hpop as ->.
    by apply (inv_settled []).
Qed.

(** *** The loop ends within [step_bound] steps *)

(** The edges out of the vertices of [vs] that are not finalized yet. *)
Definition pending (vs : list Z) (fin : list (Z * Q)) : nat :=
  list_sum (map (fun v => length (edges G v))
                (List.filter (fun v => negb (finalized v fin)) vs)).

Lemma finalized_snoc u v c (fin : list (Z * Q)) :
  finalized u (fin ++ [(v, c)]) = finalized u fin || (v =? u).
Proof.
  unfold finalized. rewrite existsb_app. simpl. by rewrite orb_false_r.
Qed.

Lemma pending_other vs fin v c :
  ~ In v vs -> pending vs (fin ++ [(v, c)]) = pending vs fin.
Proof.
  unfold pending. induction vs as [|u vs IH]; intros Hnin; [done|]. simpl.
  rewrite finalized_snoc. destruct (Z.eqb_spec v u) as [->|Hne].
  - destruct Hnin. by left.
  - rewrite orb_false_r.
    destruct (finalized u fin); simpl; rewrite IH by (intros ?; apply Hnin; by right); done.
Qed.

Lemma pending_finalize vs fin v c :
  NoDup vs -> In v vs -> finalized v fin = false ->
  (pending vs (fin ++ [(v, c)]) + length (edges G v) = pending vs fin)%nat.
Proof.
  intros Hnd. induction Hnd as [|u vs Hu Hnd IH]; intros Hin Hfin; [done|].
  destruct Hin as [<-|Hin].
  - rewrite list_elem_of_In in Hu.
    pose proof (pending_other vs fin u c Hu) as E. unfold pending in *. simpl.
    rewrite finalized_snoc, Hfin, Z.eqb_refl. simpl. lia.
  - assert (v <> u) as Hne by (intros ->; by apply Hu, list_elem_of_In).
    specialize (IH Hin Hfin).
    unfold pending in *. simpl. rewrite finalized_snoc.
    destruct (Z.eqb_spec v u); [done|]. rewrite orb_false_r.
    destruct (finalized u fin); simpl; lia.
Qed.

Lemma in_vertices v : In v (vertices G) <-> 0 <= v < NumVertex G.
Proof.
  unfold vertices. rewrite in_map_iff. split.
  - intros (n & <- & Hn%in_seq). lia.
  - intros Hv. exists (Z.to_nat v). split; [lia|]. apply in_seq. lia.
Qed.

Lemma NoDup_vertices : NoDup (vertices G).
Proof.
  unfold vertices.
  change (NoDup (Z.of_nat <$> seq 0 (Z.to_nat (NumVertex G)))).
  apply (NoDup_fmap_2 _), NoDup_seq.
Qed.

Hypothesis Hclosed : closed G.

Lemma reach_loop_terminates steps queue fin :
  (forall c v, In (c, v) queue -> 0 <= v < NumVertex G) ->
  (length queue + pending (vertices G) fin < steps)%nat ->
  exists r, reach_loop G limit steps queue fin = Some r.
Proof.
  revert queue fin. induction steps as [|steps IH]; intros queue fin Hrange Hlt; [lia|].
  simpl. destruct (pop_min queue) as [[[c v] rest]|] eqn:Hpop; [|eauto].
  destruct (Qltb limit c); [eauto|].
  apply pop_min_Some in Hpop as [Hperm _].
  pose proof (Permutation_length Hperm) as Hlen. simpl in Hlen.
  assert (Hsub : forall e, In e rest -> In e queue).
  { intros e Hin. eapply Permutation_in; [symmetry; exact Hperm|]. by right. }
  assert (Hv : In v (vertices G)).
  { apply in_vertices. apply (Hrange c). eapply Permutation_in;
      [symmetry; exact Hperm|]. by left. }
  destruct (finalized v fin) eqn:Hfin.
  - apply IH; [eauto | lia].
  - pose proof (pending_finalize _ fin v c NoDup_vertices Hv Hfin).
    apply IH.
    + intros c' x Hin. apply in_app_iff in Hin as [Hin|Hin]; [eauto|].
      apply in_map_iff in Hin as ([x' w] & [= <- <-] & Hin). eauto.
    + rewrite length_app, length_map. lia.
Qed.

Lemma ReachableWithinLimit_returns :
  (forall s, In s src -> 0 <= s < NumVertex G) ->
  exists r, ReachableWithinLimit G src limit = Some r.
Proof.
  intros Hsrc. unfold ReachableWithinLimit.
  destruct (reach_loop_terminates (step_bound G src)
              (map (fun s => (0%Q, s)) src) []) as [r ->]; [| |eauto].
  - intros c v Hin. apply in_map_iff in Hin as (s & [= <- <-] & Hs). eauto.
  - unfold step_bound. rewrite length_map. unfold pending. simpl.
    rewrite List.forallb_filter_id; [lia|].
    by apply forallb_forall.
Qed.

End Reachability.

Section ReachabilityTheorem.
Import GoInt Algorithm.

Lemma nodup_fst_unique {A B} (l : list (A * B)) v d d' :
  NoDup (map fst l) -> In (v, d) l -> In (v, d') l -> d = d'.
Proof.
  induction l as [|[u e] l IH]; simpl; [done|].
  intros [Hu Hnd]%NoDup_cons H1 H2.
  assert (Hin : forall x, In (u, x) l -> False).
  { intros x Hx. apply Hu, list_elem_of_In, in_map_iff. by exists (u, x). }
  destruct H1 as [[= -> ->]|H1], H2 as [[= ->]|H2]; try done.
  - destruct (Hin _ H2).
  - subst. destruct (Hin _ H1).
  - eauto.
Qed.

Lemma ReachableWithinLimit_spec (G : Graph) (src : list Z) (limit : Q) :
  closed G -> nonnegative G ->
  (forall s, In s src -> 0 <= s < NumVertex G) ->
  exists r,
    ReachableWithinLimit G src limit = Some r /\
    NoDup r /\
    (forall v, In v r <->
       exists d, shortest_cost G src v d /\ (d <= limit)%Q) /\
    ((0 <= limit)%Q -> forall s, In s src -> In s r).
Proof.
  intros Hclosed Hnonneg Hsrc.
  destruct (ReachableWithinLimit_returns G src limit Hclosed Hsrc) as [r E].
  exists r. split; [done|].
  unfold ReachableWithinLimit in E.
  destruct (reach_loop G limit (step_bound G src) (map (fun s => (0%Q, s)) src) [])
    as [fin|] eqn:Hloop; [|done].
  injection E as <-.
  apply (reach_loop_settled G src limit Hnonneg) in Hloop; [|apply inv_start].
  destruct Hloop as (Hnd & Hsound & Hcomplete).
  assert (Hfst : forall v, In v (map fst fin) <-> exists d, In (v, d) fin).
  { intros v. rewrite in_map_iff. split.
    - intros ([u d] & <- & Hin). eauto.
    - intros [d Hin]. by exists (v, d). }
  split; [done|]. split.
  - intros v. rewrite Hfst. split.
    + intros [d Hin]. exists d. destruct (Hsound v d Hin) as [Hwalk Hle].
      split; [|done]. split; [done|].
      intros s c Hs Hw. destruct (Qlt_le_dec limit c) as [Hover|Hwithin]; [lra|].
      destruct (Hcomplete s v c Hs Hw Hwithin) as (d' & Hin' & Hle').
      by rewrite (nodup_fst_unique fin v d d' Hnd Hin Hin').
    + intros (d & [(s & Hs & Hw) _] & Hle).
      destruct (Hcomplete s v d Hs Hw Hle) as (d' & Hin' & _). eauto.
  - intros Hlim s Hs. apply Hfst.
    destruct (Hcomplete s s 0%Q Hs (walk_here G s) Hlim) as (d & Hin & _). eauto.
Qed.


(** C2. On a graph whose edges stay among its vertices and carry no negative
    weight, reachable-within-limit returns, and returns exactly the vertices
    whose true shortest-path cost from some source is at most the budget: a
    vertex is listed if and only if it has a shortest cost and that cost is
    within the budget; no vertex is listed twice; with a budget that is not
    negative every source is listed. *)
Theorem reachable_within_limit_exact (G : Graph) (src : list Z) (limit : Q) :
  closed G -> nonnegative G ->
  (forall s, In s src -> 0 <= s < NumVertex G) ->
  exists r,
    ReachableWithinLimit G src limit = Some r /\
    NoDup r /\
    (forall v, In v r <->
       exists d, shortest_cost G src v d /\ (d <= limit)%Q) /\
    ((0 <= limit)%Q -> forall s, In s src -> In s r).
Proof. apply ReachableWithinLimit_spec. Qed.

End ReachabilityTheorem.

(** ** Commands of the level controller *)

Section Commands.
Import GoInt Main.
Context `{Deps}.



(** The cell an entity stands on. *)
Definition cell_of (e : entity) : Z * Z :=
  (of_float (X (pos e)), of_float (Y (pos e))).

(** The distance [DoAttack] and [PrepAttack] compare with the reach. *)
Definition attack_distance (tgt sel : entity) : Z :=
  maxNormi (fst (cell_of tgt)) (snd (cell_of tgt))
           (fst (cell_of sel)) (snd (cell_of sel)).


Context `{Game.Deps}.

(** C5, as the code has it. With too few action points both [PrepAttack]
    and [Prep] fail and leave the level and the action exactly as they were.
    With enough action points but no target in range they fail too, no cell's
    highlight, no entity, no command and no cache flag changes, but the list
    of candidates has been replaced by the (empty) list just computed:
    [l.in_range] for [PrepAttack], [a.targets] for [Prep]. *)
Theorem Prep_failure_effects :
  (forall (l : Level) (si : nat) (sel : entity) (weapon : Weapon),
     selected l = Some si ->
     entities l !! si = Some sel ->
     index (Weapons (Base sel)) 0 = Some weapon ->
     (Cost weapon > AP sel -> PrepAttack l = Some l) /\
     (Cost weapon <= AP sel ->
      attack_candidates l si sel weapon = [] ->
      PrepAttack l = Some (set_in_range l []))) /\
  (forall (l : Game.Level) (a : Game.ActionBasicAttack) (ent : Game.Entity),
     Game.entities l !! Game.Ent a = Some ent ->
     (Game.CurAp ent < Game.Cost a -> Game.Prep l a = Some (false, l, a)) /\
     (Game.Cost a <= Game.CurAp ent ->
      Game.getEntsWithinRange (Game.Ent a) (Game.Range a) l = [] ->
      Game.Prep l a = Some (false, l, Game.set_targets a []))).
Proof.
  split.
  - intros l si sel weapon Hsel Hent Hweapon. unfold PrepAttack.
    rewrite Hsel, Hent, Hweapon. split.
    + intros Hap. by destruct (Z.gtb_spec (Cost weapon) (AP sel)); [|lia].
    + intros Hap Hnone. destruct (Z.gtb_spec (Cost weapon) (AP sel)); [lia|].
      by rewrite Hnone.
  - intros l a ent Hent. unfold Game.Prep. rewrite Hent. split.
    + intros Hap. by destruct (Z.ltb_spec (Game.CurAp ent) (Game.Cost a)); [|lia].
    + intros Hap Hnone.
      destruct (Z.ltb_spec (Game.CurAp ent) (Game.Cost a)); [lia|].
      simpl. by rewrite Hnone.
Qed.

End Commands.

(** ** Attack resolution *)

Section AttackResolution.
Import GoInt.
Context `{Game.Deps} `{Main.Deps}.

Lemma Game_lookup_update (l : Game.Level) i f j :
  Game.entities (Game.update_entity l i f) !! j =
  if decide (i = j) then f <$> Game.entities l !! j else Game.entities l !! j.
Proof.
  unfold Game.update_entity. simpl. destruct (decide (i = j)) as [->|Hne].
  - apply list_lookup_alter_eq.
  - by apply list_lookup_alter_ne.
Qed.

Lemma Game_Cancel_entities (l : Game.Level) a :
  Game.entities (fst (Game.Cancel l a)) = Game.entities l.
Proof. reflexivity. Qed.

(** The offset that the dice add to an attack lies between -3 and 3. *)
Lemma dice_offset_bounds roll :
  5 <= roll <= 25 ->
  -3 <= sub (wrap (Z.quot (sub roll 2) 3)) 4 <= 3.
Proof.
  intros Hroll. pose proof min_int_eq. pose proof max_int_eq.
  assert (1 <= Z.quot (roll - 2) 3 <= 7).
  { rewrite Z.quot_div_nonneg by lia. split.
    - apply Z.div_le_lower_bound; lia.
    - apply Z.lt_succ_r. apply Z.div_lt_upper_bound; lia. }
  assert (sub (wrap (Z.quot (sub roll 2) 3)) 4 = Z.quot (roll - 2) 3 - 4) as ->; [|lia].
  unfold sub. rewrite (wrap_fits_int (roll - 2)) by (unfold fits_int; lia).
  rewrite (wrap_fits_int (Z.quot (roll - 2) 3)) by (unfold fits_int; lia).
  apply wrap_fits_int. unfold fits_int. lia.
Qed.

Lemma attack_roll_bound (a : Game.ActionBasicAttack) (ent : Game.Entity) roll :
  5 <= roll <= 25 ->
  fits_int (Game.Power a + Game.CurAttack ent - 3) ->
  fits_int (Game.Power a + Game.CurAttack ent + 3) ->
  Game.attack_roll a ent roll <= Game.Power a + Game.CurAttack ent + 3.
Proof.
  intros Hroll Hlo Hhi. pose proof (dice_offset_bounds roll Hroll).
  unfold Game.attack_roll. unfold fits_int in *.
  unfold add at 2. rewrite wrap_fits_int by (unfold fits_int; lia).
  unfold add. rewrite wrap_fits_int by (unfold fits_int; lia). lia.
Qed.

Lemma attack_roll_stat (a : Game.ActionBasicAttack) (e e' : Game.Entity) roll :
  Game.attack_stat e = Game.attack_stat e' ->
  Game.attack_roll a e roll = Game.attack_roll a e' roll.
Proof. unfold Game.attack_roll, Game.CurAttack. by intros ->. Qed.

Ltac game_lookup :=
  unfold Game.update_entity; simpl;
  repeat first [ rewrite list_lookup_alter_eq
               | rewrite list_lookup_alter_ne by congruence ];
  repeat match goal with
         | E : Game.entities _ !! _ = Some _ |- _ => rewrite E
         end;
  simpl.

Lemma Maintain_resolution (l : Game.Level) (a : Game.ActionBasicAttack)
  (dt roll : Z) (m : nat) (ent me : Game.Entity) :
  Game.mark a = Some m ->
  Game.entities l !! Game.Ent a = Some ent ->
  Game.entities l !! m = Some me ->
  Game.Cost a <= Game.CurAp ent ->
  exists l' a' me' sig,
    Game.Maintain l a dt roll = Some (Game.Complete, l', a') /\
    Game.entities l' !! m = Some me' /\
    Game.s me' = Game.s me ++ sig /\
    (Game.attack_roll a ent roll <= Game.CurDefense me ->
       In "undamaged"%string sig /\ ~ In "damaged"%string sig /\
       ~ In "killed"%string sig /\ Game.health me' = Game.health me) /\
    (Game.attack_roll a ent roll > Game.CurDefense me ->
       Game.health me' =
         sub (Game.health me) (sub (Game.attack_roll a ent roll) (Game.CurDefense me)) /\
       (Game.CurHealth me' <= 0 ->
          In "killed"%string sig /\ ~ In "damaged"%string sig) /\
       (Game.CurHealth me' > 0 ->
          In "damaged"%string sig /\ ~ In "killed"%string sig)).
Proof.
  intros Hmark Hent Hme Hap. unfold Game.Maintain. rewrite Hmark, Hent.
  destruct (Z.ltb_spec (Game.CurAp ent) (Game.Cost a)); [lia|].
  destruct (decide (Game.Ent a = m)) as [Heq|Hne].
  - subst m. rewrite Hent in Hme. injection Hme as <-.
    destruct (negb (Game.Melee a =? 0)).
    all: game_lookup.
    all: erewrite (attack_roll_stat a _ ent) by reflexivity.
    all: unfold Game.CurDefense at 1; simpl.
    all: destruct (Z.leb_spec (Game.attack_roll a ent roll) (Game.defense_stat ent)).
    all: game_lookup.
    all: try match goal with
         | |- context [if ?x <=? 0 then _ else _] =>
             destruct (Z.leb_spec x 0) as [Hh|Hh]
         end.
    all: game_lookup.
    all: eexists _, _, _, _; split; [reflexivity|].
    all: game_lookup.
    all: (split; [reflexivity|]); simpl; rewrite <- ?app_assoc; simpl.
    all: (split; [reflexivity|]); unfold Game.CurDefense, Game.CurHealth in *; simpl in *.
    all: split; [intros; try lia | intros; try lia].
    all: repeat split; simpl; try lia; try tauto.
    all: intros Hin; repeat (destruct Hin as [Hin|Hin]; try discriminate); done.
  - destruct (negb (Game.Melee a =? 0)).
    all: game_lookup.
    all: erewrite (attack_roll_stat a _ ent) by reflexivity.
    all: unfold Game.CurDefense at 1; simpl.
    all: destruct (Z.leb_spec (Game.attack_roll a ent roll) (Game.defense_stat me)).
    all: game_lookup.
    all: try match goal with
         | |- context [if ?x <=? 0 then _ else _] =>
             destruct (Z.leb_spec x 0) as [Hh|Hh]
         end.
    all: game_lookup.
    all: eexists _, _, _, _; split; [reflexivity|].
    all: game_lookup.
    all: (split; [reflexivity|]); simpl; rewrite <- ?app_assoc; simpl.
    all: (split; [reflexivity|]); unfold Game.CurDefense, Game.CurHealth in *; simpl in *.
    all: split; [intros; try lia | intros; try lia].
    all: repeat split; simpl; try lia; try tauto.
    all: intros Hin; repeat (destruct Hin as [Hin|Hin]; try discriminate); done.
Qed.

Lemma entities_clearCache (l : Main.Level) :
  Main.entities (Main.clearCache l) = Main.entities l.
Proof. unfold Main.clearCache. by destruct (Main.cached l). Qed.

Lemma entities_set_command (l : Main.Level) c :
  Main.entities (Main.set_command l c) = Main.entities l.
Proof. reflexivity. Qed.

Lemma entities_update_entity (l : Main.Level) i f :
  Main.entities (Main.update_entity l i f) = alter f i (Main.entities l).
Proof. reflexivity. Qed.

Ltac main_lookup :=
  repeat first [ rewrite entities_set_command
               | rewrite entities_clearCache
               | rewrite entities_update_entity
               | rewrite list_lookup_alter_eq
               | rewrite list_lookup_alter_ne by congruence ];
  repeat match goal with
         | E : Main.entities _ !! _ = Some _ |- _ => rewrite E
         end;
  cbn -[lookup alter sub Main.maxNormi of_float Main.clearCache].

Lemma DoAttack_resolution (l : Main.Level) (target si : nat)
  (sel tgt : Main.entity) (weapon : Main.Weapon) :
  Main.selected l = Some si ->
  Main.entities l !! si = Some sel ->
  index (Main.Weapons (Main.Base sel)) 0 = Some weapon ->
  Main.Cost weapon <= Main.AP sel ->
  Main.entities l !! target = Some tgt ->
  attack_distance tgt sel <= Main.Reach weapon ->
  let sel1 := Main.set_AP sel (sub (Main.AP sel) (Main.Cost weapon)) in
  let tgt1 := if decide (si = target) then sel1 else tgt in
  let res := Main.Weapon_Damage weapon sel1 tgt1 in
  exists l' tgt' sig,
    Main.DoAttack l target = Some l' /\
    Main.entities l' !! target = Some tgt' /\
    Main.s tgt' = Main.s tgt ++ sig /\
    (Main.Connect res = Main.Miss ->
       In "undamaged"%string sig /\ ~ In "damaged"%string sig /\
       ~ In "killed"%string sig /\ Main.Health tgt' = Main.Health tgt) /\
    (Main.Connect res = Main.Hit ->
       Main.Health tgt' =
         sub (Main.Health tgt) (Main.Piercing (Main.Damage res)) /\
       (Main.Health tgt' <= 0 ->
          In "killed"%string sig /\ ~ In "damaged"%string sig) /\
       (Main.Health tgt' > 0 ->
          In "damaged"%string sig /\ ~ In "killed"%string sig)).
Proof.
  intros Hsel Hent Hweapon Hap Htgt Hnear sel1 tgt1 res.
  unfold Main.DoAttack. rewrite Hsel, Hent, Hweapon.
  destruct (Z.gtb_spec (Main.Cost weapon) (Main.AP sel)); [lia|].
  unfold attack_distance, cell_of in Hnear. simpl in Hnear.
  destruct (decide (si = target)) as [Heq|Hne].
  - subst target. rewrite Hent in Htgt. injection Htgt as <-.
    main_lookup.
    destruct (Z.gtb_spec
      (Main.maxNormi (of_float (Main.X (Main.pos sel))) (of_float (Main.Y (Main.pos sel)))
         (of_float (Main.X (Main.pos sel))) (of_float (Main.Y (Main.pos sel))))
      (Main.Reach weapon)); [lia|].
    fold sel1. change (Main.Weapon_Damage weapon sel1 sel1) with res.
    unfold Main.resolve. destruct (Main.Connect res) eqn:Hconn.
    all: destruct (Main.Reach weapon >? 2).
    all: main_lookup.
    all: try match goal with
         | |- context [if ?x <=? 0 then _ else _] =>
             destruct (Z.leb_spec x 0) as [Hh|Hh]
         end.
    all: eexists _, _, _; split; [reflexivity|].
    all: main_lookup.
    all: (split; [reflexivity|]); simpl; rewrite <- ?app_assoc; simpl.
    all: (split; [reflexivity|]).
    all: split; [intros; try discriminate | intros; try discriminate].
    all: repeat split; simpl; try lia; try tauto.
    all: intros Hin; repeat (destruct Hin as [Hin|Hin]; try discriminate); done.
  - main_lookup.
    destruct (Z.gtb_spec
      (Main.maxNormi (of_float (Main.X (Main.pos tgt))) (of_float (Main.Y (Main.pos tgt)))
         (of_float (Main.X (Main.pos sel))) (of_float (Main.Y (Main.pos sel))))
      (Main.Reach weapon)); [lia|].
    fold sel1. change (Main.Weapon_Damage weapon sel1 tgt) with res.
    unfold Main.resolve. destruct (Main.Connect res) eqn:Hconn.
    all: destruct (Main.Reach weapon >? 2).
    all: main_lookup.
    all: try match goal with
         | |- context [if ?x <=? 0 then _ else _] =>
             destruct (Z.leb_spec x 0) as [Hh|Hh]
         end.
    all: eexists _, _, _; split; [reflexivity|].
    all: main_lookup.
    all: (split; [reflexivity|]); simpl; rewrite <- ?app_assoc; simpl.
    all: (split; [reflexivity|]).
    all: split; [intros; try discriminate | intros; try discriminate].
    all: repeat split; simpl; try lia; try tauto.
    all: intros Hin; repeat (destruct Hin as [Hin|Hin]; try discriminate); done.
Qed.

(** C4. A committed attack, in both places where the sources resolve one.

    [Maintain] of the basic attack, with a target marked and the cost
    covered: the call completes; when the attack roll (power + attack stat +
    dice offset, as the code computes it) is at or below the target's
    defense, the target's sprite is sent "undamaged", neither "damaged" nor
    "killed", and its health is unchanged; this is so for every result of the
    dice, which lies between 5 and 25, when the defense is at least power +
    attack stat + 3, 3 being the largest offset; when the roll exceeds the
    defense and the health after the damage is at most 0, the sprite is sent
    "killed" and not "damaged".

    [DoAttack] of the level controller, with the cost covered and the target
    in reach: a miss sends "undamaged" and leaves the health unchanged; a hit
    that takes the health to 0 or below sends "killed" and not "damaged". *)
Theorem committed_attack_signals :
  (forall (l : Game.Level) (a : Game.ActionBasicAttack) (dt roll : Z) (m : nat)
          (ent me : Game.Entity),
     Game.mark a = Some m ->
     Game.entities l !! Game.Ent a = Some ent ->
     Game.entities l !! m = Some me ->
     Game.Cost a <= Game.CurAp ent ->
     exists l' a' me' sig,
       Game.Maintain l a dt roll = Some (Game.Complete, l', a') /\
       Game.entities l' !! m = Some me' /\
       Game.s me' = Game.s me ++ sig /\
       (Game.attack_roll a ent roll <= Game.CurDefense me ->
          In "undamaged"%string sig /\ ~ In "damaged"%string sig /\
          ~ In "killed"%string sig /\ Game.health me' = Game.health me) /\
       (5 <= roll <= 25 ->
        fits_int (Game.Power a + Game.CurAttack ent - 3) ->
        fits_int (Game.Power a + Game.CurAttack ent + 3) ->
        Game.CurDefense me >= Game.Power a + Game.CurAttack ent + 3 ->
          In "undamaged"%string sig /\ ~ In "damaged"%string sig /\
          ~ In "killed"%string sig /\ Game.health me' = Game.health me) /\
       (Game.attack_roll a ent roll > Game.CurDefense me ->
        Game.CurHealth me' <= 0 ->
          In "killed"%string sig /\ ~ In "damaged"%string sig)) /\
  (forall (l : Main.Level) (target si : nat) (sel tgt : Main.entity)
          (weapon : Main.Weapon),
     Main.selected l = Some si ->
     Main.entities l !! si = Some sel ->
     index (Main.Weapons (Main.Base sel)) 0 = Some weapon ->
     Main.Cost weapon <= Main.AP sel ->
     Main.entities l !! target = Some tgt ->
     attack_distance tgt sel <= Main.Reach weapon ->
     let sel1 := Main.set_AP sel (sub (Main.AP sel) (Main.Cost weapon)) in
     let tgt1 := if decide (si = target) then sel1 else tgt in
     let res := Main.Weapon_Damage weapon sel1 tgt1 in
     exists l' tgt' sig,
       Main.DoAttack l target = Some l' /\
       Main.entities l' !! target = Some tgt' /\
       Main.s tgt' = Main.s tgt ++ sig /\
       (Main.Connect res = Main.Miss ->
          In "undamaged"%string sig /\ ~ In "damaged"%string sig /\
          ~ In "killed"%string sig /\ Main.Health tgt' = Main.Health tgt) /\
       (Main.Connect res = Main.Hit -> Main.Health tgt' <= 0 ->
          In "killed"%string sig /\ ~ In "damaged"%string sig)).
Proof.
  split.
  - intros l a dt roll m ent me Hmark Hent Hme Hap.
    destruct (Maintain_resolution l a dt roll m ent me Hmark Hent Hme Hap)
      as (l' & a' & me' & sig & E & Hme' & Hsig & Hmiss & Hhit).
    exists l', a', me', sig.
    split; [done|]. split; [done|]. split; [done|]. split; [done|]. split.
    + intros Hroll Hlo Hhi Hdef. apply Hmiss.
      pose proof (attack_roll_bound a ent roll Hroll Hlo Hhi). lia.
    + intros Hover Hdead. by apply Hhit.
  - intros l target si sel tgt weapon Hsel Hent Hweapon Hap Htgt Hnear sel1 tgt1 res.
    destruct (DoAttack_resolution l target si sel tgt weapon
                Hsel Hent Hweapon Hap Htgt Hnear)
      as (l' & tgt' & sig & E & Htgt' & Hsig & Hmiss & Hhit).
    exists l', tgt', sig.
    split; [done|]. split; [done|]. split; [done|]. split; [done|].
    intros Hconn Hdead. by apply Hhit.
Qed.

End AttackResolution.

(** ** Cancelling the basic attack *)

Section CancelAction.
Import GoInt.
Context `{Game.Deps}.

Lemma ldiff_lor_same h m : Z.ldiff (Z.lor h m) m = Z.ldiff h m.
Proof.
  apply Z.bits_inj'. intros n Hn.
  rewrite !Z.ldiff_spec, Z.lor_spec.
  by destruct (Z.testbit h n), (Z.testbit m n).
Qed.

Lemma ldiff_ldiff_same h m : Z.ldiff (Z.ldiff h m) m = Z.ldiff h m.
Proof.
  apply Z.bits_inj'. intros n Hn.
  rewrite !Z.ldiff_spec.
  by destruct (Z.testbit h n), (Z.testbit m n).
Qed.

Lemma land_ldiff_same h m : Z.land (Z.ldiff h m) m = 0.
Proof.
  apply Z.bits_inj'. intros n Hn.
  rewrite Z.land_spec, Z.ldiff_spec, Z.bits_0.
  by destruct (Z.testbit h n), (Z.testbit m n).
Qed.

(** Taking the bits of [mask] off one cell. *)
Definition unmark (mask : Z) (c : Game.CellData) : Game.CellData :=
  {| Game.highlight := Z.ldiff (Game.highlight c) mask |}.

Lemma clearCache_grid mask (l : Game.Level) :
  Game.grid (Game.clearCache mask l) =
  fmap (M:=list) (fmap (M:=list) (unmark mask)) (Game.grid l).
Proof. reflexivity. Qed.

Lemma clearCache_twice mask (l : Game.Level) :
  Game.clearCache mask (Game.clearCache mask l) = Game.clearCache mask l.
Proof.
  unfold Game.clearCache. simpl. f_equal.
  rewrite map_map. apply map_ext. intros row.
  rewrite map_map. apply map_ext. intros c. simpl.
  by rewrite ldiff_ldiff_same.
Qed.

Lemma highlight_at_clearCache (l l' : Game.Level) p mask :
  Game.highlight_at l p mask = Some l' ->
  Game.entities l' = Game.entities l /\
  Game.grid (Game.clearCache mask l') = Game.grid (Game.clearCache mask l).
Proof.
  unfold Game.highlight_at.
  destruct (index (Game.grid l) (Game.Xi p)) as [row|] eqn:Hrow; [|done].
  destruct (index row (Game.Yi p)) as [c|] eqn:Hc; [|done].
  intros [= <-]. split; [done|].
  apply index_Some in Hrow as [_ Hrow]. apply index_Some in Hc as [_ Hc].
  rewrite !clearCache_grid. simpl. unfold store.
  rewrite !list_fmap_insert.
  assert (unmark mask {| Game.highlight := Z.lor (Game.highlight c) mask |} =
          unmark mask c) as ->.
  { unfold unmark. simpl. by rewrite ldiff_lor_same. }
  rewrite (list_insert_id (unmark mask <$> row)); [|by rewrite list_lookup_fmap, Hc].
  apply list_insert_id. by rewrite list_lookup_fmap, Hrow.
Qed.

Lemma mark_targets_clearCache (ts : list nat) (l l' : Game.Level) :
  forM (fun l target =>
          do t <- Game.entities l !! target;
          Game.highlight_at l (Game.Pos t) Game.Attackable) l ts = Some l' ->
  Game.entities l' = Game.entities l /\
  Game.grid (Game.clearCache Game.Attackable l') =
  Game.grid (Game.clearCache Game.Attackable l).
Proof.
  revert l. induction ts as [|t ts IH]; intros l; simpl.
  - by intros [= <-].
  - destruct (Game.entities l !! t) as [e|]; [|done].
    destruct (Game.highlight_at l (Game.Pos e) Game.Attackable) as [l1|] eqn:E; [|done].
    intros Hrest. apply highlight_at_clearCache in E as [E1 E2].
    apply IH in Hrest as [E3 E4].
    split; [by rewrite E3 | exact (eq_trans E4 E2)].
Qed.

Lemma Forall_cells_map {A B} (Q : A -> Prop) (P : B -> Prop) (f : A -> B)
  (rows : list (list A)) :
  (forall c, Q c -> P (f c)) ->
  Forall (Forall Q) rows -> Forall (Forall P) (map (map f) rows).
Proof.
  intros Hf Hrows. induction Hrows as [|row rows Hrow _ IH]; simpl; constructor; [|done].
  induction Hrow; simpl; constructor; auto.
Qed.

Lemma Forall_cells_True {A} (rows : list (list A)) :
  Forall (Forall (fun _ => True)) rows.
Proof. induction rows as [|row rows IH]; constructor; [|done]. by induction row; constructor. Qed.

(** Every cell of the grid carries no highlight at all. *)
Definition all_none (l : Game.Level) : Prop :=
  Forall (Forall (fun c => Game.highlight c = 0)) (Game.grid l).

(** No cell of the grid carries the bits of [mask]. *)
Definition none_marked (mask : Z) (l : Game.Level) : Prop :=
  Forall (Forall (fun c => Z.land (Game.highlight c) mask = 0)) (Game.grid l).

(** C8. [Cancel] is a total function of the state, so it can be called in any
    state, also before [Prep]. A second [Cancel] changes nothing. After
    [Cancel] the chosen target and the candidates are released, the entities
    are untouched and no cell carries the attackable bit. When the state is
    the result of a successful [Prep], the grid after [Cancel] is the grid
    from before that [Prep] without the attackable bit; so if no cell was
    highlighted before [Prep], every cell is back to "none". *)
Theorem Cancel_idempotent_and_clears (l : Game.Level) (a : Game.ActionBasicAttack) :
  let l1 := fst (Game.Cancel l a) in
  let a1 := snd (Game.Cancel l a) in
  Game.Cancel l1 a1 = (l1, a1) /\
  Game.mark a1 = None /\ Game.targets a1 = [] /\
  Game.entities l1 = Game.entities l /\
  none_marked Game.Attackable l1 /\
  (forall l0 a0,
     Game.Prep l0 a0 = Some (true, l, a) ->
     Game.grid l1 = Game.grid (Game.clearCache Game.Attackable l0) /\
     (all_none l0 -> all_none l1)).
Proof.
  cbv zeta.
  change (fst (Game.Cancel l a)) with (Game.clearCache Game.Attackable l).
  change (snd (Game.Cancel l a)) with (Game.set_targets (Game.set_mark a None) []).
  split; [|split; [done|split; [done|split; [done|split]]]].
  - unfold Game.Cancel. simpl. by rewrite clearCache_twice.
  - unfold none_marked, Game.clearCache. simpl.
    apply (Forall_cells_map (fun _ => True)); [|apply Forall_cells_True].
    intros c _. simpl. apply land_ldiff_same.
  - intros l0 a0. unfold Game.Prep.
    destruct (Game.entities l0 !! Game.Ent a0) as [ent|]; [|done].
    destruct (Game.CurAp ent <? Game.Cost a0); [done|].
    destruct (len _ =? 0); [done|].
    destruct (forM _ l0 _) as [l'|] eqn:E; [|done].
    intros [= <- <-]. apply mark_targets_clearCache in E as [_ E].
    split; [exact E|]. intros Hnone. unfold all_none. rewrite E.
    unfold Game.clearCache. simpl.
    revert Hnone. apply Forall_cells_map. intros c Hc. simpl. rewrite Hc.
    apply Z.ldiff_0_l.
Qed.

End CancelAction.

(** ** The highlight cache *)

Section HighlightCache.
Import GoInt Main.
Context `{Deps}.

(** The part of a level that the cache discipline is about: the cells and
    the [cached] flag. *)
Definition cache_of (l : Level) : list (list CellData) * bool :=
  (grid l, cached l).

(** What [clearCache] does to it. *)
Definition clear_pair (gc : list (list CellData) * bool) : list (list CellData) * bool :=
  if negb (snd gc) then gc else (map (map Clear) (fst gc), false).

Lemma cache_of_clearCache l : cache_of (clearCache l) = clear_pair (cache_of l).
Proof.
  unfold clearCache, clear_pair, cache_of. simpl.
  destruct (cached l) eqn:E; simpl; by rewrite ?E.
Qed.

Lemma clear_pair_idem gc : clear_pair (clear_pair gc) = clear_pair gc.
Proof. destruct gc as [g []]; reflexivity. Qed.

(** An operation keeps the cache or clears it. *)
Definition keeps_or_clears (l l' : Level) : Prop :=
  cache_of l' = cache_of l \/ cache_of l' = clear_pair (cache_of l).

Lemma keeps_or_clears_refl l : keeps_or_clears l l.
Proof. by left. Qed.

Lemma keeps_or_clears_clear l l' :
  keeps_or_clears l l' -> keeps_or_clears l (clearCache l').
Proof.
  intros [E|E]; right; rewrite cache_of_clearCache, E.
  - done.
  - apply clear_pair_idem.
Qed.

Lemma keeps_or_clears_same l l' l'' :
  keeps_or_clears l l' -> cache_of l'' = cache_of l' -> keeps_or_clears l l''.
Proof. intros [E|E] E'; [left|right]; congruence. Qed.

Lemma PrepAttack_cache l l' : PrepAttack l = Some l' -> keeps_or_clears l l'.
Proof.
  unfold PrepAttack. destruct (selected l) as [si|]; [|intros [= <-]; by left].
  destruct (entities l !! si) as [sel|]; [|done].
  destruct (index _ 0) as [weapon|]; [|done].
  destruct (Cost weapon >? AP sel); [intros [= <-]; by left|].
  simpl. destruct (len _ =? 0); intros [= <-]; [by left|].
  by apply keeps_or_clears_clear; left.
Qed.

Lemma resolve_cache res target l l' :
  resolve res target l = Some l' -> cache_of l' = cache_of l.
Proof.
  unfold resolve. destruct (Connect res).
  - destruct (_ !! target) as [t|]; [|done].
    by destruct (Health t <=? 0); intros [= <-].
  - by intros [= <-].
Qed.

Lemma DoAttack_cache l target l' : DoAttack l target = Some l' -> keeps_or_clears l l'.
Proof.
  unfold DoAttack. destruct (selected l) as [si|]; [|intros [= <-]; by left].
  destruct (entities l !! si) as [sel|]; [|done].
  destruct (index _ 0) as [weapon|]; [|done].
  destruct (Cost weapon >? AP sel); [intros [= <-]; by left|].
  destruct (_ !! target) as [tgt|]; [|done].
  destruct (_ !! si) as [sel'|]; [|done].
  destruct (_ >? Reach weapon); [intros [= <-]; by left|].
  destruct (resolve _ _ _) as [l1|] eqn:E; [|done].
  intros [= <-]. apply resolve_cache in E.
  eapply keeps_or_clears_same; [|reflexivity].
  apply keeps_or_clears_clear. left. rewrite E. by destruct (Reach weapon >? 2).
Qed.

Lemma PrepMove_cache l l' : PrepMove l = Some l' -> keeps_or_clears l l'.
Proof.
  unfold PrepMove. destruct (selected l) as [si|]; [|intros [= <-]; by left].
  destruct (entities l !! si) as [sel|]; [|done].
  destruct (ReachableWithinLimit _ _ _) as [r|]; [|done].
  simpl. destruct (len r =? 0); intros [= <-]; [by left|].
  by apply keeps_or_clears_clear; left.
Qed.

Lemma queue_path_cache si (vs : list Z) (l l' : Level) :
  forM (fun (l : Level) v =>
          do (x, y) <- fromVertex l v;
          Some (update_entity l si (fun e => set_path e (path e ++ [(x, y)]))))
       l vs = Some l' ->
  cache_of l' = cache_of l.
Proof.
  revert l. induction vs as [|v vs IH]; intros l; simpl; [by intros [= <-]|].
  destruct (fromVertex l v) as [[x y]|]; [|done].
  intros E. by apply IH in E.
Qed.

Lemma DoMove_cache l x y l' : DoMove l x y = Some l' -> keeps_or_clears l l'.
Proof.
  unfold DoMove. destruct (selected l) as [si|]; [|intros [= <-]; by left].
  destruct (entities l !! si) as [sel|]; [|done].
  destruct (Dijkstra _ _ _) as [[ap path_]|]; [|done].
  destruct ((len path_ =? 0) || (of_float ap >? AP sel)); [intros [= <-]; by left|].
  destruct (forM _ _ _) as [l1|] eqn:E; [|done].
  intros [= <-]. apply queue_path_cache in E.
  eapply keeps_or_clears_same; [|reflexivity].
  apply keeps_or_clears_clear. by left.
Qed.

Lemma HandleEventGroup_cache l x y press l' :
  HandleEventGroup l x y press = Some l' -> keeps_or_clears l l'.
Proof.
  unfold HandleEventGroup. destruct (WindowToBoard x y) as [bx by_].
  destruct press; simpl; [|intros [= <-]; by left].
  destruct (nearest _ _) as [ent dist].
  destruct (bool_decide _ && closer_than dist 3).
  { intros [= <-]. eapply keeps_or_clears_same; [|reflexivity].
    apply keeps_or_clears_clear. by left. }
  remember (if negb (bool_decide (selected l = None)) && closer_than dist (1 # 2)
            then ent else None) as target eqn:Htarget.
  clear Htarget. destruct (command l) eqn:Hc; simpl.
  - intros [= <-]. eapply keeps_or_clears_same; [|reflexivity].
    apply keeps_or_clears_clear. left. by destruct target.
  - destruct target as [t|].
    + intros [= <-]. eapply keeps_or_clears_same; [|reflexivity].
      apply keeps_or_clears_clear. by left.
    + destruct (DoMove _ _ _) as [l1|] eqn:E; [|done]. intros [= <-].
      apply DoMove_cache in E.
      eapply keeps_or_clears_same; [|reflexivity].
      apply keeps_or_clears_clear.
      destruct E as [E|E]; [left|right]; exact E.
  - destruct target as [t|].
    + destruct (DoAttack _ _) as [l1|] eqn:E; [|done]. intros [= <-].
      apply DoAttack_cache in E.
      eapply keeps_or_clears_same; [|reflexivity].
      apply keeps_or_clears_clear.
      destruct E as [E|E]; [left|right]; exact E.
    + intros [= <-]. eapply keeps_or_clears_same; [|reflexivity].
      apply keeps_or_clears_clear. by left.
Qed.

(** *** The per-frame step *)

(** The entity's integer cell position changes when it thinks. *)
Definition moves (dt : Z) (e : entity) : bool :=
  negb (of_float (X (pos e)) =? of_float (X (pos (entity_Think dt e)))) ||
  negb (of_float (Y (pos e)) =? of_float (Y (pos (entity_Think dt e)))).

Definition moves_at (dt : Z) (l : Level) (i : nat) : bool :=
  match entities l !! i with
  | Some e => moves dt e
  | None => false
  end.

Lemma think_entity_spec dt l i l' :
  think_entity dt l i = Some l' ->
  entities l' = alter (entity_Think dt) i (entities l) /\
  cache_of l' = if moves_at dt l i then clear_pair (cache_of l) else cache_of l.
Proof.
  unfold think_entity, moves_at.
  destruct (entities l !! i) as [e|] eqn:He; [|done].
  rewrite entities_update_entity, list_lookup_alter_eq, He. simpl.
  fold (moves dt e). destruct (moves dt e); intros [= <-]; simpl.
  - split; [by rewrite entities_clearCache|].
    change (cache_of (clearCache (update_entity l i (entity_Think dt))) =
            clear_pair (cache_of l)).
    by rewrite cache_of_clearCache.
  - done.
Qed.

Lemma think_entities_spec dt (ids : list nat) l l' :
  NoDup ids ->
  forM (think_entity dt) l ids = Some l' ->
  cache_of l' = (if existsb (moves_at dt l) ids
                 then clear_pair (cache_of l) else cache_of l) /\
  (forall j, j ∉ ids -> entities l' !! j = entities l !! j).
Proof.
  intros Hnd. revert l. induction Hnd as [|i ids Hi Hnd IH]; intros l; simpl.
  - by intros [= <-].
  - destruct (think_entity dt l i) as [l1|] eqn:E1; [|done]. intros E.
    apply think_entity_spec in E1 as [Hents Hcache].
    apply IH in E as [Hcache' Hother].
    assert (Hsame : forall j, j <> i -> entities l1 !! j = entities l !! j).
    { intros j Hj. rewrite Hents. by apply list_lookup_alter_ne. }
    assert (existsb (moves_at dt l1) ids = existsb (moves_at dt l) ids) as Hex.
    { clear -Hi Hsame. induction ids as [|j ids IH]; [done|]. simpl.
      apply not_elem_of_cons in Hi as [Hji Hi].
      unfold moves_at at 1 3. rewrite (Hsame j) by done. by rewrite IH. }
    split.
    + rewrite Hcache', Hex, Hcache.
      destruct (moves_at dt l i), (existsb (moves_at dt l) ids); simpl; try done.
      apply clear_pair_idem.
    + intros j Hj. apply not_elem_of_cons in Hj as [Hji Hj].
      rewrite Hother by done. by apply Hsame.
Qed.

Lemma set_terrain_cache l t : cache_of (set_terrain l t) = cache_of l.
Proof. reflexivity. Qed.

Lemma draw_cursor_cache l l' :
  draw_cursor l = Some l' ->
  cache_of l' = cache_of l /\ entities l' = entities l /\ selected l' = selected l.
Proof.
  unfold draw_cursor. destruct (WindowToBoard _ _) as [bx by_].
  match goal with
  | |- match ?c with Some _ => _ | None => None end = _ -> _ =>
      destruct c as [[]|]; [| |done]
  end.
  - destruct (cellAt _ _ _); [|done]. by intros [= <-].
  - by intros [= <-].
Qed.

Lemma draw_selected_cache l l' :
  draw_selected l = Some l' -> cache_of l' = cache_of l.
Proof.
  unfold draw_selected. destruct (selected l) as [si|]; [|by intros [= <-]].
  destruct (_ !! si) as [sel|]; [|done].
  destruct (cellAt _ _ _); [|done]. by intros [= <-].
Qed.

(** [Think] is the entity loop, then [maintainCommand], then drawing, which
    leaves the cells alone, then [l.cached = true]. *)
Lemma Think_stages l dt l' :
  Think l dt = Some l' ->
  exists l1 l2,
    think_entities dt l = Some l1 /\
    maintainCommand l1 = Some l2 /\
    grid l' = grid l2 /\ cached l' = true.
Proof.
  unfold Think. destruct (think_entities dt l) as [l1|] eqn:E1; [|done].
  destruct (maintainCommand l1) as [l2|] eqn:E2; [|done].
  destruct (draw_cursor (draw_tiles l2)) as [l3|] eqn:E3; [|done].
  destruct (draw_selected l3) as [l4|] eqn:E4; [|done].
  intros [= <-]. exists l1, l2. split; [done|]. split; [exact E2|].
  apply draw_cursor_cache in E3 as [E3 _]. apply draw_selected_cache in E4.
  split; [|done]. simpl.
  change (fst (cache_of l4) = fst (cache_of l2)). by rewrite E4, E3.
Qed.

End HighlightCache.

(** ** Loading a level *)

Section LoadingFacts.
Import GoInt Main.
Context `{LoadDeps}.

(** The terrain that the document gives for the cell [(i, j)], if the cell is
    there and its label is a known one. *)
Definition resolved (ldc : levelDataContainer) (i j : nat) : option Terrain :=
  match Cells (Level_data ldc) !! i with
  | Some cells_i =>
    match cells_i !! j with
    | Some c => terrain_of_label (Terrain_label c)
    | None => None
    end
  | None => None
  end.

(** A grid of [dx] rows of [dy] cells. *)
Definition has_dims (dx dy : nat) (g : list (list CellData)) : Prop :=
  length g = dx /\ Forall (fun row => length row = dy) g.

Lemma slice_replicate {A} (x : A) (n lo hi : nat) :
  (lo <= hi)%nat -> (hi <= n)%nat ->
  slice (replicate n x) (Z.of_nat lo) (Z.of_nat hi) = Some (replicate (hi - lo) x).
Proof.
  intros Hlo Hhi. unfold slice, len. rewrite length_replicate.
  destruct (Z.leb_spec 0 (Z.of_nat lo)); [|lia].
  destruct (Z.leb_spec (Z.of_nat lo) (Z.of_nat hi)); [|lia].
  destruct (Z.leb_spec (Z.of_nat hi) (Z.of_nat n)); [|lia]. simpl.
  rewrite drop_replicate, take_replicate. do 2 f_equal. lia.
Qed.

Lemma mul_nat_fits (a b : nat) :
  Z.of_nat (a * b) <= max_int -> mul (Z.of_nat a) (Z.of_nat b) = Z.of_nat (a * b).
Proof.
  intros Hfit. unfold mul. rewrite wrap_fits_int; [lia|].
  unfold fits_int. pose proof min_int_eq. lia.
Qed.

Lemma build_rows (dx dy : nat) (n k : nat) (g : list (list CellData)) :
  Z.of_nat dx <= max_int ->
  Z.of_nat (dx * dy) <= max_int ->
  (k + n <= dx)%nat ->
  forO (fun g (i : nat) =>
          obind (or_panic "slice bounds out of range"
                   (slice (replicate (dx * dy) zero_cell)
                          (mul (Z.of_nat i) (Z.of_nat dy))
                          (mul (add (Z.of_nat i) 1) (Z.of_nat dy))))
                (fun row => Returned (g ++ [row])))
       g (seq k n) =
  Returned (g ++ replicate n (replicate dy zero_cell)).
Proof.
  intros Hdx Hfit. revert k g. induction n as [|n IH]; intros k g Hk; simpl.
  - by rewrite app_nil_r.
  - assert (add (Z.of_nat k) 1 = Z.of_nat (S k)) as ->.
    { unfold add. rewrite wrap_fits_int; [lia|]. unfold fits_int.
      pose proof min_int_eq. lia. }
    assert (k * dy <= dx * dy /\ S k * dy <= dx * dy)%nat as [? ?] by nia.
    rewrite !mul_nat_fits by lia.
    rewrite slice_replicate by lia. simpl.
    rewrite IH by lia. rewrite <- app_assoc. simpl.
    do 4 f_equal. lia.
Qed.

Lemma has_dims_replicate dx dy (c : CellData) :
  has_dims dx dy (replicate dx (replicate dy c)).
Proof.
  split; [apply length_replicate|].
  apply Forall_replicate, length_replicate.
Qed.

Lemma forO_inv {A B} (I : B -> Prop) (f : B -> A -> outcome B) l b r :
  (forall b a b', I b -> f b a = Returned b' -> I b') ->
  I b -> forO f b l = Returned r -> I r.
Proof.
  intros Hstep. revert b. induction l as [|a l IH]; intros b Hb; simpl.
  - by intros [= <-].
  - destruct (f b a) as [b'|m] eqn:E; simpl; [|done]. eauto.
Qed.

Lemma forO_panics {A B} (I : B -> Prop) (f : B -> A -> outcome B) l b a :
  (forall b a b', I b -> f b a = Returned b' -> I b') ->
  I b -> In a l ->
  (forall b, I b -> exists m, f b a = Panicked m) ->
  exists m, forO f b l = Panicked m.
Proof.
  intros Hstep Hb Hin Hbad. revert b Hb.
  induction l as [|a' l IH]; intros b Hb; simpl; [done|].
  destruct Hin as [->|Hin].
  - destruct (Hbad b Hb) as [m ->]. simpl. eauto.
  - destruct (f b a') as [b'|m] eqn:E; simpl; [|eauto]. eauto.
Qed.

Lemma forO_seq_inv {B} (I : nat -> B -> Prop) (f : B -> nat -> outcome B) n k b :
  I k b ->
  (forall i b, (k <= i < k + n)%nat -> I i b ->
     exists b', f b i = Returned b' /\ I (S i) b') ->
  exists r, forO f b (seq k n) = Returned r /\ I (k + n)%nat r.
Proof.
  revert k b. induction n as [|n IH]; intros k b Hb Hstep; simpl.
  - exists b. by rewrite Nat.add_0_r.
  - destruct (Hstep k b ltac:(lia) Hb) as (b' & -> & Hb'). simpl.
    destruct (IH (S k) b' Hb') as (r & -> & Hr).
    + intros i b'' Hi. apply Hstep. lia.
    + exists r. split; [done|]. by replace (k + S n)%nat with (S k + n)%nat by lia.
Qed.

(** The cell [(i, j)] of a grid. *)
Definition cell_at (g : list (list CellData)) (i j : nat) : option CellData :=
  match g !! i with
  | Some row => row !! j
  | None => None
  end.

Lemma has_dims_cell_at dx dy g i j :
  has_dims dx dy g -> (i < dx)%nat -> (j < dy)%nat ->
  exists row c, g !! i = Some row /\ row !! j = Some c /\ length row = dy.
Proof.
  intros [Hlen Hrows] Hi Hj.
  destruct (lookup_lt_is_Some_2 g i) as [row Hrow]; [lia|].
  assert (length row = dy) as Hr.
  { rewrite Forall_forall in Hrows. apply Hrows, list_elem_of_lookup. eauto. }
  destruct (lookup_lt_is_Some_2 row j) as [c Hc]; [lia|]. eauto.
Qed.

Lemma has_dims_insert dx dy g i row j c :
  has_dims dx dy g -> g !! i = Some row ->
  has_dims dx dy (<[i := <[j := c]> row]> g).
Proof.
  intros [Hlen Hrows] Hrow. split; [by rewrite length_insert|].
  apply Forall_insert; [done|]. rewrite length_insert.
  rewrite Forall_forall in Hrows. apply Hrows, list_elem_of_lookup. eauto.
Qed.

Lemma cell_at_insert g i row j c i' j' :
  g !! i = Some row -> (j < length row)%nat ->
  cell_at (<[i := <[j := c]> row]> g) i' j' =
  if decide (i' = i /\ j' = j) then Some c else cell_at g i' j'.
Proof.
  intros Hrow Hj. unfold cell_at.
  assert (i < length g)%nat by (by eapply lookup_lt_Some).
  destruct (decide (i' = i)) as [->|Hi].
  - rewrite list_lookup_insert_eq by done. rewrite Hrow.
    destruct (decide (j' = j)) as [->|Hj'].
    + rewrite list_lookup_insert_eq by done. by rewrite decide_True.
    + rewrite list_lookup_insert_ne by done. rewrite decide_False; [done|tauto].
  - rewrite list_lookup_insert_ne by done. rewrite decide_False; [done|tauto].
Qed.

(** All cells carry the zero highlight. *)
Definition unlit (g : list (list CellData)) : Prop :=
  Forall (Forall (fun c : CellData => highlight c = NoHighlight)) g.

Lemma unlit_insert g i row j old t :
  unlit g -> g !! i = Some row -> row !! j = Some old ->
  unlit (<[i := <[j := with_Terrain old t]> row]> g).
Proof.
  intros Hg Hrow Hold. unfold unlit in *.
  assert (Forall (fun c : CellData => highlight c = NoHighlight) row) as Hr.
  { rewrite Forall_forall in Hg. apply Hg, list_elem_of_lookup. eauto. }
  apply Forall_insert; [done|]. apply Forall_insert; [done|]. simpl.
  rewrite Forall_forall in Hr. apply Hr, list_elem_of_lookup. eauto.
Qed.

Lemma load_cell_Returned ldc i g j g' :
  load_cell ldc i g j = Returned g' ->
  exists t row old,
    resolved ldc i j = Some t /\ g !! i = Some row /\ row !! j = Some old /\
    g' = <[i := <[j := with_Terrain old t]> row]> g.
Proof.
  unfold load_cell, resolved.
  destruct (Cells (Level_data ldc) !! i) as [cells_i|]; [|done]. simpl.
  destruct (cells_i !! j) as [c|]; [|done]. simpl.
  destruct (terrain_of_label (Terrain_label c)) as [t|]; [|done]. simpl.
  destruct (g !! i) as [row|] eqn:Hrow; [|done]. simpl.
  destruct (row !! j) as [old|] eqn:Hold; [|done]. simpl.
  intros [= <-]. by exists t, row, old.
Qed.

Lemma load_cell_unresolved ldc i g j :
  resolved ldc i j = None -> exists m, load_cell ldc i g j = Panicked m.
Proof.
  unfold load_cell, resolved.
  destruct (Cells (Level_data ldc) !! i) as [cells_i|]; [|eauto]. simpl.
  destruct (cells_i !! j) as [c|]; [|eauto]. simpl.
  intros ->. simpl. eauto.
Qed.

Lemma load_cell_resolved ldc i g j t row old :
  resolved ldc i j = Some t -> g !! i = Some row -> row !! j = Some old ->
  load_cell ldc i g j = Returned (<[i := <[j := with_Terrain old t]> row]> g).
Proof.
  unfold load_cell, resolved. intros Hres Hrow Hold.
  destruct (Cells (Level_data ldc) !! i) as [cells_i|]; [|done]. simpl.
  destruct (cells_i !! j) as [c|]; [|done]. simpl.
  rewrite Hres, Hrow. simpl. by rewrite Hold.
Qed.

Lemma load_cell_dims dx dy ldc i g j g' :
  has_dims dx dy g -> load_cell ldc i g j = Returned g' -> has_dims dx dy g'.
Proof.
  intros Hg (t & row & old & _ & Hrow & _ & ->)%load_cell_Returned.
  by apply has_dims_insert.
Qed.

Lemma load_cell_unlit ldc i g j g' :
  unlit g -> load_cell ldc i g j = Returned g' -> unlit g'.
Proof.
  intros Hg (t & row & old & _ & Hrow & Hold & ->)%load_cell_Returned.
  by apply unlit_insert.
Qed.

Lemma load_row_dims dx dy ldc g i g' :
  has_dims dx dy g -> load_row ldc g i = Returned g' -> has_dims dx dy g'.
Proof.
  intros Hg. unfold load_row. destruct (g !! i) as [row|]; [|done]. simpl.
  apply forO_inv; [|done]. intros. by eapply load_cell_dims.
Qed.

Lemma load_row_unlit ldc g i g' :
  unlit g -> load_row ldc g i = Returned g' -> unlit g'.
Proof.
  intros Hg. unfold load_row. destruct (g !! i) as [row|]; [|done]. simpl.
  apply forO_inv; [|done]. intros. by eapply load_cell_unlit.
Qed.

(** The cells before [(i, m)] in the order of the two loops hold the terrain
    that the document gives them. *)
Definition loaded_up_to (ldc : levelDataContainer) (dx dy i m : nat)
  (g : list (list CellData)) : Prop :=
  has_dims dx dy g /\
  forall i' j', (i' < i \/ (i' = i /\ j' < m))%nat -> (i' < dx)%nat -> (j' < dy)%nat ->
    exists c, cell_at g i' j' = Some c /\ Some (cell_Terrain c) = resolved ldc i' j'.

Lemma load_row_loaded ldc dx dy i g :
  (i < dx)%nat ->
  (forall j, (j < dy)%nat -> is_Some (resolved ldc i j)) ->
  loaded_up_to ldc dx dy i 0 g ->
  exists g', load_row ldc g i = Returned g' /\ loaded_up_to ldc dx dy (S i) 0 g'.
Proof.
  intros Hi Hres Hg. unfold load_row.
  destruct (lookup_lt_is_Some_2 g i) as [row Hrow]; [destruct Hg as [[-> _] _]; lia|].
  assert (length row = dy) as Hlen.
  { destruct Hg as [[_ Hrows] _]. rewrite Forall_forall in Hrows.
    apply Hrows, list_elem_of_lookup. eauto. }
  rewrite Hrow. simpl. rewrite Hlen.
  destruct (forO_seq_inv (loaded_up_to ldc dx dy i) (load_cell ldc i) dy 0 g Hg)
    as (g' & E & [Hdims Hcells]).
  - intros j g1 Hj [Hdims Hcells].
    destruct (Hres j ltac:(lia)) as [t Ht].
    destruct (has_dims_cell_at dx dy g1 i j Hdims Hi ltac:(lia))
      as (row1 & old & Hrow1 & Hold & Hlen1).
    eexists. split; [by eapply load_cell_resolved|].
    split; [by apply has_dims_insert|].
    intros i' j' Hbefore Hi' Hj'.
    rewrite cell_at_insert by (done || lia). destruct (decide (i' = i /\ j' = j)) as [[-> ->]|Hne].
    + eexists. split; [done|]. by rewrite Ht.
    + apply Hcells; [lia|done..].
  - exists g'. split; [done|]. split; [done|].
    intros i' j' Hbefore Hi' Hj'. apply Hcells; [lia|done..].
Qed.

Lemma load_rows_loaded ldc dx dy g :
  (forall i j, (i < dx)%nat -> (j < dy)%nat -> is_Some (resolved ldc i j)) ->
  has_dims dx dy g ->
  exists g', forO (load_row ldc) g (seq 0 dx) = Returned g' /\
             loaded_up_to ldc dx dy dx 0 g'.
Proof.
  intros Hres Hg.
  apply (forO_seq_inv (fun i => loaded_up_to ldc dx dy i 0) (load_row ldc) dx 0 g).
  - split; [done|]. intros i' j' Hbefore. lia.
  - intros i g1 Hi Hg1. apply load_row_loaded; [lia| |done].
    intros j Hj. apply Hres; lia.
Qed.

Lemma load_rows_unresolved ldc dx dy g i j :
  (i < dx)%nat -> (j < dy)%nat -> resolved ldc i j = None ->
  has_dims dx dy g ->
  exists m, forO (load_row ldc) g (seq 0 dx) = Panicked m.
Proof.
  intros Hi Hj Hres Hg.
  apply (forO_panics (has_dims dx dy) (load_row ldc) _ g i).
  - intros. by eapply load_row_dims.
  - done.
  - apply in_seq. lia.
  - intros g1 Hg1. unfold load_row.
    destruct (has_dims_cell_at dx dy g1 i j Hg1 Hi Hj) as (row & _ & -> & _ & Hlen).
    simpl. rewrite Hlen.
    apply (forO_panics (has_dims dx dy) (load_cell ldc i) _ g1 j).
    + intros. by eapply load_cell_dims.
    + done.
    + apply in_seq. lia.
    + intros. by apply load_cell_unresolved.
Qed.

Lemma unlit_zero_rows (all_cells : list CellData) (g : list (list CellData)) lo hi row :
  Forall (fun c : CellData => highlight c = NoHighlight) all_cells ->
  unlit g -> slice all_cells lo hi = Some row -> unlit (g ++ [row]).
Proof.
  intros Hall Hg. unfold slice. destruct (_ && _); [|done]. intros [= <-].
  apply Forall_app. split; [done|]. constructor; [|done].
  by apply Forall_take, Forall_drop.
Qed.

(** Whatever level [LoadLevel] returns has no highlight on any cell, an
    unset cache flag, no entity and no command. *)
Lemma LoadLevel_fresh pathname l err :
  LoadLevel pathname = Returned (Some l, err) ->
  unlit (grid l) /\ cached l = false /\ entities l = [] /\ command l = NoCommand.
Proof.
  unfold LoadLevel.
  destruct (os_Open _) as [?|datafile]; [done|].
  destruct (ioutil_ReadAll datafile) as [?|data]; [done|].
  destruct (index _ 0) as [cells0|]; [|done]. simpl.
  destruct (make_cells _) as [all_cells|] eqn:Hmake; [|done]. simpl.
  assert (Forall (fun c : CellData => highlight c = NoHighlight) all_cells) as Hall.
  { unfold make_cells in Hmake. destruct (_ <? 0); [done|].
    injection Hmake as <-. by apply Forall_replicate. }
  destruct (forO _ [] _) as [g|] eqn:Hrows; [|done]. simpl.
  assert (unlit g) as Hg.
  { revert Hrows. apply forO_inv; [|constructor].
    intros g1 i g2 Hg1. destruct (slice _ _ _) as [row|] eqn:Hs; [|done]. simpl.
    intros [= <-]. by eapply unlit_zero_rows. }
  destruct (forO (load_row _) g _) as [g'|] eqn:Hload; [|done]. simpl.
  assert (unlit g') as Hg'.
  { revert Hload. apply forO_inv; [|done]. intros. by eapply load_row_unlit. }
  destruct (gui_MakeTerrain _ _ _ _ _); [done|]. by intros [= <- <-].
Qed.

(** C6, as the code has it. Once the file has been read, and for the
    document left by the decoder: an empty array of cells makes [LoadLevel]
    panic; otherwise let [dx] be the number of rows and [dy] the length of the
    first row, with [dx * dy] cells fitting an [int]. (1) If some cell of the
    [dx] by [dy] rectangle is missing (its row is too short) or carries a
    label that is not a terrain, [LoadLevel] panics and returns nothing. (2)
    If every cell of the rectangle is there with a known label, [LoadLevel]
    returns the error of the terrain widget if it reports one, and otherwise
    a level whose grid has [dx] rows of [dy] cells, each with the terrain
    that its label names and with no highlight. Cells beyond the length of the
    first row are never looked at. *)
Theorem LoadLevel_resolves_labels (pathname datafile data : string) :
  os_Open (filepath_Join (filepath_Clean pathname) "data.json") = inr datafile ->
  ioutil_ReadAll datafile = inr data ->
  let ldc := json_Unmarshal data in
  let cells := Cells (Level_data ldc) in
  (cells = [] -> exists msg, LoadLevel pathname = Panicked msg) /\
  (forall cells0, cells !! 0%nat = Some cells0 ->
     let dx := length cells in
     let dy := length cells0 in
     Z.of_nat dx <= max_int -> Z.of_nat (dx * dy) <= max_int ->
     ((exists i j, (i < dx)%nat /\ (j < dy)%nat /\ resolved ldc i j = None) ->
        exists msg, LoadLevel pathname = Panicked msg) /\
     ((forall i j, (i < dx)%nat -> (j < dy)%nat -> is_Some (resolved ldc i j)) ->
        match gui_MakeTerrain
                (filepath_Join (filepath_Clean pathname) (Image (Level_data ldc)))
                100 (Z.of_nat dx) (Z.of_nat dy) 65 with
        | Some err => LoadLevel pathname = Returned (None, Some err)
        | None =>
          exists l,
            LoadLevel pathname = Returned (Some l, None) /\
            has_dims dx dy (grid l) /\ unlit (grid l) /\
            forall i j, (i < dx)%nat -> (j < dy)%nat ->
              exists c, cell_at (grid l) i j = Some c /\
                        Some (cell_Terrain c) = resolved ldc i j
        end)).
Proof.
  intros Hopen Hread ldc cells. split.
  - intros Hnil. unfold LoadLevel. rewrite Hopen, Hread.
    fold ldc. fold cells. rewrite Hnil. simpl. eauto.
  - intros cells0 Hcells0 dx dy Hdx Hfit.
    assert (forall k : outcome (option Level * option string) -> Prop,
              (forall g, has_dims dx dy g -> unlit g ->
                 k (obind (forO (load_row ldc) g (seq 0 (length g))) (fun g =>
                      match gui_MakeTerrain
                              (filepath_Join (filepath_Clean pathname)
                                             (Image (Level_data ldc)))
                              100 (Z.of_nat dx) (Z.of_nat dy) 65 with
                      | Some err => Returned (None, Some err)
                      | None => Returned (Some (empty_Level g), None)
                      end))) ->
              k (LoadLevel pathname)) as Hshape.
    { intros k Hk. unfold LoadLevel. rewrite Hopen, Hread. fold ldc. fold cells.
      unfold index. simpl. change (Z.to_nat 0) with 0%nat. rewrite Hcells0. simpl.
      unfold len. fold dx. fold dy. rewrite mul_nat_fits by done.
      unfold make_cells. destruct (Z.ltb_spec (Z.of_nat (dx * dy)) 0); [lia|]. simpl.
      rewrite !Nat2Z.id.
      rewrite (build_rows dx dy dx 0 []) by (done || lia). simpl.
      apply Hk; [apply has_dims_replicate|].
      apply Forall_replicate, Forall_replicate. done. }
    split.
    + intros (i & j & Hi & Hj & Hres). apply Hshape. intros g Hg _.
      destruct (load_rows_unresolved ldc dx dy g i j Hi Hj Hres Hg) as [m Hm].
      destruct Hg as [-> _]. rewrite Hm. simpl. eauto.
    + intros Hres. apply Hshape. intros g Hg Hunlit.
      destruct (load_rows_loaded ldc dx dy g Hres Hg) as (g' & Hload & Hdims & Hcells).
      pose proof Hg as [Hlen _]. rewrite Hlen, Hload. simpl.
      destruct (gui_MakeTerrain _ _ _ _ _); [done|].
      exists (empty_Level g'). split; [done|]. split; [done|]. split.
      * revert Hload. apply forO_inv; [|done]. intros. by eapply load_row_unlit.
      * intros i j Hi Hj. apply Hcells; [lia|done..].
Qed.

End LoadingFacts.

(** ** States of a running level *)

Section Running.
Import GoInt Main.
Context `{Deps} `{LoadDeps}.

(** One call on the level. Besides the methods of the controller, the
    program that owns the level places and replaces its entities, and the
    terrain widget forgets the drawables once a frame is drawn; neither is
    part of the embedded sources and neither has access to the cells. *)
Inductive step : Level -> Level -> Prop :=
| step_Think l dt l' : Think l dt = Some l' -> step l l'
| step_HandleEventGroup l x y press l' :
    HandleEventGroup l x y press = Some l' -> step l l'
| step_PrepAttack l l' : PrepAttack l = Some l' -> step l l'
| step_DoAttack l target l' : DoAttack l target = Some l' -> step l l'
| step_PrepMove l l' : PrepMove l = Some l' -> step l l'
| step_DoMove l x y l' : DoMove l x y = Some l' -> step l l'
| step_Round l : step l (Round l)
| step_Setup l : step l (Setup l)
| step_populate l es : step l (set_entities l es)
| step_drawn l : step l (set_terrain l []).

(** The levels a program can get to: returned by [LoadLevel], then driven by
    calls. *)
Inductive in_play : Level -> Prop :=
| in_play_loaded pathname l :
    LoadLevel pathname = Returned (Some l, None) -> in_play l
| in_play_step l l' : in_play l -> step l l' -> in_play l'.

(** While the cache flag is unset no cell is highlighted. *)
Definition cache_valid (l : Level) : Prop :=
  cached l = false -> unlit (grid l).

(** No cell of the grid holds the highlight [MouseOver]. *)
Definition no_MouseOver (l : Level) : Prop :=
  Forall (Forall (fun c : CellData => highlight c <> MouseOver)) (grid l).

Lemma unlit_Clear (g : list (list CellData)) : unlit (map (map Clear) g).
Proof.
  apply (Forall_cells_map (fun _ => True)); [done|apply Forall_cells_True].
Qed.

Lemma unlit_no_MouseOver (g : list (list CellData)) :
  unlit g -> Forall (Forall (fun c : CellData => highlight c <> MouseOver)) g.
Proof.
  intros Hg. rewrite <- (map_id g), <- (map_ext _ _ (@map_id CellData)).
  revert Hg. apply Forall_cells_map. intros c ->. done.
Qed.

Lemma cleared_cache l l' :
  cache_valid l -> cache_of l' = clear_pair (cache_of l) ->
  cached l' = false /\ unlit (grid l').
Proof.
  unfold cache_valid, cache_of, clear_pair. simpl. intros Hl.
  destruct (cached l) eqn:Hc; simpl; intros [= -> ->].
  - split; [done | apply unlit_Clear].
  - split; [done | by apply Hl].
Qed.

Lemma keeps_or_clears_valid l l' :
  cache_valid l -> keeps_or_clears l l' -> cache_valid l'.
Proof.
  intros Hl [E|E].
  - unfold cache_valid, cache_of in *. injection E as -> ->. done.
  - intros _. by eapply cleared_cache.
Qed.

Lemma keeps_or_clears_no_MouseOver l l' :
  no_MouseOver l -> keeps_or_clears l l' -> no_MouseOver l'.
Proof.
  unfold no_MouseOver. intros Hl [E|E].
  - unfold cache_of in E. injection E as -> _. done.
  - unfold cache_of, clear_pair in E. simpl in E.
    destruct (cached l); simpl in E; injection E as -> _; [|done].
    apply unlit_no_MouseOver, unlit_Clear.
Qed.

Lemma set_highlight_spec l x y h l' :
  set_highlight l x y h = Some l' ->
  cached l' = cached l /\
  (h <> MouseOver -> no_MouseOver l -> no_MouseOver l').
Proof.
  unfold set_highlight.
  destruct (index (grid l) x) as [row|] eqn:Hrow; [|done].
  destruct (index row y) as [c|] eqn:Hc; [|done].
  intros [= <-]. split; [done|]. intros Hh Hl.
  unfold no_MouseOver in *. simpl. unfold store.
  apply index_Some in Hrow as [_ Hrow].
  assert (Forall (fun c : CellData => highlight c <> MouseOver) row) as Hr.
  { rewrite Forall_forall in Hl. apply Hl, list_elem_of_lookup. eauto. }
  apply Forall_insert; [done|]. by apply Forall_insert.
Qed.

Lemma marks_spec h (vs : list Z) l l' :
  forM (mark h) l vs = Some l' ->
  cached l' = cached l /\
  (h <> MouseOver -> no_MouseOver l -> no_MouseOver l').
Proof.
  revert l. induction vs as [|v vs IH]; intros l; simpl; [by intros [= <-]|].
  unfold mark at 1. destruct (fromVertex l v) as [[x y]|]; [|done].
  destruct (set_highlight l x y h) as [l1|] eqn:E; [|done].
  intros Hrest. apply set_highlight_spec in E as [E1 E2].
  apply IH in Hrest as [E3 E4]. split; [congruence | auto].
Qed.

Lemma maintainCommand_spec l l' :
  maintainCommand l = Some l' ->
  cached l' = cached l /\ (no_MouseOver l -> no_MouseOver l').
Proof.
  unfold maintainCommand. destruct (command l).
  - by intros [= <-].
  - intros E. apply marks_spec in E as [E1 E2]. split; [done|]. by apply E2.
  - intros E. apply marks_spec in E as [E1 E2]. split; [done|]. by apply E2.
Qed.

Lemma think_entities_cache dt l l1 :
  think_entities dt l = Some l1 -> keeps_or_clears l l1.
Proof.
  unfold think_entities. intros E.
  apply think_entities_spec in E as [E _]; [|apply NoDup_seq].
  unfold keeps_or_clears. rewrite E. destruct (existsb _ _); auto.
Qed.

Lemma step_invariants l l' :
  step l l' ->
  (cache_valid l -> cache_valid l') /\ (no_MouseOver l -> no_MouseOver l').
Proof.
  intros Hstep. destruct Hstep as
    [l dt l' E | l x y press l' E | l l' E | l target l' E | l l' E
    | l x y l' E | l | l | l es | l].
  - apply Think_stages in E as (l1 & l2 & E1 & E2 & Hg & Hc). split.
    + intros _ Hfalse. congruence.
    + intros Hl. unfold no_MouseOver. rewrite Hg.
      apply maintainCommand_spec in E2 as [_ E2]. apply E2.
      eapply keeps_or_clears_no_MouseOver; [done|]. by eapply think_entities_cache.
  - apply HandleEventGroup_cache in E.
    split; intros; [by eapply keeps_or_clears_valid
                   | by eapply keeps_or_clears_no_MouseOver].
  - apply PrepAttack_cache in E.
    split; intros; [by eapply keeps_or_clears_valid
                   | by eapply keeps_or_clears_no_MouseOver].
  - apply DoAttack_cache in E.
    split; intros; [by eapply keeps_or_clears_valid
                   | by eapply keeps_or_clears_no_MouseOver].
  - apply PrepMove_cache in E.
    split; intros; [by eapply keeps_or_clears_valid
                   | by eapply keeps_or_clears_no_MouseOver].
  - apply DoMove_cache in E.
    split; intros; [by eapply keeps_or_clears_valid
                   | by eapply keeps_or_clears_no_MouseOver].
  - done.
  - done.
  - done.
  - done.
Qed.

Lemma in_play_invariants l :
  in_play l -> cache_valid l /\ no_MouseOver l.
Proof.
  induction 1 as [pathname l E | l l' _ [IH1 IH2] Hstep].
  - apply LoadLevel_fresh in E as (Hg & _). split; [by intros _|].
    by apply unlit_no_MouseOver.
  - apply step_invariants in Hstep as [H1 H2]. auto.
Qed.

(** C7. In a level the program can get to, a per-frame [Think] during which
    the entity at some index changes its integer cell position goes through
    these stages: the loop over the entities ends with the cache flag unset
    and every cell's highlight reset; only then [maintainCommand] writes the
    highlights of the current command, and the cells of the level that
    [Think] returns are the ones it produced from the cleared grid. *)
Theorem Think_clears_cache_on_move (l l' : Level) (dt : Z) (i : nat) (e : entity) :
  in_play l ->
  Think l dt = Some l' ->
  entities l !! i = Some e ->
  moves dt e = true ->
  exists l1 l2,
    think_entities dt l = Some l1 /\
    cached l1 = false /\ unlit (grid l1) /\
    maintainCommand l1 = Some l2 /\
    grid l' = grid l2 /\ cached l' = true.
Proof.
  intros Hreach Hthink He Hmoves.
  apply in_play_invariants in Hreach as [Hvalid _].
  apply Think_stages in Hthink as (l1 & l2 & E1 & E2 & Hg & Hc).
  exists l1, l2. split; [done|].
  assert (cached l1 = false /\ unlit (grid l1)) as [? ?]; [|done].
  apply (cleared_cache l); [done|].
  unfold think_entities in E1.
  apply think_entities_spec in E1 as [-> _]; [|apply NoDup_seq].
  assert (existsb (moves_at dt l) (seq 0 (length (entities l))) = true) as ->; [|done].
  apply existsb_exists. exists i. split.
  - apply in_seq. apply lookup_lt_Some in He. lia.
  - unfold moves_at. by rewrite He.
Qed.

(** C10. In a level the program can get to, no cell of the grid holds the
    highlight [MouseOver]; and in a [Think] step on such a level the cells
    of the result are those that [maintainCommand] left: the stages that
    draw the cursor and the selection work on copies handed to the terrain
    widget and do not write to the grid. *)
Theorem grid_never_holds_MouseOver (l : Level) :
  in_play l ->
  no_MouseOver l /\
  (forall dt l',
     Think l dt = Some l' ->
     no_MouseOver l' /\
     exists l1 l2,
       think_entities dt l = Some l1 /\ maintainCommand l1 = Some l2 /\
       grid l' = grid l2).
Proof.
  intros Hreach. split; [by apply in_play_invariants|].
  intros dt l' Hthink. split.
  - apply in_play_invariants. eapply in_play_step; [done|].
    by eapply step_Think.
  - apply Think_stages in Hthink as (l1 & l2 & E1 & E2 & Hg & _). eauto.
Qed.

End Running.

(** ** The grid adapter under the search *)

Section GridSearch.
Import GoInt Main.

(** A [unitGraph] as a graph of package [algorithm]; vertices that are not
    cells of the grid have no edges. *)
Definition graph_of (g : Main.unitGraph) : Algorithm.Graph :=
  {| Algorithm.NumVertex := default 0 (Main.NumVertex g);
     Algorithm.Adjacent v :=
       if (0 <=? v) && (v <? default 0 (Main.NumVertex g))
       then default ([], []) (Main.Adjacent g v)
       else ([], []) |}.

Lemma NumVertex_rectangular (g : Main.unitGraph) :
  rectangular g -> 0 < dim_x g ->
  Main.NumVertex g = Some (dim_x g * dim_y g).
Proof.
  intros [_ Hfit] Hx. unfold Main.NumVertex.
  destruct (index_grid_0 g Hx) as (row0 & -> & ->). fold (dim_x g).
  unfold mul. rewrite wrap_fits_int; [done|].
  assert (0 <= dim_y g).
  { unfold dim_y. destruct (Main.grid g); unfold len; lia. }
  assert (0 <= dim_x g * dim_y g) by (apply Z.mul_nonneg_nonneg; lia).
  unfold fits_int. pose proof min_int_eq. lia.
Qed.

Lemma vertex_coords (g : Main.unitGraph) v :
  rectangular g -> 0 <= v < dim_x g * dim_y g ->
  exists x y, in_bounds g x y /\ Main.toVertex g x y = v.
Proof.
  intros Hr Hv.
  assert (0 <= dim_x g) by (unfold dim_x, len; lia).
  assert (0 < dim_x g) as Hx.
  { destruct (Z.eq_dec (dim_x g) 0) as [E|]; [rewrite E in Hv|]; lia. }
  exists (v mod dim_x g), (v / dim_x g).
  assert (in_bounds g (v mod dim_x g) (v / dim_x g)) as Hb.
  { split; [by apply Z.mod_pos_bound|]. split.
    - apply Z.div_pos; lia.
    - apply Z.div_lt_upper_bound; lia. }
  split; [done|].
  destruct (toVertex_in_bounds g _ _ Hr Hb) as [-> _].
  rewrite (Z.div_mod v (dim_x g)) at 3 by lia. lia.
Qed.

Lemma toVertex_lt (g : Main.unitGraph) x y :
  rectangular g -> in_bounds g x y ->
  0 <= Main.toVertex g x y < dim_x g * dim_y g.
Proof.
  intros Hr Hb. destruct (toVertex_in_bounds g x y Hr Hb) as [-> Hv].
  destruct Hb as [Hx Hy].
  assert (y * dim_x g <= (dim_y g - 1) * dim_x g)
    by (apply Z.mul_le_mono_nonneg_r; lia).
  lia.
Qed.

Lemma graph_of_edges (g : Main.unitGraph) u e :
  rectangular g ->
  In e (Algorithm.edges (graph_of g) u) ->
  exists x y ddx ddy,
    in_bounds g x y /\ Main.toVertex g x y = u /\ neighbour g x y ddx ddy e.
Proof.
  intros Hr. unfold Algorithm.edges, graph_of. simpl.
  destruct (Z.leb_spec 0 u); [|done].
  destruct (Z.ltb_spec u (default 0 (Main.NumVertex g))) as [Hu|]; [|done]. simpl.
  assert (0 < dim_x g) as Hx.
  { destruct (Z.lt_ge_cases 0 (dim_x g)) as [|Hle]; [done|].
    unfold Main.NumVertex, index in Hu. simpl in Hu.
    unfold dim_x, len in Hle. destruct (Main.grid g); simpl in *; lia. }
  rewrite NumVertex_rectangular in Hu by done. simpl in Hu.
  destruct (vertex_coords g u Hr ltac:(lia)) as (x & y & Hb & <-).
  destruct (Adjacent_spec g x y Hr Hb) as (adj & weight & -> & _ & Hin). simpl.
  intros (ddx & ddy & _ & _ & Hn)%Hin. eauto 8.
Qed.

Lemma graph_of_closed (g : Main.unitGraph) :
  rectangular g -> Algorithm.closed (graph_of g).
Proof.
  intros Hr u x w (x0 & y0 & ddx & ddy & Hb & _ & Hn)%graph_of_edges; [|done].
  destruct Hn as (_ & Hb' & _ & _ & [= -> _]). simpl.
  rewrite NumVertex_rectangular; [|done|by eapply dim_x_pos]. simpl.
  by apply toVertex_lt.
Qed.

Lemma graph_of_nonnegative (g : Main.unitGraph) :
  rectangular g -> Algorithm.nonnegative (graph_of g).
Proof.
  intros Hr u x w (x0 & y0 & ddx & ddy & Hb & _ & Hn)%graph_of_edges; [|done].
  destruct Hn as (_ & _ & _ & Hpos & [= _ ->]). lra.
Qed.

End GridSearch.

(** ** Distances and vertex numbers *)

Section Numbering.
Import GoInt Main.

Lemma abs_step d :
  fits_int d -> fits_int (- d) ->
  (if wrap d <? 0 then neg (wrap d) else wrap d) = Z.abs d.
Proof.
  intros Hd Hn. rewrite (wrap_fits_int d) by done. unfold neg.
  rewrite (wrap_fits_int (- d)) by done.
  destruct (Z.ltb_spec d 0); lia.
Qed.

Lemma maxNormi_max x y x2 y2 :
  fits_int (x2 - x) -> fits_int (x - x2) ->
  fits_int (y2 - y) -> fits_int (y - y2) ->
  maxNormi x y x2 y2 = Z.max (Z.abs (x2 - x)) (Z.abs (y2 - y)).
Proof.
  intros Hx Hx' Hy Hy'. unfold maxNormi, sub.
  rewrite !abs_step; try done.
  - destruct (Z.gtb_spec (Z.abs (x2 - x)) (Z.abs (y2 - y))); lia.
  - by replace (- (y2 - y)) with (y - y2) by lia.
  - by replace (- (x2 - x)) with (x - x2) by lia.
Qed.

(** X1. [maxNormi] is the distance of the maximum norm between two cells
    whose coordinate differences fit an [int]: the larger of the two absolute
    differences. It is therefore symmetric and not negative, it is zero only
    between a cell and itself, and it obeys the triangle inequality. *)
Theorem maxNormi_is_maximum_norm (x y x2 y2 : Z) :
  fits_int (x2 - x) -> fits_int (x - x2) ->
  fits_int (y2 - y) -> fits_int (y - y2) ->
  maxNormi x y x2 y2 = Z.max (Z.abs (x2 - x)) (Z.abs (y2 - y)) /\
  maxNormi x y x2 y2 = maxNormi x2 y2 x y /\
  0 <= maxNormi x y x2 y2 /\
  (maxNormi x y x2 y2 = 0 <-> x = x2 /\ y = y2) /\
  (forall x3 y3,
     fits_int (x3 - x) -> fits_int (x - x3) ->
     fits_int (y3 - y) -> fits_int (y - y3) ->
     fits_int (x3 - x2) -> fits_int (x2 - x3) ->
     fits_int (y3 - y2) -> fits_int (y2 - y3) ->
     maxNormi x y x3 y3 <= maxNormi x y x2 y2 + maxNormi x2 y2 x3 y3).
Proof.
  intros Hx Hx' Hy Hy'.
  rewrite (maxNormi_max x y x2 y2), (maxNormi_max x2 y2 x y) by done.
  split; [done|]. split; [lia|]. split; [lia|]. split; [lia|].
  intros x3 y3 ? ? ? ? ? ? ? ?.
  rewrite (maxNormi_max x y x3 y3), (maxNormi_max x2 y2 x3 y3) by done. lia.
Qed.

Lemma dim_y_nonneg sd : 0 <= dim_y sd.
Proof. unfold dim_y. destruct (grid sd); unfold len; lia. Qed.

Lemma dim_x_nonneg sd : 0 <= dim_x sd.
Proof. unfold dim_x, len. lia. Qed.

Lemma cell_of_vertex sd v :
  rectangular sd -> 0 <= v < dim_x sd * dim_y sd ->
  in_bounds sd (v mod dim_x sd) (v / dim_x sd) /\
  toVertex sd (v mod dim_x sd) (v / dim_x sd) = v /\
  fromVertex sd v = Some (v mod dim_x sd, v / dim_x sd).
Proof.
  intros Hr Hv. pose proof (dim_x_nonneg sd).
  assert (0 < dim_x sd) as Hx.
  { destruct (Z.eq_dec (dim_x sd) 0) as [E|]; [rewrite E in Hv|]; lia. }
  assert (in_bounds sd (v mod dim_x sd) (v / dim_x sd)) as Hb.
  { split; [by apply Z.mod_pos_bound|]. split.
    - apply Z.div_pos; lia.
    - apply Z.div_lt_upper_bound; lia. }
  assert (toVertex sd (v mod dim_x sd) (v / dim_x sd) = v) as Hv'.
  { destruct (toVertex_in_bounds sd _ _ Hr Hb) as [-> _].
    rewrite (Z.div_mod v (dim_x sd)) at 3 by lia. lia. }
  split; [done|]. split; [done|].
  rewrite <- Hv' at 1. by apply fromVertex_toVertex.
Qed.

Lemma vertex_of_cell sd x y :
  rectangular sd -> in_bounds sd x y ->
  0 <= toVertex sd x y < dim_x sd * dim_y sd.
Proof.
  intros Hr Hb. destruct (toVertex_in_bounds sd x y Hr Hb) as [-> Hv].
  destruct Hb as [Hx Hy].
  assert (y * dim_x sd <= (dim_y sd - 1) * dim_x sd)
    by (apply Z.mul_le_mono_nonneg_r; lia).
  lia.
Qed.

(** X2. On a rectangular grid the vertex numbers are a one-to-one numbering
    of the cells: [toVertex] sends the cells onto [0 .. NumVertex-1],
    [fromVertex] brings every cell back from its number, and every number
    below [NumVertex] is the number of the cell that [fromVertex] gives
    for it. *)
Theorem vertex_numbering_round_trip (sd : StaticLevelData) :
  rectangular sd ->
  (0 < dim_x sd -> NumVertex sd = Some (dim_x sd * dim_y sd)) /\
  (forall x y, in_bounds sd x y ->
     0 <= toVertex sd x y < dim_x sd * dim_y sd /\
     fromVertex sd (toVertex sd x y) = Some (x, y)) /\
  (forall v, 0 <= v < dim_x sd * dim_y sd ->
     exists x y, fromVertex sd v = Some (x, y) /\ in_bounds sd x y /\
                 toVertex sd x y = v) /\
  (forall x y x' y', in_bounds sd x y -> in_bounds sd x' y' ->
     toVertex sd x y = toVertex sd x' y' -> x = x' /\ y = y').
Proof.
  intros Hr. split; [|split; [|split]].
  - intros Hx. unfold NumVertex.
    destruct (index_grid_0 sd Hx) as (row0 & -> & ->). fold (dim_x sd).
    unfold mul. rewrite wrap_fits_int; [done|].
    pose proof (dim_y_nonneg sd). destruct Hr as [_ Hfit].
    assert (0 <= dim_x sd * dim_y sd) by (apply Z.mul_nonneg_nonneg; lia).
    unfold fits_int. pose proof min_int_eq. lia.
  - intros x y Hb. split; [by apply vertex_of_cell | by apply fromVertex_toVertex].
  - intros v Hv. destruct (cell_of_vertex sd v Hr Hv) as (Hb & Hto & Hfrom). eauto.
  - intros x y x' y'. by apply toVertex_inj.
Qed.

Lemma fromVertex_None (sd : StaticLevelData) (v : Z) :
  fromVertex sd v = None -> grid sd = [].
Proof.
  unfold fromVertex, rem, quo, len. destruct (grid sd) as [|row rows]; [done|].
  simpl. by destruct (Z.eqb_spec (Z.pos (Pos.of_succ_nat (length rows))) 0).
Qed.

(** The vertex arithmetic panics on the empty grid and only there:
    [NumVertex] reads the first row and [fromVertex] divides by the number of
    rows. *)
Lemma vertex_arithmetic_panics_on_empty_grid (sd : StaticLevelData) (v : Z) :
  (NumVertex sd = None <-> grid sd = []) /\
  (fromVertex sd v = None <-> grid sd = []).
Proof.
  unfold NumVertex, fromVertex, index, rem, quo, len. simpl.
  destruct (grid sd) as [|row rows]; simpl.
  - done.
  - split; (split; [|done]).
    + done.
    + destruct (Z.eqb_spec (Z.pos (Pos.of_succ_nat (length rows))) 0); [lia|done].
Qed.

End Numbering.

(** ** The neighbours that [Adjacent] lists *)

Section Neighbours.
Import GoInt Main.

(** Whether the cell at the offset [d] from [(x, y)] is on the grid, free of
    entities and can be entered from [(x, y)]. *)
Definition listed (g : unitGraph) (x y : Z) (d : Z * Z) : bool :=
  negb ((fst d =? 0) && (snd d =? 0)) &&
  (0 <=? x + fst d) && (x + fst d <? dim_x g) &&
  (0 <=? y + snd d) && (y + snd d <? dim_y g) &&
  negb (occupied g (x + fst d) (y + snd d)) &&
  negb (Qltb (step_cost g x y (x + fst d) (y + snd d)) 0).

Definition vertex_at (g : unitGraph) (x y : Z) (d : Z * Z) : Z :=
  toVertex g (x + fst d) (y + snd d).

Definition weight_to (g : unitGraph) (x y : Z) (d : Z * Z) : Q :=
  step_cost g x y (x + fst d) (y + snd d).

Definition is_diagonal (d : Z * Z) : bool :=
  negb (fst d =? 0) && negb (snd d =? 0).

(** The offsets in the order in which the two loops of [Adjacent] meet
    them. *)
Definition orthogonal_offsets : list (Z * Z) := [(-1, 0); (0, -1); (0, 1); (1, 0)].
Definition diagonal_offsets : list (Z * Z) := [(-1, -1); (-1, 1); (1, -1); (1, 1)].

(** One turn of the inner loop, as a function of the offset. *)
Definition push (g : unitGraph) (x y : Z) (a : adjacency) (d : Z * Z) : adjacency :=
  if listed g x y d then
    if is_diagonal d then
      {| adj := adj a; weight := weight a;
         adj_diag := adj_diag a ++ [vertex_at g x y d];
         weight_diag := weight_diag a ++ [weight_to g x y d] |}
    else
      {| adj := adj a ++ [vertex_at g x y d];
         weight := weight a ++ [weight_to g x y d];
         adj_diag := adj_diag a; weight_diag := weight_diag a |}
  else a.

Lemma visit_push (g : unitGraph) x y ddx ddy a :
  rectangular g -> in_bounds g x y ->
  0 <= x + ddx < dim_x g -> -1 <= ddx <= 1 -> -1 <= ddy <= 1 ->
  visit g x y ddx ddy a = Some (push g x y a (ddx, ddy)).
Proof.
  intros Hr Hb Hx Hdx Hdy.
  destruct (dims_fit g x y Hr Hb) as [Hfx Hfy].
  pose proof Hb as [Hbx Hby].
  unfold visit, push, listed, is_diagonal, vertex_at, weight_to. simpl.
  rewrite (small_offset_fits x ddx), (small_offset_fits y ddy) by lia.
  destruct (Z.eqb_spec ddx 0) as [Ex|Ex], (Z.eqb_spec ddy 0) as [Ey|Ey]; simpl;
    [done|..].
  all: destruct (index_grid_0 g) as (row0 & -> & ->); [lia|].
  all: destruct (Z.leb_spec 0 (x + ddx)); [|lia].
  all: destruct (Z.ltb_spec (x + ddx) (dim_x g)); [|lia].
  all: destruct (Z.ltb_spec (y + ddy) 0), (Z.leb_spec 0 (y + ddy)); try lia; simpl;
    try done.
  all: destruct (Z.geb_spec (y + ddy) (dim_y g)), (Z.ltb_spec (y + ddy) (dim_y g));
    try lia; simpl; try done.
  all: destruct (occupied g (x + ddx) (y + ddy)); simpl; [done|].
  all: rewrite costToMove_in_bounds by (done || (split; lia)).
  all: by destruct (Qltb (step_cost g x y (x + ddx) (y + ddy)) 0).
Qed.

Lemma push_off_grid (g : unitGraph) x y ddx ddy a :
  ~ (0 <= x + ddx < dim_x g) -> push g x y a (ddx, ddy) = a.
Proof.
  intros Hx. unfold push, listed. simpl.
  destruct (negb _); simpl; [|done].
  destruct (Z.leb_spec 0 (x + ddx)); simpl; [|done].
  destruct (Z.ltb_spec (x + ddx) (dim_x g)); simpl; [lia|done].
Qed.

Lemma column_push (g : unitGraph) x y ddx a :
  rectangular g -> in_bounds g x y -> -1 <= ddx <= 1 ->
  (if (add x ddx <? 0) || (add x ddx >=? len (grid g)) then Some a
   else forM (fun a dy => visit g x y ddx dy a) a offsets) =
  Some (fold_left (push g x y) [(ddx, -1); (ddx, 0); (ddx, 1)] a).
Proof.
  intros Hr Hb Hdx.
  destruct (dims_fit g x y Hr Hb) as [Hfx Hfy]. pose proof Hb as [Hbx Hby].
  rewrite (small_offset_fits x ddx) by lia. fold (dim_x g).
  destruct (Z.ltb_spec (x + ddx) 0); cbn [orb].
  { cbn [fold_left]. by rewrite !push_off_grid by lia. }
  destruct (Z.geb_spec (x + ddx) (dim_x g)); cbn [orb].
  { cbn [fold_left]. by rewrite !push_off_grid by lia. }
  unfold offsets.
  do 3 (rewrite forM_cons, visit_push by (done || lia); cbn beta iota). done.
Qed.

Lemma fold_push (g : unitGraph) x y ds a :
  let a' := fold_left (push g x y) ds a in
  let keep p := List.filter (fun d => p d && listed g x y d) ds in
  adj a' = adj a ++ map (vertex_at g x y) (keep (fun d => negb (is_diagonal d))) /\
  weight a' = weight a ++ map (weight_to g x y) (keep (fun d => negb (is_diagonal d))) /\
  adj_diag a' = adj_diag a ++ map (vertex_at g x y) (keep is_diagonal) /\
  weight_diag a' = weight_diag a ++ map (weight_to g x y) (keep is_diagonal).
Proof.
  cbv zeta. revert a. induction ds as [|d ds IH]; intros a.
  - simpl. by rewrite !app_nil_r.
  - cbn [fold_left List.filter]. destruct (IH (push g x y a d)) as (E1 & E2 & E3 & E4).
    rewrite E1, E2, E3, E4. unfold push.
    destruct (listed g x y d), (is_diagonal d); simpl;
      rewrite <- ?app_assoc; done.
Qed.

Lemma filter_both {A} (p q : A -> bool) (l : list A) :
  List.filter (fun d => p d && q d) l = List.filter q (List.filter p l).
Proof.
  induction l as [|a l IH]; [done|]. simpl.
  destruct (p a); simpl; [|done]. destruct (q a); by rewrite IH.
Qed.

(** What [Adjacent] returns for a cell of a rectangular grid: first the
    orthogonal neighbours that are [listed], then the diagonal ones, each with
    the cost of the step. *)
Lemma Adjacent_exact (g : unitGraph) x y :
  rectangular g -> in_bounds g x y ->
  let keep ds := List.filter (listed g x y) ds in
  Adjacent g (toVertex g x y) =
    Some (map (vertex_at g x y) (keep orthogonal_offsets ++ keep diagonal_offsets),
          map (weight_to g x y) (keep orthogonal_offsets ++ keep diagonal_offsets)).
Proof.
  intros Hr Hb. cbv zeta. unfold Adjacent. rewrite fromVertex_toVertex by done.
  unfold offsets at 2.
  do 3 (rewrite forM_cons, column_push by (done || lia); cbn beta iota).
  cbn [forM].
  rewrite <- !fold_left_app. cbn [app].
  match goal with
  | |- context [fold_left _ ?ds _] =>
      destruct (fold_push g x y ds no_adjacency) as (E1 & E2 & E3 & E4)
  end.
  rewrite E1, E2, E3, E4. clear E1 E2 E3 E4. cbn [adj weight adj_diag weight_diag no_adjacency app].
  rewrite !filter_both.
  assert (listed g x y (0, 0) = false) as H00 by reflexivity.
  change (List.filter (fun d => negb (is_diagonal d)) _)
    with ([(-1, 0); (0, -1)] ++ [(0, 0)] ++ [(0, 1); (1, 0)]).
  change (List.filter is_diagonal _) with diagonal_offsets.
  rewrite !List.filter_app.
  change (List.filter (listed g x y) [(0, 0)])
    with (if listed g x y (0, 0) then [(0, 0)] else []).
  rewrite H00.
  cbn [app]. change orthogonal_offsets with ([(-1, 0); (0, -1)] ++ [(0, 1); (1, 0)]).
  by rewrite !List.filter_app, !map_app.
Qed.

Lemma listed_spec (g : unitGraph) x y d :
  listed g x y d = true <->
  (fst d <> 0 \/ snd d <> 0) /\ in_bounds g (x + fst d) (y + snd d) /\
  occupied g (x + fst d) (y + snd d) = false /\
  ~ (step_cost g x y (x + fst d) (y + snd d) < 0)%Q.
Proof.
  unfold listed, in_bounds. rewrite !andb_true_iff, !negb_true_iff, andb_false_iff.
  rewrite !Z.eqb_neq, !Z.leb_le, !Z.ltb_lt.
  destruct (Qltb_spec (step_cost g x y (x + fst d) (y + snd d)) 0); intuition congruence.
Qed.

Lemma offsets_small d :
  In d (orthogonal_offsets ++ diagonal_offsets) -> -1 <= fst d <= 1 /\ -1 <= snd d <= 1.
Proof.
  unfold orthogonal_offsets, diagonal_offsets. cbn [app In].
  intros Hd; repeat destruct Hd as [<-|Hd]; (simpl; lia) || done.
Qed.

Lemma orthogonal_cost (g : unitGraph) x y x2 y2 :
  x = x2 \/ y = y2 ->
  step_cost g x y x2 y2 =
    match cost_at g x2 y2 with Some cc => to_float cc | None => (-1)%Q end.
Proof.
  intros Hxy. unfold step_cost. destruct (cost_at g x2 y2); [|done].
  destruct (Z.eqb_spec x x2), (Z.eqb_spec y y2); simpl; (done || lia).
Qed.

Lemma to_float_nonneg c : ~ (to_float c < 0)%Q <-> 0 <= c.
Proof.
  unfold to_float. change 0%Q with (inject_Z 0). rewrite <- (Zlt_Qlt c 0). lia.
Qed.

(** X4. An orthogonal step costs what the destination cell costs the mover:
    [Adjacent] lists the orthogonal neighbour exactly when no entity stands on
    it and its terrain has a cost that is not negative, and the weight is that
    cost. The terrain of the cell the step starts from plays no part. *)
Theorem orthogonal_edge_weight (g : unitGraph) (x y ddx ddy : Z) :
  rectangular g ->
  in_bounds g x y -> in_bounds g (x + ddx) (y + ddy) ->
  (ddx = 0 /\ (ddy = 1 \/ ddy = -1)) \/ (ddy = 0 /\ (ddx = 1 \/ ddx = -1)) ->
  exists adj weight,
    Adjacent g (toVertex g x y) = Some (adj, weight) /\
    forall w, In (toVertex g (x + ddx) (y + ddy), w) (combine adj weight) <->
      occupied g (x + ddx) (y + ddy) = false /\
      exists cc, cost_at g (x + ddx) (y + ddy) = Some cc /\ 0 <= cc /\
                 w = to_float cc.
Proof.
  intros Hr Hb Hb2 Hd.
  destruct (Adjacent_spec g x y Hr Hb) as (adj & weight & E & Hlen & Hin).
  exists adj, weight. split; [done|]. intros w. rewrite Hin.
  assert (step_cost g x y (x + ddx) (y + ddy) =
          match cost_at g (x + ddx) (y + ddy) with
          | Some cc => to_float cc | None => (-1)%Q end) as Hcost
    by (apply orthogonal_cost; lia).
  split.
  - intros (ex & ey & _ & _ & _ & Hb' & Hocc & Hpos & Heq).
    inversion Heq as [[Hv Hw]].
    apply toVertex_inj in Hv as [Hx Hy]; [|done..].
    assert (ex = ddx) as -> by lia. assert (ey = ddy) as -> by lia.
    split; [done|]. rewrite Hcost in Hpos |- *.
    destruct (cost_at g (x + ddx) (y + ddy)) as [cc|]; [|by destruct Hpos].
    exists cc. split; [done|]. split; [by apply to_float_nonneg|done].
  - intros (Hocc & cc & Hcc & Hpos & ->).
    exists ddx, ddy. unfold offsets. cbn [In].
    split; [lia|]. split; [lia|]. unfold neighbour.
    rewrite Hcost, Hcc.
    split; [lia|]. split; [done|]. split; [done|]. split; [|done].
    by apply to_float_nonneg.
Qed.

(** X5. For a cell of a rectangular grid [Adjacent] does not panic and
    lists the orthogonal neighbours before the diagonal ones: first the
    admissible ones among the offsets [(-1,0)], [(0,-1)], [(0,1)], [(1,0)] in
    this order, then the admissible ones among [(-1,-1)], [(-1,1)], [(1,-1)],
    [(1,1)], each with the cost of the step in the second slice. A neighbour
    is admissible when it is on the grid, no entity stands on it and the step
    has a cost that is not negative. *)
Theorem Adjacent_lists_orthogonal_first (g : unitGraph) (x y : Z) :
  rectangular g -> in_bounds g x y ->
  let admissible d :=
    (fst d <> 0 \/ snd d <> 0) /\ in_bounds g (x + fst d) (y + snd d) /\
    occupied g (x + fst d) (y + snd d) = false /\
    ~ (step_cost g x y (x + fst d) (y + snd d) < 0)%Q in
  exists (keep : Z * Z -> bool),
    (forall d, keep d = true <-> admissible d) /\
    Adjacent g (toVertex g x y) =
      Some (map (fun d => toVertex g (x + fst d) (y + snd d))
                (List.filter keep orthogonal_offsets) ++
            map (fun d => toVertex g (x + fst d) (y + snd d))
                (List.filter keep diagonal_offsets),
            map (fun d => step_cost g x y (x + fst d) (y + snd d))
                (List.filter keep orthogonal_offsets) ++
            map (fun d => step_cost g x y (x + fst d) (y + snd d))
                (List.filter keep diagonal_offsets)).
Proof.
  intros Hr Hb. cbv zeta. exists (listed g x y). split.
  - intros d. apply listed_spec.
  - rewrite (Adjacent_exact g x y Hr Hb). by rewrite !map_app.
Qed.

Lemma NoDup_offsets : NoDup (orthogonal_offsets ++ diagonal_offsets).
Proof.
  unfold orthogonal_offsets, diagonal_offsets. cbn [app].
  repeat (apply NoDup_cons; split; [rewrite ?elem_of_cons, elem_of_nil;
            intros Hc; repeat destruct Hc as [[=]|Hc]; done|]).
  apply NoDup_nil_2.
Qed.

Lemma filter_length_le {A} (p : A -> bool) (l : list A) :
  (length (List.filter p l) <= length l)%nat.
Proof. induction l as [|a l IH]; simpl; [lia|]. destruct (p a); simpl; lia. Qed.

(** X6. The neighbours that [Adjacent] lists for a cell of a rectangular
    grid are at most eight cells of the grid, each at distance 1 from the cell
    in the maximum norm, each listed once and never the cell itself; no
    entity stands on any of them and no weight is negative. *)
Theorem Adjacent_lists_free_cells_once (g : unitGraph) (x y : Z) :
  rectangular g -> in_bounds g x y ->
  exists adj weight,
    Adjacent g (toVertex g x y) = Some (adj, weight) /\
    length adj = length weight /\ (length adj <= 8)%nat /\
    NoDup adj /\ ~ In (toVertex g x y) adj /\
    Forall (fun w => (0 <= w)%Q) weight /\
    forall u, In u adj ->
      0 <= u < dim_x g * dim_y g /\
      exists x' y', fromVertex g u = Some (x', y') /\ in_bounds g x' y' /\
                    occupied g x' y' = false /\ maxNormi x y x' y' = 1.
Proof.
  intros Hr Hb. rewrite (Adjacent_exact g x y Hr Hb). cbv zeta.
  rewrite <- List.filter_app.
  set (ds := List.filter (listed g x y) (orthogonal_offsets ++ diagonal_offsets)).
  assert (Hds : forall d, In d ds ->
            -1 <= fst d <= 1 /\ -1 <= snd d <= 1 /\
            (fst d <> 0 \/ snd d <> 0) /\ in_bounds g (x + fst d) (y + snd d) /\
            occupied g (x + fst d) (y + snd d) = false /\
            ~ (step_cost g x y (x + fst d) (y + snd d) < 0)%Q).
  { intros d [Hd Hl]%List.filter_In. apply offsets_small in Hd. apply listed_spec in Hl.
    tauto. }
  eexists _, _. split; [reflexivity|].
  split; [by rewrite !length_map|]. split; [|split; [|split; [|split]]].
  - rewrite length_map. etrans; [apply filter_length_le|]. done.
  - apply NoDup_fmap_2_strong.
    + intros d d' Hd%list_elem_of_In Hd'%list_elem_of_In Hv.
      destruct (Hds d Hd) as (_ & _ & _ & Hbd & _).
      destruct (Hds d' Hd') as (_ & _ & _ & Hbd' & _).
      apply toVertex_inj in Hv as [Hx Hy]; [|done..].
      destruct d, d'; simpl in *; f_equal; lia.
    + unfold ds. clear. induction NoDup_offsets as [|d l Hd _ IH]; simpl;
        [apply NoDup_nil_2|].
      destruct (listed g x y d); [|done]. apply NoDup_cons. split; [|done].
      intros Hin%list_elem_of_In. apply List.filter_In in Hin as [Hin _].
      by apply Hd, list_elem_of_In.
  - intros (d & Hv & Hd)%in_map_iff.
    destruct (Hds d Hd) as (_ & _ & Hne & Hbd & _).
    apply toVertex_inj in Hv as [Hx Hy]; [|done..]. lia.
  - apply Forall_forall. intros w (d & <- & Hd)%list_elem_of_In%in_map_iff.
    destruct (Hds d Hd) as (_ & _ & _ & _ & _ & Hpos). unfold weight_to.
    destruct (Qlt_le_dec (step_cost g x y (x + fst d) (y + snd d)) 0); [done|lra].
  - intros u (d & <- & Hd)%in_map_iff.
    destruct (Hds d Hd) as (Hdx & Hdy & Hne & Hbd & Hocc & _). unfold vertex_at.
    split; [by apply vertex_of_cell|].
    exists (x + fst d), (y + snd d).
    split; [by apply fromVertex_toVertex|]. split; [done|]. split; [done|].
    pose proof min_int_eq. pose proof max_int_eq.
    rewrite maxNormi_max by (unfold fits_int; lia). lia.
Qed.

End Neighbours.

(** ** Highlights written by the commands *)

Section Marking.
Import GoInt Main.

(** [clearCache] and the marking of cells keep the number of rows and the
    length of every row. *)
Definition shape (g : list (list CellData)) : list nat := map length g.

Lemma dims_of_shape (sd sd' : StaticLevelData) :
  shape (grid sd') = shape (grid sd) ->
  dim_x sd' = dim_x sd /\ dim_y sd' = dim_y sd /\
  (rectangular sd -> rectangular sd') /\
  (forall x y, toVertex sd' x y = toVertex sd x y) /\
  (forall v, fromVertex sd' v = fromVertex sd v).
Proof.
  unfold shape. intros Hs.
  assert (dim_x sd' = dim_x sd) as Hx.
  { unfold dim_x, len. by rewrite <- (length_map length (grid sd')), Hs, length_map. }
  assert (dim_y sd' = dim_y sd) as Hy.
  { unfold dim_y, len.
    destruct (grid sd), (grid sd'); simpl in *; try done. by injection Hs as -> _. }
  split; [done|]. split; [done|]. split; [|split].
  - intros [Hrows Hfit]. split; [|by rewrite Hx, Hy].
    intros row Hin. rewrite Hy. unfold len.
    assert (In (length row) (map length (grid sd'))) as Hl by (by apply in_map).
    rewrite Hs in Hl. apply in_map_iff in Hl as (row' & <- & Hin').
    apply (Hrows row' Hin').
  - intros x y. unfold toVertex. by fold (dim_x sd') (dim_x sd); rewrite Hx.
  - intros v. unfold fromVertex. by fold (dim_x sd') (dim_x sd); rewrite Hx.
Qed.

Lemma shape_insert (g : list (list CellData)) i row j c :
  g !! i = Some row -> shape (<[i := <[j := c]> row]> g) = shape g.
Proof.
  intros Hrow. unfold shape.
  rewrite list_fmap_insert, length_insert.
  apply list_insert_id. by rewrite list_lookup_fmap, Hrow.
Qed.

Lemma shape_Clear (g : list (list CellData)) : shape (map (map Clear) g) = shape g.
Proof.
  unfold shape. rewrite map_map. apply map_ext. intros row. apply length_map.
Qed.

Lemma cellAt_cell_at (sd : StaticLevelData) x y :
  0 <= x -> 0 <= y -> cellAt sd x y = cell_at (grid sd) (Z.to_nat x) (Z.to_nat y).
Proof.
  intros Hx Hy. unfold cellAt, cell_at, index.
  destruct (Z.ltb_spec x 0); [lia|].
  destruct (grid sd !! Z.to_nat x); [|done].
  destruct (Z.ltb_spec y 0); [lia|done].
Qed.

Lemma cellAt_negative (sd : StaticLevelData) x y :
  x < 0 \/ y < 0 -> cellAt sd x y = None.
Proof.
  intros Hxy. unfold cellAt, index.
  destruct (Z.ltb_spec x 0); [done|].
  destruct (grid sd !! Z.to_nat x); [|done].
  destruct (Z.ltb_spec y 0); [done|lia].
Qed.

(** What one assignment [l.grid[x][y].highlight = h] does. *)
Lemma set_highlight_Some (l : Level) x y h c :
  cellAt l x y = Some c ->
  exists g',
    set_highlight l x y h = Some (set_grid l g') /\
    shape g' = shape (grid l) /\
    forall x' y', cellAt (set_grid l g') x' y' =
      if decide (x' = x /\ y' = y) then Some (with_highlight c h) else cellAt l x' y'.
Proof.
  unfold cellAt at 1, set_highlight.
  destruct (index (grid l) x) as [row|] eqn:Hrow; [|done].
  intros Hc. rewrite Hc.
  apply index_Some in Hrow as [Hx Hrow]. apply index_Some in Hc as [Hy Hc].
  eexists. split; [reflexivity|]. unfold store. split; [by apply shape_insert|].
  intros x' y'.
  destruct (Z.lt_ge_cases x' 0) as [Hx'|Hx'].
  { rewrite !cellAt_negative by lia. rewrite decide_False; [done|lia]. }
  destruct (Z.lt_ge_cases y' 0) as [Hy'|Hy'].
  { rewrite !cellAt_negative by lia. rewrite decide_False; [done|lia]. }
  rewrite !cellAt_cell_at by lia. simpl.
  rewrite cell_at_insert by (done || by eapply lookup_lt_Some).
  destruct (decide (Z.to_nat x' = Z.to_nat x /\ Z.to_nat y' = Z.to_nat y)) as [[? ?]|Hne].
  - rewrite decide_True; [done|lia].
  - rewrite decide_False; [done|lia].
Qed.

Lemma set_highlight_None (l : Level) x y h :
  cellAt l x y = None -> set_highlight l x y h = None.
Proof.
  unfold cellAt, set_highlight.
  destruct (index (grid l) x) as [row|]; [|done]. by intros ->.
Qed.

Lemma cellAt_off_grid (sd : StaticLevelData) x y :
  rectangular sd -> ~ in_bounds sd x y -> cellAt sd x y = None.
Proof.
  intros [Hrows _] Hout. unfold cellAt.
  destruct (index (grid sd) x) as [row|] eqn:Hrow; [|done].
  apply index_None.
  assert (0 <= x < dim_x sd) as Hx.
  { apply index_Some in Hrow as [? Hrow]. apply lookup_lt_Some in Hrow.
    unfold dim_x, len. lia. }
  assert (In row (grid sd)) as Hin.
  { apply index_Some in Hrow as [_ Hrow].
    apply list_elem_of_In, list_elem_of_lookup. eauto. }
  rewrite (Hrows row Hin). unfold in_bounds in Hout. lia.
Qed.

Lemma quot_rem_sign v d :
  0 < d ->
  v = d * Z.quot v d + Z.rem v d /\
  (0 <= v -> 0 <= Z.rem v d < d /\ 0 <= Z.quot v d /\ Z.quot v d <= v) /\
  (v <= 0 -> - d < Z.rem v d <= 0 /\ v <= Z.quot v d /\ Z.quot v d <= 0).
Proof.
  intros Hd. pose proof (Z.quot_rem' v d) as Hqr.
  split; [done|]. split.
  - intros Hv. pose proof (Z.rem_bound_pos v d Hv Hd). nia.
  - intros Hv. pose proof (Z.rem_bound_pos (- v) d ltac:(lia) Hd) as Hr.
    rewrite Z.rem_opp_l in Hr by lia. nia.
Qed.

Lemma classic_in_bounds (sd : StaticLevelData) x y :
  in_bounds sd x y \/ ~ in_bounds sd x y.
Proof. unfold in_bounds. lia. Qed.

(** A vertex that is no cell of the grid makes the assignment panic. *)
Lemma mark_stray (l : Level) h v :
  rectangular l -> fits_int v -> ~ (0 <= v < dim_x l * dim_y l) -> mark h l v = None.
Proof.
  intros Hr Hv Hout. unfold mark.
  destruct (fromVertex l v) as [[x y]|] eqn:Hfrom; [|done].
  apply set_highlight_None, cellAt_off_grid; [done|].
  intros [Hx Hy]. apply Hout.
  unfold fromVertex, rem, quo in Hfrom. fold (dim_x l) in Hfrom.
  destruct (Z.eqb_spec (dim_x l) 0); [done|]. injection Hfrom as <- <-.
  assert (0 < dim_x l) as Hdx by (pose proof (dim_x_nonneg l); lia).
  destruct (quot_rem_sign v (dim_x l) Hdx) as (Hqr & Hpos & Hneg).
  pose proof min_int_eq. pose proof max_int_eq. unfold fits_int in Hv.
  destruct (Z.lt_ge_cases v 0) as [Hlt|Hge].
  - destruct (Hneg ltac:(lia)) as (Hrm & Hq1 & Hq2).
    rewrite wrap_fits_int in Hy by (unfold fits_int; lia). nia.
  - destruct (Hpos Hge) as (Hrm & Hq1 & Hq2).
    rewrite wrap_fits_int in Hy by (unfold fits_int; lia). nia.
Qed.

(** What the loop [for _,v := range vs { l.grid[x][y].highlight = h }] of
    [maintainCommand] does when every vertex is a cell. *)
Lemma marks_Some h (vs : list Z) (l : Level) :
  rectangular l ->
  Forall (fun v => 0 <= v < dim_x l * dim_y l) vs ->
  exists g',
    forM (mark h) l vs = Some (set_grid l g') /\
    shape g' = shape (grid l) /\
    forall x y c, cellAt l x y = Some c ->
      cellAt (set_grid l g') x y =
        Some (if decide (toVertex l x y ∈ vs) then with_highlight c h else c).
Proof.
  intros Hr Hvs. remember (dim_x l * dim_y l) as n eqn:Hn. revert l Hr Hn.
  induction Hvs as [|v vs Hv _ IH]; intros l Hr ->.
  - exists (grid l). simpl. split; [by destruct l as [[]]|]. split; [done|].
    intros x y c Hc. by destruct l as [[]].
  - destruct (cell_of_vertex l v Hr Hv) as (Hb & Hto & Hfrom).
    destruct (cellAt_in_bounds l _ _ Hr Hb) as [c0 Hc0].
    destruct (set_highlight_Some l _ _ h c0 Hc0) as (g1 & E1 & Hs1 & Hcells1).
    destruct (dims_of_shape l (set_grid l g1) Hs1) as (Hdx & Hdy & Hr1 & Hto1 & Hfrom1).
    destruct (IH (set_grid l g1)) as (g2 & E2 & Hs2 & Hcells2).
    { by apply Hr1. }
    { simpl in Hdx, Hdy. simpl. by rewrite Hdx, Hdy. }
    exists g2. rewrite forM_cons. unfold mark at 1. rewrite Hfrom, E1.
    split; [exact E2|]. split; [by rewrite Hs2|].
    intros x y c Hc.
    change (set_grid (set_grid l g1) g2) with (set_grid l g2) in Hcells2.
    destruct (decide (x = v mod dim_x l /\ y = v / dim_x l)) as [[-> ->]|Hne].
    + rewrite Hc0 in Hc. injection Hc as ->.
      rewrite (Hcells2 _ _ (with_highlight c h)).
      * rewrite Hto1, Hto. rewrite (decide_True (P := v ∈ v :: vs)) by apply list_elem_of_here.
        by destruct (decide _).
      * rewrite Hcells1. by rewrite decide_True.
    + rewrite (Hcells2 _ _ c).
      * rewrite Hto1. f_equal.
        destruct (decide (toVertex l x y ∈ vs)).
        { rewrite decide_True; [done|by apply list_elem_of_further]. }
        rewrite decide_False; [done|]. intros [Hv'|?]%elem_of_cons; [|done].
        apply Hne. rewrite <- Hto in Hv'.
        assert (in_bounds l x y) as Hbxy.
        { destruct (classic_in_bounds l x y) as [?|Hout]; [done|].
          by rewrite (cellAt_off_grid l x y Hr Hout) in Hc. }
        by apply toVertex_inj in Hv'.
      * rewrite Hcells1. by rewrite decide_False.
Qed.

Lemma mark_Some (l : Level) h v :
  rectangular l -> 0 <= v < dim_x l * dim_y l ->
  exists g', mark h l v = Some (set_grid l g') /\ shape g' = shape (grid l).
Proof.
  intros Hr Hv. destruct (marks_Some h [v] l Hr) as (g' & E & Hs & _).
  { by constructor. }
  exists g'. split; [|done]. simpl in E. by destruct (mark h l v).
Qed.

Lemma marks_None h (vs : list Z) (l : Level) :
  rectangular l -> Forall fits_int vs ->
  forM (mark h) l vs = None <->
  Exists (fun v => ~ (0 <= v < dim_x l * dim_y l)) vs.
Proof.
  intros Hr Hvs. revert l Hr.
  induction Hvs as [|v vs Hv _ IH]; intros l Hr.
  - simpl. split; [done|]. by intros ?%Exists_nil.
  - rewrite forM_cons, Exists_cons.
    destruct (decide (0 <= v < dim_x l * dim_y l)) as [Hin|Hout].
    + destruct (mark_Some l h v Hr Hin) as (g1 & -> & Hs1).
      destruct (dims_of_shape l (set_grid l g1) Hs1) as (Hdx & Hdy & Hr1 & _).
      rewrite (IH (set_grid l g1) (Hr1 Hr)). simpl in Hdx, Hdy. simpl.
      rewrite Hdx, Hdy. tauto.
    + rewrite mark_stray by done. tauto.
Qed.

Lemma shape_clearCache (l : Level) :
  shape (grid (clearCache l)) = shape (grid l).
Proof.
  unfold clearCache. destruct (cached l); simpl; [apply shape_Clear|done].
Qed.

Lemma clearCache_fields (l : Level) :
  cached (clearCache l) = false /\
  entities (clearCache l) = entities l /\
  selected (clearCache l) = selected l /\
  command (clearCache l) = command l /\
  reachable (clearCache l) = reachable l /\
  in_range (clearCache l) = in_range l /\
  winx (clearCache l) = winx l /\ winy (clearCache l) = winy l /\
  terrain (clearCache l) = terrain l.
Proof. unfold clearCache. by destruct (cached l) eqn:Hc. Qed.

(** X7. [clearCache] resets highlights and nothing else: the terrain of
    every cell, the shape of the grid and all other fields stay; afterwards
    the flag is unset; clearing twice is clearing once. It is guarded by the
    flag: with the flag set every cell ends without highlight, with the flag
    unset the level is returned as it is, highlights included. *)
Theorem clearCache_resets_highlights_only (l : Level) :
  clearCache (clearCache l) = clearCache l /\
  cached (clearCache l) = false /\
  (cached l = true -> unlit (grid (clearCache l))) /\
  (cached l = false -> clearCache l = l) /\
  map (map cell_Terrain) (map (map static_) (grid (clearCache l))) =
    map (map cell_Terrain) (map (map static_) (grid l)) /\
  shape (grid (clearCache l)) = shape (grid l) /\
  clearCache l = set_cached (set_grid l (grid (clearCache l))) false.
Proof.
  unfold clearCache. destruct (cached l) eqn:Hc; simpl.
  - split; [done|]. split; [done|]. split; [intros _; apply unlit_Clear|].
    split; [done|]. split; [|split; [apply shape_Clear|done]].
    rewrite !map_map. apply map_ext. intros row. rewrite !map_map. done.
  - rewrite Hc. simpl. split; [done|]. split; [done|]. split; [done|].
    split; [done|]. split; [done|]. split; [done|].
    destruct l as [[]]. simpl in *. by rewrite Hc.
Qed.

(** The highlight and the vertices that [maintainCommand] works with. *)
Definition command_marks (l : Level) : Highlight * list Z :=
  match command l with
  | Move => (Reachable, reachable l)
  | Attack => (Attackable, in_range l)
  | NoCommand => (NoHighlight, [])
  end.

Lemma maintainCommand_marks (l : Level) :
  maintainCommand l =
    forM (mark (fst (command_marks l))) l (snd (command_marks l)).
Proof. unfold maintainCommand, command_marks. by destruct (command l). Qed.

(** X8. On a rectangular grid, when the vertices listed for the current
    command ([reachable] for [Move], [in_range] for [Attack]) are cells of the
    grid, [maintainCommand] returns; it changes the grid only: the cell of
    every listed vertex carries the command's highlight ([Reachable], resp.
    [Attackable]), every other cell keeps the highlight it had, and no cell
    changes its terrain. Without a command nothing changes. *)
Theorem maintainCommand_marks_listed_cells (l : Level) :
  rectangular l ->
  Forall (fun v => 0 <= v < dim_x l * dim_y l) (snd (command_marks l)) ->
  exists g',
    maintainCommand l = Some (set_grid l g') /\
    shape g' = shape (grid l) /\
    (command l = NoCommand -> g' = grid l) /\
    forall x y c, cellAt l x y = Some c ->
      exists c', cellAt (set_grid l g') x y = Some c' /\
        cell_Terrain c' = cell_Terrain c /\
        highlight c' =
          if decide (toVertex l x y ∈ snd (command_marks l))
          then fst (command_marks l) else highlight c.
Proof.
  intros Hr Hvs. rewrite maintainCommand_marks.
  destruct (marks_Some (fst (command_marks l)) _ l Hr Hvs) as (g' & E & Hs & Hcells).
  exists g'. split; [done|]. split; [done|]. split.
  - intros Hc. unfold command_marks in E. rewrite Hc in E. simpl in E.
    injection E as E. by rewrite E.
  - intros x y c Hc. rewrite (Hcells x y c Hc).
    eexists. split; [reflexivity|]. by destruct (decide _).
Qed.

(** X9. [maintainCommand] panics exactly when one of the vertices listed
    for the current command is not a cell of the (rectangular) grid: the
    index computed from it is then out of range, or the grid is empty and the
    division fails. *)
Theorem maintainCommand_panics_on_stray_vertex (l : Level) :
  rectangular l ->
  Forall fits_int (snd (command_marks l)) ->
  maintainCommand l = None <->
  Exists (fun v => ~ (0 <= v < dim_x l * dim_y l)) (snd (command_marks l)).
Proof.
  intros Hr Hvs. rewrite maintainCommand_marks. by apply marks_None.
Qed.

End Marking.

(** ** Preparing and committing commands *)

Section Preparing.
Import GoInt Main.
Context `{Deps}.

(** The entities that [PrepAttack] keeps: not the selected one, and within
    the weapon's reach of it. *)
Definition in_reach (si : nat) (sel : entity) (weapon : Weapon) (ie : nat * entity) : bool :=
  negb (bool_decide (fst ie = si)) &&
  negb (attack_distance (snd ie) sel >? Reach weapon).

Lemma attack_candidates_filter (l : Level) si sel weapon :
  attack_candidates l si sel weapon =
    map (fun ie => toVertex l (fst (cell_of (snd ie))) (snd (cell_of (snd ie))))
        (List.filter (in_reach si sel weapon) (imap (fun i e => (i, e)) (entities l))).
Proof.
  unfold attack_candidates.
  generalize (imap (fun i e => (i, e)) (entities l)) as ps.
  assert (forall ps acc,
    fold_left (fun (acc : list Z) '(i, e) =>
        if decide (i = si) then acc
        else if maxNormi (of_float (X (pos e))) (of_float (Y (pos e)))
                  (of_float (X (pos sel))) (of_float (Y (pos sel))) >? Reach weapon
             then acc
             else acc ++ [toVertex l (of_float (X (pos e))) (of_float (Y (pos e)))])
      ps acc =
    acc ++ map (fun ie => toVertex l (fst (cell_of (snd ie))) (snd (cell_of (snd ie))))
               (List.filter (in_reach si sel weapon) ps)) as Hgen.
  { induction ps as [|[i e] ps IH]; intros acc; simpl; [by rewrite app_nil_r|].
    rewrite IH. unfold in_reach at 2, attack_distance, cell_of. simpl.
    destruct (decide (i = si)) as [->|Hne].
    - by rewrite bool_decide_true.
    - rewrite bool_decide_false by done. simpl.
      destruct (_ >? Reach weapon); simpl; [done|]. by rewrite <- app_assoc. }
  intros ps. apply (Hgen ps []).
Qed.

Lemma attack_candidates_In (l : Level) si sel weapon v :
  In v (attack_candidates l si sel weapon) <->
  exists i e, i <> si /\ entities l !! i = Some e /\
    attack_distance e sel <= Reach weapon /\
    v = toVertex l (fst (cell_of e)) (snd (cell_of e)).
Proof.
  rewrite attack_candidates_filter, in_map_iff. split.
  - intros ([i e] & <- & [Hin Hr]%List.filter_In).
    apply list_elem_of_In, elem_of_lookup_imap in Hin as (i' & e' & [= -> ->] & He).
    unfold in_reach in Hr. simpl in Hr.
    apply andb_true_iff in Hr as [Hi Hd].
    apply negb_true_iff, bool_decide_eq_false in Hi.
    apply negb_true_iff in Hd. destruct (Z.gtb_spec (attack_distance e' sel) (Reach weapon)); [done|].
    exists i', e'. done.
  - intros (i & e & Hi & He & Hd & ->). exists (i, e). split; [done|].
    apply List.filter_In. split.
    + apply list_elem_of_In, elem_of_lookup_imap. eauto.
    + unfold in_reach. simpl. rewrite bool_decide_false by done. simpl.
      destruct (Z.gtb_spec (attack_distance e sel) (Reach weapon)); [lia|done].
Qed.

(** With an entity selected that can pay for its first weapon,
    [PrepAttack] lists in [in_range] the cells of exactly the other entities
    that stand within the weapon's reach (maximum norm of the cell
    coordinates). The selected entity is never a candidate itself. It spends
    no action points and changes no entity. When the list is not empty the
    command becomes [Attack] and the cache flag is unset; when it is empty the
    command, the flag and the grid are left as they were. *)
Lemma PrepAttack_candidates
  (l : Level) (si : nat) (sel : entity) (weapon : Weapon) :
  selected l = Some si ->
  entities l !! si = Some sel ->
  index (Weapons (Base sel)) 0 = Some weapon ->
  Cost weapon <= AP sel ->
  exists l',
    PrepAttack l = Some l' /\
    (forall v, In v (in_range l') <->
       exists i e, i <> si /\ entities l !! i = Some e /\
         attack_distance e sel <= Reach weapon /\
         v = toVertex l (fst (cell_of e)) (snd (cell_of e))) /\
    entities l' = entities l /\ selected l' = selected l /\
    reachable l' = reachable l /\
    (in_range l' <> [] -> command l' = Attack /\ cached l' = false) /\
    (in_range l' = [] ->
       command l' = command l /\ cached l' = cached l /\ grid l' = grid l).
Proof.
  intros Hsel Hent Hweapon Hap. unfold PrepAttack. rewrite Hsel, Hent, Hweapon.
  destruct (Z.gtb_spec (Cost weapon) (AP sel)); [lia|]. cbn zeta.
  set (cands := attack_candidates l si sel weapon).
  change (in_range (set_in_range l cands)) with cands.
  destruct (Z.eqb_spec (len cands) 0) as [Hlen|Hlen].
  - assert (cands = []) as Hnil.
    { apply length_zero_iff_nil. unfold len in Hlen. lia. }
    eexists. split; [reflexivity|]. simpl.
    split; [apply attack_candidates_In|]. repeat split; try done.
  - assert (cands <> []) as Hcons.
    { intros E. rewrite E in Hlen. done. }
    eexists. split; [reflexivity|].
    assert (in_range (clearCache (set_command (set_in_range l cands) Attack)) = cands)
      as Hin by (unfold clearCache; by destruct (cached _)).
    rewrite Hin. split; [apply attack_candidates_In|].
    unfold clearCache. simpl. destruct (cached l) eqn:Hc; simpl; repeat split; try done.
Qed.

(** X10. With an entity selected that can pay for its first weapon,
    [PrepAttack] lists in [in_range] the cells of exactly the other entities
    that stand within the weapon's reach (maximum norm of the cell
    coordinates). The selected entity is never a candidate itself. It spends
    no action points and changes no entity. When the list is not empty the
    command becomes [Attack] and the cache flag is unset; when it is empty the
    command, the flag and the grid are left as they were. *)
Theorem PrepAttack_lists_others_in_reach
  (l : Level) (si : nat) (sel : entity) (weapon : Weapon) :
  selected l = Some si ->
  entities l !! si = Some sel ->
  index (Weapons (Base sel)) 0 = Some weapon ->
  Cost weapon <= AP sel ->
  exists l',
    PrepAttack l = Some l' /\
    (forall v, In v (in_range l') <->
       exists i e, i <> si /\ entities l !! i = Some e /\
         attack_distance e sel <= Reach weapon /\
         v = toVertex l (fst (cell_of e)) (snd (cell_of e))) /\
    entities l' = entities l /\ selected l' = selected l /\
    reachable l' = reachable l /\
    (in_range l' <> [] -> command l' = Attack /\ cached l' = false) /\
    (in_range l' = [] ->
       command l' = command l /\ cached l' = cached l /\ grid l' = grid l).
Proof. apply PrepAttack_candidates. Qed.

Lemma unlit_cellAt (sd : StaticLevelData) x y c :
  unlit (grid sd) -> cellAt sd x y = Some c -> highlight c = NoHighlight.
Proof.
  unfold unlit, cellAt. intros Hg.
  destruct (index (grid sd) x) as [row|] eqn:Hrow; [|done]. intros Hc.
  apply index_Some in Hrow as [_ Hrow]. apply index_Some in Hc as [_ Hc].
  rewrite Forall_forall in Hg.
  assert (Forall (fun c : CellData => highlight c = NoHighlight) row) as Hr
    by (apply Hg, list_elem_of_lookup; eauto).
  rewrite Forall_forall in Hr. apply Hr, list_elem_of_lookup. eauto.
Qed.

(** X11. [PrepAttack] followed by the [maintainCommand] of the next frame,
    on a rectangular grid whose cache is valid (no cell highlighted while the
    flag is unset) and with the candidates standing on the grid: after a
    successful [PrepAttack], [maintainCommand] returns, and a cell is
    highlighted [Attackable] exactly when another entity within the weapon's
    reach stands on it; all other cells carry no highlight. *)
Theorem PrepAttack_then_maintainCommand
  (l l1 : Level) (si : nat) (sel : entity) (weapon : Weapon) :
  rectangular l -> cache_valid l ->
  selected l = Some si ->
  entities l !! si = Some sel ->
  index (Weapons (Base sel)) 0 = Some weapon ->
  Cost weapon <= AP sel ->
  (forall i e, i <> si -> entities l !! i = Some e ->
     attack_distance e sel <= Reach weapon ->
     in_bounds l (fst (cell_of e)) (snd (cell_of e))) ->
  PrepAttack l = Some l1 -> in_range l1 <> [] ->
  exists l2,
    maintainCommand l1 = Some l2 /\
    forall x y, in_bounds l x y ->
      exists c, cellAt l2 x y = Some c /\
        (highlight c = Attackable \/ highlight c = NoHighlight) /\
        (highlight c = Attackable <->
           exists i e, i <> si /\ entities l !! i = Some e /\
             attack_distance e sel <= Reach weapon /\ cell_of e = (x, y)).
Proof.
  intros Hr Hvalid Hsel Hent Hweapon Hap Hon Hprep Hcands.
  destruct (PrepAttack_candidates l si sel weapon Hsel Hent Hweapon Hap)
    as (l1' & E & Hin & _ & _ & _ & Hsome & _).
  rewrite Hprep in E. injection E as <-.
  destruct (Hsome Hcands) as [Hcmd Hflag].
  assert (grid l1 = grid (clearCache l)) as Hgrid.
  { revert Hprep. unfold PrepAttack. rewrite Hsel, Hent, Hweapon.
    destruct (Z.gtb_spec (Cost weapon) (AP sel)); [lia|]. cbn zeta.
    destruct (len _ =? 0) eqn:Hlen; intros [= <-].
    - simpl in Hcands. apply Z.eqb_eq in Hlen.
      destruct (attack_candidates l si sel weapon); [done|].
      unfold len in Hlen. simpl in Hlen. lia.
    - unfold clearCache. simpl. by destruct (cached l). }
  assert (unlit (grid l1)) as Hunlit.
  { rewrite Hgrid. unfold clearCache. destruct (cached l) eqn:Hc; simpl.
    - apply unlit_Clear.
    - by apply Hvalid. }
  assert (shape (grid l1) = shape (grid l)) as Hshape.
  { rewrite Hgrid. apply shape_clearCache. }
  destruct (dims_of_shape l l1 Hshape) as (Hdx & Hdy & Hr1 & Hto & Hfrom).
  specialize (Hr1 Hr).
  assert (command_marks l1 = (Attackable, in_range l1)) as Hmarks
    by (unfold command_marks; by rewrite Hcmd).
  destruct (marks_Some Attackable (in_range l1) l1 Hr1) as (g' & E & Hs & Hcells).
  { apply Forall_forall. intros v (i & e & Hi & He & Hd & ->)%list_elem_of_In%Hin.
    rewrite Hdx, Hdy. apply vertex_of_cell; [done|]. by eapply Hon. }
  exists (set_grid l1 g'). split.
  { by rewrite maintainCommand_marks, Hmarks. }
  intros x y Hb.
  destruct (cellAt_in_bounds l1 x y Hr1) as [c Hc].
  { unfold in_bounds. rewrite Hdx, Hdy. apply Hb. }
  pose proof (unlit_cellAt l1 x y c Hunlit Hc) as Hnone.
  rewrite (Hcells x y c Hc), Hto.
  eexists. split; [reflexivity|].
  destruct (decide (toVertex l x y ∈ in_range l1)) as [Hyes|Hno]; simpl.
  - split; [by left|]. split; [|done]. intros _.
    apply list_elem_of_In, Hin in Hyes as (i & e & Hi & He & Hd & Hv).
    exists i, e. split; [done|]. split; [done|]. split; [done|].
    apply toVertex_inj in Hv as [-> ->]; [by destruct (cell_of e)|done..|].
    by eapply Hon.
  - rewrite Hnone. split; [by right|]. split; [done|].
    intros (i & e & Hi & He & Hd & Hcell). destruct Hno.
    apply list_elem_of_In, Hin. exists i, e. by rewrite Hcell.
Qed.

End Preparing.

Section Committing.
Import GoInt Main.
Context `{Deps}.

Lemma alter_twice {A} (f g : A -> A) (i : nat) (l : list A) :
  alter f i (alter g i l) = alter (fun x => f (g x)) i l.
Proof.
  apply list_eq. intros j. destruct (decide (j = i)) as [->|Hne].
  - rewrite !list_lookup_alter_eq. by destruct (l !! i).
  - by rewrite !list_lookup_alter_ne.
Qed.

Lemma update_entity_twice (l : Level) i f g :
  update_entity (update_entity l i g) i f = update_entity l i (fun e => f (g e)).
Proof. unfold update_entity. simpl. by rewrite alter_twice. Qed.

Lemma update_entity_id (l : Level) i f :
  (forall e, f e = e) -> update_entity l i f = l.
Proof.
  intros Hf. unfold update_entity. rewrite list_alter_id by done. by destruct l.
Qed.

Lemma update_entity_ext (l : Level) i f g :
  (forall e, f e = g e) -> update_entity l i f = update_entity l i g.
Proof.
  intros Hf. unfold update_entity. f_equal. by apply list_alter_ext.
Qed.

(** The loop of [DoMove] that queues the cells of the path. *)
Lemma queue_path (si : nat) (vs : list Z) (l : Level) :
  grid l <> [] ->
  exists cells,
    forM (fun (l : Level) v =>
            do (x, y) <- fromVertex l v;
            Some (update_entity l si (fun e => set_path e (path e ++ [(x, y)]))))
         l vs =
      Some (update_entity l si (fun e => set_path e (path e ++ cells))) /\
    Forall2 (fun v xy => fromVertex l v = Some xy) vs cells.
Proof.
  intros Hgrid. revert l Hgrid. induction vs as [|v vs IH]; intros l Hgrid.
  - exists []. split; [|constructor]. simpl. f_equal. symmetry.
    apply update_entity_id. intros e. rewrite app_nil_r. by destruct e.
  - rewrite forM_cons.
    destruct (fromVertex l v) as [[x y]|] eqn:Hv.
    2:{ by apply fromVertex_None in Hv. }
    set (l1 := update_entity l si (fun e => set_path e (path e ++ [(x, y)]))).
    destruct (IH l1 Hgrid) as (cells & E & Hcells).
    exists ((x, y) :: cells). split; [|by constructor].
    rewrite E. f_equal. unfold l1. rewrite update_entity_twice.
    apply update_entity_ext. intros e. simpl. by rewrite <- app_assoc.
Qed.

(** X12. What [DoMove] commits. With an entity selected on a grid that is
    not empty, and for the cost and path that the shortest-path search
    answers: when the path is empty or the cost, cut to an [int], exceeds the
    entity's action points, nothing changes. Otherwise the entity's queue is
    replaced (not extended) by the cells of the path without its first
    vertex, in order; the entity's action points, position and health are
    untouched, as is every other entity; the list of reachable cells is
    emptied, the command is dropped and the cache flag is unset. *)
Theorem DoMove_queues_path_cells
  (l : Level) (si : nat) (sel : entity) (click_x click_y : Z) (ap : Q) (p : list Z) :
  selected l = Some si ->
  entities l !! si = Some sel ->
  grid l <> [] ->
  Dijkstra {| level := l; move_cost := Move_cost (Base sel) |}
           [toVertex l (of_float (X (pos sel))) (of_float (Y (pos sel)))]
           [toVertex l click_x click_y] = Some (ap, p) ->
  (p = [] \/ of_float ap > AP sel -> DoMove l click_x click_y = Some l) /\
  (p <> [] -> of_float ap <= AP sel ->
     exists l' cells,
       DoMove l click_x click_y = Some l' /\
       Forall2 (fun v xy => fromVertex l v = Some xy) (tail p) cells /\
       entities l' !! si = Some (set_path sel cells) /\
       (forall i, i <> si -> entities l' !! i = entities l !! i) /\
       reachable l' = [] /\ command l' = NoCommand /\ cached l' = false /\
       selected l' = selected l /\ in_range l' = in_range l).
Proof.
  intros Hsel Hent Hgrid Hpath. unfold DoMove. rewrite Hsel, Hent, Hpath. split.
  - intros [-> | Hap]; [done|].
    destruct (Z.gtb_spec (of_float ap) (AP sel)); [|lia]. by rewrite orb_true_r.
  - intros Hp Hap.
    destruct (Z.eqb_spec (len p) 0) as [Hlen|Hlen].
    { destruct p; [done|]. unfold len in Hlen. simpl in Hlen. lia. }
    destruct (Z.gtb_spec (of_float ap) (AP sel)); [lia|]. cbn [orb].
    set (l0 := set_reachable (update_entity l si (fun e => set_path e [])) []).
    destruct (queue_path si (tail p) l0) as (cells & E & Hcells); [done|].
    rewrite E. eexists _, cells. split; [reflexivity|]. split; [exact Hcells|].
    split; [|split].
    + rewrite entities_set_command, entities_clearCache. simpl.
      by rewrite !list_lookup_alter_eq, Hent.
    + intros i Hi. rewrite entities_set_command, entities_clearCache. simpl.
      by rewrite !list_lookup_alter_ne.
    + match goal with
      | |- context [clearCache ?l1] =>
          destruct (clearCache_fields l1) as (E1 & _ & E3 & _ & E5 & E6 & _)
      end.
      cbn [reachable command cached selected in_range set_command].
      rewrite E1, E3, E5, E6. by rewrite <- Hsel.
Qed.

End Committing.

(** ** Mouse input *)

Section Input.
Import GoInt Main.
Context `{Deps}.

(** The distance from a click to an entity that [HandleEventGroup] compares:
    the maximum norm of the difference between the click and the centre of
    the entity's cell, each sum and difference rounded to [float32] as the
    code computes it. *)
Definition click_distance (click : Vec2) (e : entity) : Q :=
  Fmax (Fabs (round32 (X click - round32 (X (pos e) + (1 # 2)))))
       (Fabs (round32 (Y click - round32 (Y (pos e) + (1 # 2))))).

(** One turn of the loop that looks for the nearest entity. *)
Definition closer (click : Vec2) (best : option nat * option Q) (ie : nat * entity)
  : option nat * option Q :=
  if nearer (click_distance click (snd ie)) (snd best)
  then (Some (fst ie), Some (click_distance click (snd ie)))
  else best.

Lemma nearest_fold (l : Level) (click : Vec2) :
  nearest l click =
    fold_left (closer click) (imap (fun i e => (i, e)) (entities l)) (None, None).
Proof.
  unfold nearest. generalize (imap (fun i e => (i, e)) (entities l)) as ps.
  generalize (@None nat, @None Q) as best.
  intros best ps. revert best. induction ps as [|[i e] ps IH]; intros [ent dist]; [done|].
  simpl. rewrite <- IH. f_equal.
Qed.

Lemma finite_spec (d : Q) : reflect (d <= max_float32)%Q (Qle_bool d max_float32).
Proof.
  destruct (Qle_bool d max_float32) eqn:E; constructor.
  - by apply Qle_bool_iff.
  - intros Hle. apply Qle_bool_iff in Hle. congruence.
Qed.

Lemma max_float32_large : (3 <= max_float32)%Q.
Proof. by apply Qle_bool_iff. Qed.

(** The result of the search over a list of entities: nothing when every
    distance is beyond the largest [float32] (so for the empty list);
    otherwise the first entity among those at the least distance. *)
Definition is_nearest (es : list entity) (click : Vec2)
  (best : option nat * option Q) : Prop :=
  match best with
  | (None, None) =>
      forall j e', es !! j = Some e' -> (max_float32 < click_distance click e')%Q
  | (Some i, Some d) =>
      exists e, es !! i = Some e /\ d = click_distance click e /\
        (d <= max_float32)%Q /\
        (forall j e', es !! j = Some e' -> (d <= click_distance click e')%Q) /\
        (forall j e', (j < i)%nat -> es !! j = Some e' ->
           (d < click_distance click e')%Q)
  | _ => False
  end.

Lemma nearest_is_nearest (l : Level) (click : Vec2) :
  is_nearest (entities l) click (nearest l click).
Proof.
  rewrite nearest_fold. induction (entities l) as [|e es IH] using rev_ind; [done|].
  rewrite imap_app, fold_left_app. simpl. rewrite Nat.add_0_r.
  destruct (fold_left _ _ _) as [[i|] [d|]]; simpl in IH; try done.
  - destruct IH as (e0 & He0 & -> & Hfin & Hmin & Hfirst). unfold closer, nearer. simpl.
    destruct (Qltb_spec (click_distance click e) (click_distance click e0)) as [Hlt|Hge].
    + destruct (finite_spec (click_distance click e)) as [Hfe|Hfe]; [|lra]. simpl.
      exists e. split; [by rewrite lookup_app_r, Nat.sub_diag|]. split; [done|].
      split; [done|]. split.
      * intros j e' [He'|[_ He']]%lookup_app_Some.
        -- specialize (Hmin j e' He'). lra.
        -- destruct (j - length es)%nat; [|done]. injection He' as <-. lra.
      * intros j e' Hj He'. rewrite lookup_app_l in He' by done.
        specialize (Hmin j e' He'). lra.
    + rewrite andb_false_r.
      exists e0. pose proof (lookup_lt_Some _ _ _ He0) as Hi.
      split; [by rewrite lookup_app_l|]. split; [done|]. split; [done|]. split.
      * intros j e' [He'|[_ He']]%lookup_app_Some; [by eapply Hmin|].
        destruct (j - length es)%nat; [|done]. injection He' as <-. lra.
      * intros j e' Hj He'. rewrite lookup_app_l in He' by lia. by eapply Hfirst.
  - unfold closer, nearer. simpl. rewrite andb_true_r.
    destruct (finite_spec (click_distance click e)) as [Hfe|Hfe].
    + exists e. split; [by rewrite lookup_app_r, Nat.sub_diag|]. split; [done|].
      split; [done|]. split.
      * intros j e' [He'|[_ He']]%lookup_app_Some.
        -- specialize (IH j e' He'). lra.
        -- destruct (j - length es)%nat; [|done]. injection He' as <-. lra.
      * intros j e' Hj He'. rewrite lookup_app_l in He' by done.
        specialize (IH j e' He'). lra.
    + simpl. intros j e' [He'|[_ He']]%lookup_app_Some; [by eapply IH|].
      destruct (j - length es)%nat; [|done]. injection He' as <-. lra.
Qed.

(** X14. A press with no entity selected: [HandleEventGroup] returns
    without panic, changes no entity and leaves no command. It selects the
    entity nearest to the click, the first in the list among equally near
    ones, when that entity is closer than 3; when no entity is closer than 3
    the selection stays empty. The distance is the one the code computes:
    the maximum norm between the click and the centre of the entity's cell,
    in [float32] arithmetic, so that two entities may be equally near after
    rounding that are not before. *)
Theorem click_selects_nearest_entity (l : Level) (x y : Z) :
  selected l = None ->
  let click := {| X := fst (WindowToBoard x y); Y := snd (WindowToBoard x y) |} in
  exists l',
    HandleEventGroup l x y true = Some l' /\
    entities l' = entities l /\ command l' = NoCommand /\
    match selected l' with
    | Some i =>
        exists e, entities l !! i = Some e /\
          (click_distance click e < 3)%Q /\
          (forall j e', entities l !! j = Some e' ->
             (click_distance click e <= click_distance click e')%Q) /\
          (forall j e', (j < i)%nat -> entities l !! j = Some e' ->
             (click_distance click e < click_distance click e')%Q)
    | None =>
        forall j e', entities l !! j = Some e' -> ~ (click_distance click e' < 3)%Q
    end.
Proof.
  intros Hsel. cbv zeta. unfold HandleEventGroup.
  destruct (WindowToBoard x y) as [bx by_]. cbn [negb fst snd].
  pose proof (nearest_is_nearest (set_win l x y) {| X := bx; Y := by_ |}) as Hn.
  destruct (nearest (set_win l x y) {| X := bx; Y := by_ |}) as [ent dist].
  change (selected (set_win l x y)) with (selected l). rewrite Hsel.
  rewrite bool_decide_true by done. cbn [andb negb].
  change (entities (set_win l x y)) with (entities l) in Hn.
  destruct (closer_than dist 3) eqn:Hclose.
  - eexists. split; [reflexivity|].
    rewrite entities_set_command, entities_clearCache.
    split; [done|]. split; [done|].
    cbn [selected set_command].
    destruct (clearCache_fields (set_selected (set_win l x y) ent))
      as (_ & _ & -> & _). cbn [selected set_selected].
    destruct dist as [d|]; [|done]. simpl in Hclose.
    destruct ent as [i|]; [|done].
    destruct Hn as (e & He & -> & _ & Hmin & Hfirst).
    exists e. split; [done|]. split; [|done].
    by destruct (Qltb_spec (click_distance {| X := bx; Y := by_ |} e) 3).
  - assert (forall j e', entities l !! j = Some e' ->
              ~ (click_distance {| X := bx; Y := by_ |} e' < 3)%Q) as Hfar.
    { intros j e' He'. destruct ent as [i|], dist as [d|]; try done.
      - destruct Hn as (e & He & -> & _ & Hmin & _). simpl in Hclose.
        destruct (Qltb_spec (click_distance {| X := bx; Y := by_ |} e) 3); [done|].
        specialize (Hmin j e' He'). lra.
      - simpl in Hn. specialize (Hn j e' He'). pose proof max_float32_large. lra. }
    assert (DoMove (set_win l x y) (of_float bx) (of_float by_) = Some (set_win l x y))
      as Hmove by (unfold DoMove; cbn [selected set_win]; by rewrite Hsel).
    destruct (command (set_win l x y)) eqn:Hcmd; rewrite ?Hmove; cbn beta iota.
    all: eexists; split; [reflexivity|].
    all: rewrite entities_set_command, entities_clearCache.
    all: split; [done|]; split; [done|].
    all: cbn [selected set_command].
    all: destruct (clearCache_fields (set_win l x y)) as (_ & _ & -> & _).
    all: change (selected (set_win l x y)) with (selected l); by rewrite Hsel.
Qed.

Lemma forM_inv {A B} (I : B -> Prop) (f : B -> A -> option B) l b r :
  (forall b a b', I b -> f b a = Some b' -> I b') ->
  I b -> forM f b l = Some r -> I r.
Proof.
  intros Hstep. revert b. induction l as [|a l IH]; intros b Hb; simpl.
  - by intros [= <-].
  - destruct (f b a) as [b'|] eqn:E; [|done]. eauto.
Qed.

(** What the commands leave alone: the cursor and the number of entities. *)
Definition same_cast (l l' : Level) : Prop :=
  winx l' = winx l /\ winy l' = winy l /\
  length (entities l') = length (entities l).

Lemma same_cast_update (l l' : Level) i f :
  same_cast l l' -> same_cast l (update_entity l' i f).
Proof.
  intros (? & ? & Hlen). repeat split; try done. simpl. by rewrite length_alter.
Qed.

Lemma same_cast_clearCache (l l' : Level) :
  same_cast l l' -> same_cast l (clearCache l').
Proof.
  intros (? & ? & Hlen).
  destruct (clearCache_fields l') as (_ & E & _ & _ & _ & _ & Ex & Ey & _).
  unfold same_cast. by rewrite E, Ex, Ey.
Qed.

Lemma DoMove_cast l x y l' : DoMove l x y = Some l' -> same_cast l l'.
Proof.
  unfold DoMove. destruct (selected l) as [si|]; [|by intros [= <-]].
  destruct (entities l !! si) as [sel|]; [|done].
  destruct (Dijkstra _ _ _) as [[ap path_]|]; [|done].
  destruct ((len path_ =? 0) || (of_float ap >? AP sel)); [by intros [= <-]|].
  destruct (forM _ _ _) as [l1|] eqn:E; [|done]. intros [= <-].
  apply (same_cast_clearCache l l1).
  revert E. apply forM_inv.
  - intros l2 v l3 Hl2. destruct (fromVertex l2 v) as [[? ?]|]; [|done].
    intros [= <-]. by apply same_cast_update.
  - by apply (same_cast_update l l).
Qed.

Lemma DoAttack_cast l target l' : DoAttack l target = Some l' -> same_cast l l'.
Proof.
  unfold DoAttack. destruct (selected l) as [si|]; [|by intros [= <-]].
  destruct (entities l !! si) as [sel|]; [|done].
  destruct (index _ 0) as [weapon|]; [|done].
  destruct (Cost weapon >? AP sel); [by intros [= <-]|].
  destruct (_ !! target) as [tgt|]; [|done].
  destruct (_ !! si) as [sel'|]; [|done].
  assert (same_cast l (update_entity l si (fun e => set_AP e (sub (AP e) (Cost weapon)))))
    as H0 by (by apply (same_cast_update l l)).
  destruct (_ >? Reach weapon); [by intros [= <-]|].
  destruct (resolve _ _ _) as [l1|] eqn:E; [|done]. intros [= <-].
  apply (same_cast_clearCache l l1).
  revert E. unfold resolve. destruct (Connect _).
  - destruct (_ !! target) as [t|]; [|done].
    destruct (Health t <=? 0); intros [= <-];
      repeat apply same_cast_update; by destruct (Reach weapon >? 2);
      repeat apply same_cast_update.
  - intros [= <-].
    repeat apply same_cast_update; by destruct (Reach weapon >? 2);
      repeat apply same_cast_update.
Qed.

(** X13. A press of the mouse button always ends the pending command:
    whatever the selection, the command and the place of the click, when
    [HandleEventGroup] returns the command is [NoCommand] and the cache flag
    is unset; the cursor position is recorded, and the grid keeps its shape
    and the level its number of entities. Without a press only the cursor
    position is recorded. *)
Theorem press_ends_the_command (l : Level) (x y : Z) :
  HandleEventGroup l x y false = Some (set_win l x y) /\
  forall l', HandleEventGroup l x y true = Some l' ->
    command l' = NoCommand /\ cached l' = false /\
    winx l' = x /\ winy l' = y /\
    length (entities l') = length (entities l) /\
    shape (grid l') = shape (grid l).
Proof.
  split.
  { unfold HandleEventGroup. by destruct (WindowToBoard x y). }
  intros l' E.
  assert (shape (grid l') = shape (grid l)) as Hshape.
  { apply HandleEventGroup_cache in E as [E|E].
    - unfold cache_of in E. by injection E as -> _.
    - unfold cache_of, clear_pair in E. simpl in E.
      destruct (cached l); simpl in E; injection E as -> _; [apply shape_Clear|done]. }
  assert (command l' = NoCommand /\ cached l' = false /\ same_cast (set_win l x y) l')
    as (Hc & Hf & Hx & Hy & Hlen); [|done].
  revert E. unfold HandleEventGroup. destruct (WindowToBoard x y) as [bx by_].
  cbn [negb]. destruct (nearest _ _) as [ent dist].
  assert (forall l1, same_cast (set_win l x y) l1 ->
            command (set_command (clearCache l1) NoCommand) = NoCommand /\
            cached (set_command (clearCache l1) NoCommand) = false /\
            same_cast (set_win l x y) (set_command (clearCache l1) NoCommand)) as Hend.
  { intros l1 Hl1. split; [done|]. split.
    - cbn [cached set_command]. apply clearCache_fields.
    - by apply (same_cast_clearCache _ l1). }
  destruct (bool_decide _ && closer_than dist 3).
  { intros [= <-]. by apply Hend. }
  remember (if negb (bool_decide (selected (set_win l x y) = None)) &&
               closer_than dist (1 # 2) then ent else None) as target eqn:Htarget.
  clear Htarget.
  assert (forall l1 (t : option nat), same_cast (set_win l x y) l1 ->
            same_cast (set_win l x y)
              (match t with Some t => set_selected l1 (Some t) | None => l1 end)) as Hsel.
  { intros l1 [t|] Hl1; done. }
  destruct (command (set_win l x y)) eqn:Hcmd; cbn beta iota.
  - intros [= <-]. by apply Hend, Hsel.
  - destruct target as [t|].
    + intros [= <-]. by apply Hend, (Hsel _ (Some t)).
    + destruct (DoMove _ _ _) as [l1|] eqn:E; [|done]. intros [= <-].
      apply Hend, (Hsel _ None). by apply DoMove_cast in E.
  - destruct target as [t|].
    + destruct (DoAttack _ _) as [l1|] eqn:E; [|done]. intros [= <-].
      apply Hend, (Hsel _ None). by apply DoAttack_cast in E.
    + intros [= <-]. by apply Hend, (Hsel _ None).
Qed.

End Input.

(** ** The frame *)

Section Frame.
Import GoInt Main.
Context `{Deps}.

(** The terrain of the cells, without the highlights. *)
Definition statics (g : list (list CellData)) : list (list staticCellData) :=
  map (map static_) g.

(** What a frame leaves alone. *)
Definition same_orders (l l' : Level) : Prop :=
  selected l' = selected l /\ command l' = command l /\
  reachable l' = reachable l /\ in_range l' = in_range l /\
  winx l' = winx l /\ winy l' = winy l /\
  statics (grid l') = statics (grid l).

Lemma same_orders_refl l : same_orders l l.
Proof. done. Qed.

Lemma statics_Clear g : statics (map (map Clear) g) = statics g.
Proof.
  unfold statics. rewrite map_map. apply map_ext. intros row.
  rewrite map_map. by apply map_ext.
Qed.

Lemma same_orders_clearCache l l' : same_orders l l' -> same_orders l (clearCache l').
Proof.
  intros (? & ? & ? & ? & ? & ? & Hs).
  destruct (clearCache_fields l') as (_ & _ & E1 & E2 & E3 & E4 & E5 & E6 & _).
  unfold same_orders. rewrite E1, E2, E3, E4, E5, E6.
  repeat split; try done. rewrite <- Hs. unfold clearCache.
  destruct (cached l'); [apply statics_Clear|done].
Qed.

Lemma statics_insert (g : list (list CellData)) i row j c h :
  g !! i = Some row -> row !! j = Some c ->
  statics (<[i := <[j := with_highlight c h]> row]> g) = statics g.
Proof.
  intros Hrow Hc. unfold statics. rewrite list_fmap_insert.
  apply list_insert_id. rewrite list_lookup_fmap, Hrow. simpl. f_equal.
  rewrite list_fmap_insert. symmetry.
  apply list_insert_id. by rewrite list_lookup_fmap, Hc.
Qed.

(** The sprite that [Think] hands to the terrain widget for an entity: at
    the entity's position plus 0.25, the sums rounded to [float32]. *)
Definition sprite_of (e : entity) : Drawable :=
  Upright (round32 (X (pos e) + (1 # 4))) (round32 (Y (pos e) + (1 # 4))) (s e).

Lemma forM_seq_inv {B} (I : nat -> B -> Prop) (f : B -> nat -> option B) n k b r :
  I k b ->
  (forall i b b', (k <= i < k + n)%nat -> I i b -> f b i = Some b' -> I (S i) b') ->
  forM f b (seq k n) = Some r -> I (k + n)%nat r.
Proof.
  revert k b. induction n as [|n IH]; intros k b Hb Hstep; simpl.
  - intros [= <-]. by rewrite Nat.add_0_r.
  - destruct (f b k) as [b'|] eqn:E; [|done]. intros Hr.
    replace (k + S n)%nat with (S k + n)%nat by lia.
    apply (IH (S k) b'); [|intros; apply (Hstep i b0); (lia || done)|done].
    apply (Hstep k b); (lia || done).
Qed.

Lemma think_entities_all dt (l l1 : Level) :
  think_entities dt l = Some l1 ->
  entities l1 = map (entity_Think dt) (entities l) /\
  terrain l1 = terrain l ++ map sprite_of (map (entity_Think dt) (entities l)) /\
  same_orders l l1.
Proof.
  unfold think_entities. intros E.
  pose (I := fun (m : nat) (lm : Level) =>
    entities lm = map (entity_Think dt) (take m (entities l)) ++ drop m (entities l) /\
    terrain lm = terrain l ++ map sprite_of (map (entity_Think dt) (take m (entities l))) /\
    same_orders l lm).
  assert (I (0 + length (entities l))%nat l1) as (He & Ht & Hs).
  { revert E. apply forM_seq_inv.
    - unfold I. simpl. rewrite drop_0, app_nil_r. done.
    - intros i lm lm' Hi (He & Ht & Hs). unfold think_entity.
      destruct (lookup_lt_is_Some_2 (entities l) i ltac:(lia)) as [e Hle].
      assert (length (map (entity_Think dt) (take i (entities l))) = i) as Hlen.
      { rewrite length_map, length_take. lia. }
      assert (entities lm !! i = Some e) as Hlm.
      { rewrite He, lookup_app_r by lia. rewrite Hlen, Nat.sub_diag.
        by rewrite lookup_drop, Nat.add_0_r. }
      rewrite Hlm, entities_update_entity, list_lookup_alter_eq, Hlm. simpl.
      assert (alter (entity_Think dt) i (entities lm) =
              map (entity_Think dt) (take (S i) (entities l)) ++
              drop (S i) (entities l)) as Halter.
      { rewrite He, (drop_S _ _ _ Hle), (take_S_r _ _ _ Hle).
        rewrite map_app, <- app_assoc. simpl.
        rewrite alter_app_r_alt by lia. by rewrite Hlen, Nat.sub_diag. }
      intros [= <-]. unfold I. split; [|split].
      + simpl. destruct (_ || _); [rewrite entities_clearCache|]; exact Halter.
      + simpl.
        assert (forall l2, terrain l2 = terrain lm ->
                  terrain l2 ++ [sprite_of (entity_Think dt e)] =
                  terrain l ++ map sprite_of
                    (map (entity_Think dt) (take (S i) (entities l)))) as Hterr.
        { intros l2 ->. rewrite Ht, (take_S_r _ _ _ Hle), !map_app, <- app_assoc. done. }
        destruct (_ || _); apply Hterr; [|done].
        by destruct (clearCache_fields (update_entity lm i (entity_Think dt)))
          as (_ & _ & _ & _ & _ & _ & _ & _ & ->).
      + destruct (_ || _); [apply same_orders_clearCache|]; exact Hs. }
  simpl in He, Ht. rewrite firstn_all, drop_all, app_nil_r in He.
  rewrite firstn_all in Ht. done.
Qed.

Lemma marks_orders h (vs : list Z) (l l' : Level) :
  forM (mark h) l vs = Some l' ->
  entities l' = entities l /\ terrain l' = terrain l /\ same_orders l l'.
Proof.
  apply (forM_inv (fun l1 => entities l1 = entities l /\ terrain l1 = terrain l /\
                             same_orders l l1)); [|done].
  intros l1 v l2 (He & Ht & Hs). unfold mark, set_highlight.
  destruct (fromVertex l1 v) as [[x y]|]; [|done].
  destruct (index (grid l1) x) as [row|] eqn:Hrow; [|done].
  destruct (index row y) as [c|] eqn:Hc; [|done]. intros [= <-].
  split; [done|]. split; [done|].
  destruct Hs as (? & ? & ? & ? & ? & ? & Hst). repeat split; try done.
  simpl. rewrite <- Hst. unfold store.
  apply index_Some in Hrow as [_ Hrow]. apply index_Some in Hc as [_ Hc].
  by apply statics_insert.
Qed.

(** X15. One frame. When [Think] returns, every entity has been through its
    own [Think] exactly once, in place; the terrain widget has been handed,
    before anything else, the sprite of every entity at its new position
    shifted by a quarter of a cell (the sum as [float32] arithmetic rounds
    it), in the order of the entities; the cache flag is set; and the
    selection, the command, the lists of candidate cells, the cursor and the
    terrain of every cell are as they were. *)
Theorem Think_runs_every_entity_once (l l' : Level) (dt : Z) :
  Think l dt = Some l' ->
  entities l' = map (entity_Think dt) (entities l) /\
  (exists rest,
     terrain l' = terrain l ++ map sprite_of (entities l') ++ rest) /\
  cached l' = true /\
  selected l' = selected l /\ command l' = command l /\
  reachable l' = reachable l /\ in_range l' = in_range l /\
  winx l' = winx l /\ winy l' = winy l /\
  statics (grid l') = statics (grid l).
Proof.
  unfold Think. destruct (think_entities dt l) as [l1|] eqn:E1; [|done].
  destruct (maintainCommand l1) as [l2|] eqn:E2; [|done].
  destruct (draw_cursor (draw_tiles l2)) as [l3|] eqn:E3; [|done].
  destruct (draw_selected l3) as [l4|] eqn:E4; [|done].
  intros [= <-].
  apply think_entities_all in E1 as (He1 & Ht1 & Hs1).
  rewrite maintainCommand_marks in E2.
  apply marks_orders in E2 as (He2 & Ht2 & Hs2).
  assert (exists r3, l3 = set_terrain l2 (terrain l2 ++ r3)) as [r3 ->].
  { revert E3. unfold draw_cursor. destruct (WindowToBoard _ _) as [bx by_].
    match goal with
    | |- match ?c with Some _ => _ | None => None end = _ -> _ =>
        destruct c as [[]|]; [| |done]
    end.
    - destruct (cellAt _ _ _); [|done]. intros [= <-]. unfold draw_tiles. simpl.
      eexists. by rewrite <- app_assoc.
    - intros [= <-]. by eexists. }
  assert (exists r4, l4 = set_terrain l2 (terrain l2 ++ r4)) as [r4 ->].
  { revert E4. unfold draw_selected. simpl.
    destruct (selected l2) as [si|]; [|intros [= <-]; by eexists].
    destruct (_ !! si) as [sel|]; [|done].
    destruct (cellAt _ _ _); [|done]. intros [= <-]. simpl.
    eexists. by rewrite <- app_assoc. }
  simpl. rewrite He2, He1. split; [done|]. split.
  { exists r4. by rewrite Ht2, Ht1, <- app_assoc. }
  split; [done|].
  destruct Hs1 as (A1 & A2 & A3 & A4 & A5 & A6 & A7).
  destruct Hs2 as (B1 & B2 & B3 & B4 & B5 & B6 & B7).
  repeat split; congruence.
Qed.

End Frame.

(** ** What [LoadLevel] returns *)

Section LoadingResults.
Import GoInt Main.
Context `{LoadDeps}.

Lemma load_row_length ldc g i g' :
  load_row ldc g i = Returned g' -> length g' = length g.
Proof.
  unfold load_row. destruct (g !! i) as [row|]; [|done]. simpl.
  apply (forO_inv (fun g1 => length g1 = length g)); [|done].
  intros g1 j g2 Hg1 (t & row1 & old & _ & _ & _ & ->)%load_cell_Returned.
  by rewrite length_insert.
Qed.

(** X16. [LoadLevel] returns a level or an error, never both and never
    neither. An error of [os.Open] or of [ioutil.ReadAll] is returned as it
    is, before anything is decoded. A level that is returned is fresh: its
    grid has at least one row and no highlight, the cache flag is unset, and
    it has no entity, no selection, no command and no candidate cells. *)
Theorem LoadLevel_returns_level_or_error (pathname : string) :
  (forall err,
     os_Open (filepath_Join (filepath_Clean pathname) "data.json") = inl err ->
     LoadLevel pathname = Returned (None, Some err)) /\
  (forall datafile err,
     os_Open (filepath_Join (filepath_Clean pathname) "data.json") = inr datafile ->
     ioutil_ReadAll datafile = inl err ->
     LoadLevel pathname = Returned (None, Some err)) /\
  (forall r, LoadLevel pathname = Returned r ->
     (exists err, r = (None, Some err)) \/
     (exists l, r = (Some l, None) /\
        grid l <> [] /\ unlit (grid l) /\ cached l = false /\
        entities l = [] /\ selected l = None /\ command l = NoCommand /\
        reachable l = [] /\ in_range l = [])).
Proof.
  split; [|split].
  - intros err Hopen. unfold LoadLevel. by rewrite Hopen.
  - intros datafile err Hopen Hread. unfold LoadLevel. by rewrite Hopen, Hread.
  - intros [[l|] err] E.
    2:{ left. revert E. unfold LoadLevel.
        destruct (os_Open _) as [?|datafile]; [intros [= <-]; eauto|].
        destruct (ioutil_ReadAll datafile) as [?|data]; [intros [= <-]; eauto|].
        destruct (index _ 0) as [cells0|]; [|done]. simpl.
        destruct (make_cells _) as [all_cells|]; [|done]. simpl.
        destruct (forO _ [] _) as [g|]; [|done]. simpl.
        destruct (forO (load_row _) g _) as [g'|]; [|done]. simpl.
        destruct (gui_MakeTerrain _ _ _ _ _); [intros [= <-]; eauto|done]. }
    right. exists l.
    destruct (LoadLevel_fresh pathname l err E) as (Hunlit & Hc & He & Hcmd).
    revert E. unfold LoadLevel.
    destruct (os_Open _) as [?|datafile]; [done|].
    destruct (ioutil_ReadAll datafile) as [?|data]; [done|].
    destruct (index _ 0) as [cells0|] eqn:Hcells0; [|done]. simpl.
    destruct (make_cells _) as [all_cells|]; [|done]. simpl.
    destruct (forO _ [] _) as [g|] eqn:Hrows; [|done]. simpl.
    assert (length g = Z.to_nat (len (Cells (Level_data (json_Unmarshal data))))) as Hlen.
    { assert (forall n k g0 g1,
        forO (fun g (i : nat) =>
                obind (or_panic "slice bounds out of range"
                         (slice all_cells (mul (Z.of_nat i) (len cells0))
                            (mul (add (Z.of_nat i) 1) (len cells0))))
                      (fun row => Returned (g ++ [row]))) g0 (seq k n) = Returned g1 ->
        length g1 = (length g0 + n)%nat) as Hgen.
      { induction n as [|n IH]; intros k g0 g1; simpl.
        - intros [= <-]. lia.
        - destruct (slice _ _ _) as [row|]; [|done]. simpl.
          intros E%IH. rewrite length_app in E. simpl in E. lia. }
      apply Hgen in Hrows. simpl in Hrows. done. }
    destruct (forO (load_row _) g _) as [g'|] eqn:Hload; [|done]. simpl.
    assert (length g' = length g) as Hlen'.
    { revert Hload. apply (forO_inv (fun g1 => length g1 = length g)); [|done].
      intros g1 i g2 Hg1 E. apply load_row_length in E. congruence. }
    destruct (gui_MakeTerrain _ _ _ _ _); [done|]. intros [= <- <-].
    split; [done|]. split; [|done]. simpl. intros Hnil.
    rewrite Hnil in Hlen'. simpl in Hlen'.
    apply index_Some in Hcells0 as [_ Hcells0]. apply lookup_lt_Some in Hcells0.
    unfold len in Hlen. lia.
Qed.

End LoadingResults.

(** ** The basic attack: choosing and resolving *)

Section BasicAttack.
Import GoInt Game.
Context `{Game.Deps}.

(** The entity [t] stands on the cell of the click. *)
Definition on_clicked_cell (l : Level) (bx by_ : Q) (t : nat) : Prop :=
  exists e, entities l !! t = Some e /\
    of_float bx = Xi (Pos e) /\ of_float by_ = Yi (Pos e).

Lemma click_target_first (l : Level) bx by_ (ts : list nat) :
  Forall (fun t => is_Some (entities l !! t)) ts ->
  (exists t pre post,
     ts = pre ++ t :: post /\ on_clicked_cell l bx by_ t /\
     Forall (fun u => ~ on_clicked_cell l bx by_ u) pre /\
     click_target l bx by_ ts = Some (Some t)) \/
  (Forall (fun u => ~ on_clicked_cell l bx by_ u) ts /\
   click_target l bx by_ ts = Some None).
Proof.
  induction 1 as [|t ts [e He] _ IH]; [right; by split|]. simpl. rewrite He.
  destruct (Z.eqb_spec (of_float bx) (Xi (Pos e))) as [Hx|Hx];
    [destruct (Z.eqb_spec (of_float by_) (Yi (Pos e))) as [Hy|Hy]|]; simpl.
  - left. exists t, [], ts. split; [done|]. split; [by exists e|]. by split.
  - assert (~ on_clicked_cell l bx by_ t) as Hno.
    { intros (e' & He' & _ & Hy'). rewrite He in He'. by injection He' as <-. }
    destruct IH as [(u & pre & post & -> & Hu & Hpre & E)|[Hall E]].
    + left. exists u, (t :: pre), post. split; [done|]. split; [done|].
      split; [by constructor|done].
    + right. split; [by constructor|done].
  - assert (~ on_clicked_cell l bx by_ t) as Hno.
    { intros (e' & He' & Hx' & _). rewrite He in He'. by injection He' as <-. }
    destruct IH as [(u & pre & post & -> & Hu & Hpre & E)|[Hall E]].
    + left. exists u, (t :: pre), post. split; [done|]. split; [done|].
      split; [by constructor|done].
    + right. split; [by constructor|done].
Qed.

(** X17. [MouseClick] marks the first candidate, in the order of
    [a.targets], that stands on the clicked cell (the click's coordinates cut
    to [int]s) and answers [StandardAction]; when no candidate stands there it
    answers [NoAction] and leaves the action as it is. So with no candidates,
    as before [Prep] or after [Cancel], every click is refused. The candidate
    list itself is never changed. *)
Theorem MouseClick_marks_first_target_on_cell
  (l : Level) (a : ActionBasicAttack) (bx by_ : Q) :
  Forall (fun t => is_Some (entities l !! t)) (targets a) ->
  (exists t pre post,
     targets a = pre ++ t :: post /\ on_clicked_cell l bx by_ t /\
     Forall (fun u => ~ on_clicked_cell l bx by_ u) pre /\
     MouseClick l a bx by_ = Some (StandardAction, set_mark a (Some t))) \/
  (Forall (fun u => ~ on_clicked_cell l bx by_ u) (targets a) /\
   MouseClick l a bx by_ = Some (NoAction, a)).
Proof.
  intros Hts. unfold MouseClick.
  destruct (click_target_first l bx by_ (targets a) Hts)
    as [(t & pre & post & E & Ht & Hpre & ->)|[Hall ->]].
  - left. by exists t, pre, post.
  - by right.
Qed.

Ltac entity_lookup :=
  unfold update_entity; simpl;
  repeat first [ rewrite list_lookup_alter_eq
               | rewrite list_lookup_alter_ne by congruence ];
  repeat match goal with
         | E : entities _ !! _ = Some _ |- _ => rewrite E
         end;
  simpl.

(** What [Maintain] does to the acting entity when a target is marked and
    the cost is covered. *)
Lemma Maintain_spends (l : Level) (a : ActionBasicAttack) (dt roll : Z) (m : nat)
  (ent me : Entity) :
  mark a = Some m ->
  entities l !! Ent a = Some ent ->
  entities l !! m = Some me ->
  Cost a <= CurAp ent ->
  exists l' a' ent' me',
    Maintain l a dt roll = Some (Complete, l', a') /\
    entities l' !! Ent a = Some ent' /\
    ap ent' = sub (ap ent) (Cost a) /\
    In (if negb (Melee a =? 0) then "melee"%string else "ranged"%string) (s ent') /\
    entities l' !! m = Some me' /\ In "defend"%string (s me') /\
    length (entities l') = length (entities l).
Proof.
  intros Hmark Hent Hme Hap. unfold Maintain. rewrite Hmark, Hent.
  destruct (Z.ltb_spec (CurAp ent) (Cost a)); [lia|].
  destruct (decide (Ent a = m)) as [Heq|Hne].
  - subst m. rewrite Hent in Hme. injection Hme as <-.
    destruct (negb (Melee a =? 0)).
    all: entity_lookup.
    all: match goal with
         | |- context [if ?x <=? ?y then _ else _] => destruct (x <=? y)
         end.
    all: entity_lookup.
    all: try match goal with
         | |- context [if ?x <=? 0 then _ else _] => destruct (x <=? 0)
         end.
    all: entity_lookup.
    all: eexists _, _, _, _; split; [reflexivity|].
    all: entity_lookup.
    all: rewrite ?length_alter.
    all: repeat split; try reflexivity.
    all: simpl; rewrite ?in_app_iff; simpl; intuition.
  - destruct (negb (Melee a =? 0)).
    all: entity_lookup.
    all: match goal with
         | |- context [if ?x <=? ?y then _ else _] => destruct (x <=? y)
         end.
    all: entity_lookup.
    all: try match goal with
         | |- context [if ?x <=? 0 then _ else _] => destruct (x <=? 0)
         end.
    all: entity_lookup.
    all: eexists _, _, _, _; split; [reflexivity|].
    all: entity_lookup.
    all: rewrite ?length_alter.
    all: repeat split; try reflexivity.
    all: simpl; rewrite ?in_app_iff; simpl; intuition.
Qed.

(** X18. An attack that [aiDoAttack] accepts is resolved by the next
    [Maintain]. [aiDoAttack] accepts the proposed target when it is within
    the range of the action and the acting entity can pay the cost, and then
    only records it; [Maintain] then completes, takes exactly the cost off the
    acting entity's action points and sends "defend" to the target's sprite.
    A refused proposal leaves the action as it was, an earlier mark
    included. *)
Theorem aiDoAttack_then_Maintain
  (l : Level) (a : ActionBasicAttack) (m : nat) (me ent : Entity) :
  entities l !! m = Some me ->
  entities l !! Ent a = Some ent ->
  (Pos_Dist (Pos me) (Pos ent) <= Range a /\ Cost a <= CurAp ent ->
     aiDoAttack l a m = Some (true, set_mark a (Some m)) /\
     forall dt roll, exists l' a' ent' me',
       Maintain l (set_mark a (Some m)) dt roll = Some (Complete, l', a') /\
       entities l' !! Ent a = Some ent' /\
       ap ent' = sub (ap ent) (Cost a) /\
       entities l' !! m = Some me' /\ In "defend"%string (s me')) /\
  (Range a < Pos_Dist (Pos me) (Pos ent) \/ CurAp ent < Cost a ->
     aiDoAttack l a m = Some (false, a)).
Proof.
  intros Hme Hent. unfold aiDoAttack. rewrite Hme, Hent. split.
  - intros [Hrange Hap].
    destruct (Z.ltb_spec (Range a) (Pos_Dist (Pos me) (Pos ent))); [lia|].
    destruct (Z.ltb_spec (CurAp ent) (Cost a)); [lia|].
    split; [done|]. intros dt roll.
    destruct (Maintain_spends l (set_mark a (Some m)) dt roll m ent me)
      as (l' & a' & ent' & me' & E & He & Hspent & _ & Hm & Hdef & _); try done.
    exists l', a', ent', me'. done.
  - intros [Hfar|Hpoor].
    + by destruct (Z.ltb_spec (Range a) (Pos_Dist (Pos me) (Pos ent))); [|lia].
    + destruct (Range a <? _); [done|].
      by destruct (Z.ltb_spec (CurAp ent) (Cost a)); [|lia].
Qed.

(** Every way through [Maintain] ends in [Cancel]. *)
Lemma Maintain_ends_in_Cancel (l : Level) (a : ActionBasicAttack) (dt roll : Z)
  (r : MaintenanceStatus * Level * ActionBasicAttack) :
  Maintain l a dt roll = Some r ->
  exists l1,
    r = (Complete, clearCache Attackable l1, set_targets (set_mark a None) []) /\
    length (entities l1) = length (entities l) /\
    (mark a = None \/
     (exists ent, entities l !! Ent a = Some ent /\ CurAp ent < Cost a) ->
     l1 = l).
Proof.
  unfold Maintain, Cancel.
  destruct (mark a) as [m|] eqn:Hmark; [|intros [= <-]; by exists l].
  destruct (entities l !! Ent a) as [ent|] eqn:Hent; [|done].
  destruct (Z.ltb_spec (CurAp ent) (Cost a)) as [Hpoor|Hrich];
    [intros [= <-]; by exists l|].
  repeat match goal with
         | |- context [match ?x !! ?i with Some _ => _ | None => None end] =>
             destruct (x !! i) eqn:?; [|done]
         | |- context [if ?b then _ else _] => destruct b eqn:?
         end.
  all: intros [= <-]; eexists; split; [reflexivity|].
  all: unfold update_entity; simpl; rewrite ?length_alter; split; [done|].
  all: intros [?|(ent0 & [= <-] & ?)]; [done|lia].
Qed.

(** X19. [Maintain] never stays in progress. Whenever it returns it answers
    [Complete] and leaves the action cancelled: no mark, no candidates, and no
    cell with the attackable bit; a further [Maintain] changes nothing more.
    The number of entities stays. When no target is marked, or the acting
    entity cannot pay the cost, no entity is changed at all: no action points
    are spent and no sprite is sent a command. *)
Theorem Maintain_completes_and_releases
  (l : Level) (a : ActionBasicAttack) (dt roll : Z)
  (r : MaintenanceStatus * Level * ActionBasicAttack) :
  Maintain l a dt roll = Some r ->
  exists l' a',
    r = (Complete, l', a') /\
    mark a' = None /\ targets a' = [] /\ none_marked Attackable l' /\
    (forall dt' roll', Maintain l' a' dt' roll' = Some (Complete, l', a')) /\
    length (entities l') = length (entities l) /\
    (mark a = None \/
     (exists ent, entities l !! Ent a = Some ent /\ CurAp ent < Cost a) ->
     entities l' = entities l).
Proof.
  intros (l1 & -> & Hlen & Hsame)%Maintain_ends_in_Cancel.
  eexists _, _. split; [reflexivity|]. split; [done|]. split; [done|].
  split; [|split; [|split]].
  - unfold none_marked, clearCache. simpl.
    apply (Forall_cells_map (fun _ => True)); [|apply Forall_cells_True].
    intros c _. simpl. apply land_ldiff_same.
  - intros dt' roll'. unfold Maintain, Cancel. simpl. by rewrite clearCache_twice.
  - done.
  - intros Hcase. by rewrite (Hsame Hcase).
Qed.

(** [l.GetCellAtPos(p)]: the cell at the integer coordinates of [p]. *)
Definition cell_at_pos (l : Level) (p : BoardPos) : option CellData :=
  do row <- index (grid l) (Xi p); index row (Yi p).

Definition same_cell (p q : BoardPos) : Prop := Xi p = Xi q /\ Yi p = Yi q.

Lemma highlight_at_cells (l l' : Level) p mask :
  highlight_at l p mask = Some l' ->
  entities l' = entities l /\
  exists c, cell_at_pos l p = Some c /\
    forall q, cell_at_pos l' q =
      if decide (same_cell q p)
      then Some {| highlight := Z.lor (highlight c) mask |}
      else cell_at_pos l q.
Proof.
  unfold highlight_at, cell_at_pos.
  destruct (index (grid l) (Xi p)) as [row|] eqn:Hrow; [|done].
  destruct (index row (Yi p)) as [c|] eqn:Hc; [|done].
  intros [= <-]. split; [done|]. exists c. split; [done|]. intros q. simpl.
  apply index_Some in Hrow as [Hx Hrow]. apply index_Some in Hc as [Hy Hc].
  pose proof (lookup_lt_Some _ _ _ Hrow) as Hi.
  pose proof (lookup_lt_Some _ _ _ Hc) as Hj.
  unfold store, index, same_cell.
  destruct (Z.ltb_spec (Xi q) 0) as [Hqx|Hqx].
  { rewrite decide_False; [done|lia]. }
  destruct (decide (Z.to_nat (Xi q) = Z.to_nat (Xi p))) as [Ex|Ex].
  - rewrite Ex, list_lookup_insert_eq, Hrow by done.
    destruct (Z.ltb_spec (Yi q) 0) as [Hqy|Hqy].
    { rewrite decide_False; [done|lia]. }
    destruct (decide (Z.to_nat (Yi q) = Z.to_nat (Yi p))) as [Ey|Ey].
    + rewrite Ey, list_lookup_insert_eq by done. rewrite decide_True; [done|lia].
    + rewrite list_lookup_insert_ne by done. rewrite decide_False; [done|lia].
  - rewrite list_lookup_insert_ne by done. rewrite decide_False; [done|lia].
Qed.

(** The grid after the cells of the entities [ts] have been marked, starting
    from the level [l0]: the entities are those of [l0]; the cell of every
    entity of [ts] carries the bits of [mask]; and a cell holds what it held
    in [l0], with the bits of [mask] added if an entity of [ts] stands on
    it. *)
Definition marked_from (mask : Z) (l0 : Level) (ts : list nat) (l : Level) : Prop :=
  entities l = entities l0 /\
  (forall t, In t ts -> exists e c,
     entities l0 !! t = Some e /\ cell_at_pos l (Pos e) = Some c /\
     Z.land (highlight c) mask = mask) /\
  (forall q, match cell_at_pos l0 q, cell_at_pos l q with
             | Some c0, Some c =>
                 highlight c = highlight c0 \/
                 (highlight c = Z.lor (highlight c0) mask /\
                  exists t e, In t ts /\ entities l0 !! t = Some e /\
                              same_cell q (Pos e))
             | None, None => True
             | _, _ => False
             end).

Lemma land_lor_same h m : Z.land (Z.lor h m) m = m.
Proof.
  apply Z.bits_inj'. intros n Hn. rewrite Z.land_spec, Z.lor_spec.
  by destruct (Z.testbit h n), (Z.testbit m n).
Qed.

Lemma lor_lor_same h m : Z.lor (Z.lor h m) m = Z.lor h m.
Proof.
  apply Z.bits_inj'. intros n Hn. rewrite !Z.lor_spec.
  by destruct (Z.testbit h n), (Z.testbit m n).
Qed.

Lemma cell_at_pos_same (l : Level) p q :
  same_cell p q -> cell_at_pos l p = cell_at_pos l q.
Proof. intros [Ex Ey]. unfold cell_at_pos. by rewrite Ex, Ey. Qed.

Lemma mark_targets_marked (mask : Z) (l0 : Level) (ts pre : list nat) (l l' : Level) :
  marked_from mask l0 pre l ->
  forM (fun l target =>
          do t <- entities l !! target;
          highlight_at l (Pos t) mask) l ts = Some l' ->
  marked_from mask l0 (pre ++ ts) l'.
Proof.
  revert pre l. induction ts as [|t ts IH]; intros pre l Hl; simpl.
  - intros [= <-]. by rewrite app_nil_r.
  - destruct (entities l !! t) as [e|] eqn:He; [|done].
    destruct (highlight_at l (Pos e) mask) as [l1|] eqn:E; [|done].
    intros Hrest. replace (pre ++ t :: ts) with ((pre ++ [t]) ++ ts)
      by (by rewrite <- app_assoc).
    apply (IH _ l1); [|done]. clear Hrest IH.
    destruct Hl as (Hents & Hmarked & Hcells).
    apply highlight_at_cells in E as (Hents1 & c & Hc & Hcells1).
    rewrite Hents in He.
    split; [congruence|]. split.
    + intros u [Hu|[<-|[]]]%in_app_iff.
      * destruct (Hmarked u Hu) as (eu & cu & Heu & Hcu & Hbits).
        exists eu. rewrite Hcells1.
        destruct (decide (same_cell (Pos eu) (Pos e))) as [Hsame|Hdiff].
        -- eexists. split; [done|]. split; [done|]. simpl. apply land_lor_same.
        -- by exists cu.
      * exists e. rewrite Hcells1, decide_True by done.
        eexists. split; [done|]. split; [done|]. simpl. apply land_lor_same.
    + intros q. specialize (Hcells q). rewrite Hcells1.
      destruct (decide (same_cell q (Pos e))) as [Hsame|Hdiff].
      * rewrite (cell_at_pos_same l q (Pos e) Hsame), Hc in Hcells.
        destruct (cell_at_pos l0 q) as [c0|]; [|done]. simpl.
        destruct Hcells as [Hh|(Hh & u & eu & Hu & Heu & Hq)]; rewrite Hh.
        -- right. split; [done|]. exists t, e. rewrite in_app_iff. simpl. tauto.
        -- right. split; [apply lor_lor_same|].
           exists u, eu. rewrite in_app_iff. tauto.
      * destruct (cell_at_pos l0 q) as [c0|], (cell_at_pos l q) as [c1|]; try done.
        destruct Hcells as [Hh|(Hh & u & eu & Hu & Heu & Hq)]; [by left|].
        right. split; [done|]. exists u, eu. rewrite in_app_iff. tauto.
Qed.

(** X20. A successful [Prep]: the acting entity could pay the cost, the
    candidates are the entities that the range query returned (at least one),
    no entity was changed and no action points were spent. On the grid the
    cell of every candidate carries the attackable bit; any other bit a cell
    had is kept; and a cell without a candidate on it is as it was. *)
Theorem Prep_marks_every_target
  (l l' : Level) (a a' : ActionBasicAttack) :
  Prep l a = Some (true, l', a') ->
  a' = set_targets a (getEntsWithinRange (Ent a) (Range a) l) /\
  targets a' <> [] /\
  (exists ent, entities l !! Ent a = Some ent /\ Cost a <= CurAp ent) /\
  entities l' = entities l /\
  (forall t, In t (targets a') -> exists e c,
     entities l !! t = Some e /\ cell_at_pos l' (Pos e) = Some c /\
     Z.land (highlight c) Attackable = Attackable) /\
  (forall q, match cell_at_pos l q, cell_at_pos l' q with
             | Some c0, Some c =>
                 highlight c = highlight c0 \/
                 (highlight c = Z.lor (highlight c0) Attackable /\
                  exists t e, In t (targets a') /\ entities l !! t = Some e /\
                              same_cell q (Pos e))
             | None, None => True
             | _, _ => False
             end).
Proof.
  unfold Prep. destruct (entities l !! Ent a) as [ent|] eqn:Hent; [|done].
  destruct (Z.ltb_spec (CurAp ent) (Cost a)); [done|]. cbn zeta.
  destruct (Z.eqb_spec (len (targets (set_targets a
              (getEntsWithinRange (Ent a) (Range a) l)))) 0) as [|Hlen]; [done|].
  destruct (forM _ l _) as [l1|] eqn:E; [|done]. intros [= <- <-].
  split; [done|]. split.
  { intros Hnil. rewrite Hnil in Hlen. done. }
  split; [by exists ent|].
  apply (mark_targets_marked Attackable l _ [] l) in E.
  - destruct E as (He & Hm & Hc). done.
  - split; [done|]. split; [by intros t []|]. intros q.
    destruct (cell_at_pos l q); [by left|done].
Qed.

End BasicAttack.

(** ** The widget tree *)

Section WidgetTree.
Import GoInt Gui.

Lemma forM_seq_total {B} (I : nat -> B -> Prop) (f : B -> nat -> option B) n k b :
  I k b ->
  (forall i b, (k <= i < k + n)%nat -> I i b ->
     exists b', f b i = Some b' /\ I (S i) b') ->
  exists r, forM f b (seq k n) = Some r /\ I (k + n)%nat r.
Proof.
  revert k b. induction n as [|n IH]; intros k b Hb Hstep; simpl.
  - exists b. by rewrite Nat.add_0_r.
  - destruct (Hstep k b ltac:(lia) Hb) as (b' & -> & Hb').
    destruct (IH (S k) b' Hb') as (r & -> & Hr).
    + intros i b'' Hi. apply Hstep. lia.
    + exists r. split; [done|]. by replace (k + S n)%nat with (S k + n)%nat by lia.
Qed.

(** The loop that swaps the ends of the slice towards the middle leaves the
    slice reversed. *)
Lemma reverse_in_place_rev {A} (l : list A) : reverse_in_place l = Some (rev l).
Proof.
  unfold reverse_in_place.
  set (n := length l). set (m := (n / 2)%nat).
  assert (2 * m <= n)%nat as Hm.
  { unfold m. pose proof (Nat.div_mod_eq n 2). lia. }
  assert (n <= 2 * m + 1)%nat as Hm'.
  { unfold m. pose proof (Nat.div_mod_eq n 2).
    pose proof (Nat.mod_upper_bound n 2). lia. }
  pose (I := fun (k : nat) (p : list A) =>
    length p = n /\
    forall j, (j < n)%nat ->
      p !! j = if decide (j < k \/ n - k <= j)%nat then l !! (n - S j)%nat else l !! j).
  destruct (forM_seq_total I (fun p i => swap p i (length p - i - 1)) m 0 l)
    as (r & -> & Hlen & Hr).
  - split; [done|]. intros j Hj. rewrite decide_False; [done|lia].
  - intros i p Hi [Hlen Hp]. unfold swap. rewrite Hlen.
    destruct (lookup_lt_is_Some_2 p i ltac:(lia)) as [x Hx].
    destruct (lookup_lt_is_Some_2 p (n - i - 1) ltac:(lia)) as [y Hy].
    rewrite Hx, Hy. eexists. split; [reflexivity|]. split.
    + by rewrite !length_insert.
    + intros j Hj.
      rewrite Hp in Hx by lia. rewrite Hp in Hy by lia.
      rewrite decide_False in Hx by lia. rewrite decide_False in Hy by lia.
      destruct (decide (j = n - i - 1)%nat) as [->|Hj1].
      { rewrite list_lookup_insert_eq by (rewrite length_insert; lia).
        rewrite decide_True by lia.
        by replace (n - S (n - i - 1))%nat with i by lia. }
      rewrite list_lookup_insert_ne by lia.
      destruct (decide (j = i)) as [->|Hj2].
      { rewrite list_lookup_insert_eq by lia.
        rewrite decide_True by lia.
        by replace (n - S i)%nat with (n - i - 1)%nat by lia. }
      rewrite list_lookup_insert_ne by lia. rewrite Hp by done.
      destruct (decide (j < i \/ n - i <= j)%nat);
        [rewrite decide_True by lia | rewrite decide_False by lia]; done.
  - f_equal. rewrite rev_alt. change (rev_append l []) with (reverse l).
    apply list_eq. intros j.
    destruct (decide (j < n)%nat) as [Hj|Hj].
    + rewrite Hr, reverse_lookup by done. fold n.
      destruct (decide (j < 0 + m \/ n - (0 + m) <= j)%nat) as [|Hmid]; [done|].
      f_equal. lia.
    + rewrite !lookup_ge_None_2; [done|rewrite length_reverse; fold n; lia|lia].
Qed.

(** The nodes met from [p] upwards along the parent pointers, ending at a
    node without parent. *)
Inductive chain (h : list Node) : option nat -> list nat -> Prop :=
| chain_root : chain h None []
| chain_up a n ps :
    h !! a = Some n -> chain h (parent n) ps -> chain h (Some a) (a :: ps).

Lemma climb_chain (h : list Node) steps p ps acc :
  chain h p ps -> (length ps <= steps)%nat ->
  climb steps h p acc = Some (acc ++ ps).
Proof.
  intros Hc. revert steps acc. induction Hc as [|a n ps Ha _ IH]; intros steps acc Hlen.
  - destruct steps; simpl; by rewrite app_nil_r.
  - destruct steps as [|steps]; simpl in *; [lia|]. rewrite Ha.
    rewrite IH by lia. by rewrite <- app_assoc.
Qed.

Lemma climb_Some (h : list Node) steps p acc path :
  climb steps h p acc = Some path ->
  exists ps, chain h p ps /\ (length ps <= steps)%nat /\ path = acc ++ ps.
Proof.
  revert p acc. induction steps as [|steps IH]; intros [a|] acc; simpl.
  - done.
  - intros [= <-]. exists []. split; [constructor|]. by rewrite app_nil_r.
  - destruct (h !! a) as [n|] eqn:Ha; [|done].
    intros (ps & Hc & Hlen & ->)%IH. exists (a :: ps).
    split; [by econstructor|]. split; [simpl; lia|]. by rewrite <- app_assoc.
  - intros [= <-]. exists []. split; [constructor|].
    rewrite app_nil_r. split; [simpl; lia|done].
Qed.

(** [pathFromRoot] returns the nodes from the root to the node, in that
    order: the reverse of the nodes met when following the parent pointers
    from the node up to a node without parent. It returns within [steps]
    turns of its first loop exactly when the parent pointers lead to such a
    node in at most [steps] steps; called on [nil] it returns the empty
    path. *)
Lemma pathFromRoot_chain
  (steps : nat) (h : list Node) (n : option nat) (path : list nat) :
  pathFromRoot steps h n = Some path <->
  chain h n (rev path) /\ (length path <= steps)%nat.
Proof.
  unfold pathFromRoot. split.
  - destruct (climb steps h n []) as [up|] eqn:E; [|done].
    rewrite reverse_in_place_rev. intros [= <-].
    apply climb_Some in E as (ps & Hc & Hlen & ->). simpl.
    by rewrite rev_involutive, length_rev.
  - intros [Hc Hlen]. rewrite (climb_chain h steps n (rev path) []).
    + simpl. by rewrite reverse_in_place_rev, rev_involutive.
    + done.
    + by rewrite length_rev.
Qed.

(** X21. [pathFromRoot] returns the nodes from the root to the node, in that
    order: the reverse of the nodes met when following the parent pointers
    from the node up to a node without parent. It returns within [steps]
    turns of its first loop exactly when the parent pointers lead to such a
    node in at most [steps] steps; called on [nil] it returns the empty
    path. *)
Theorem pathFromRoot_lists_root_first
  (steps : nat) (h : list Node) (n : option nat) (path : list nat) :
  pathFromRoot steps h n = Some path <->
  chain h n (rev path) /\ (length path <= steps)%nat.
Proof. apply pathFromRoot_chain. Qed.

(** Whether [UninstallWidget] keeps the child at address [c]: its widget is
    not the one to uninstall. *)
Definition kept (h : list Node) (w : Widget) (c : nat) : bool :=
  match h !! c with
  | Some nc => negb (bool_decide (widget nc = w))
  | None => false
  end.

(** What [UninstallWidget] does to the node at address [a]: a child that is
    not kept loses its parent. *)
Definition detach (h : list Node) (w : Widget) (cs : list nat) (a : nat) (na : Node) : Node :=
  if bool_decide (a ∈ cs) && negb (kept h w a) then set_parent na None else na.

Lemma filter_snoc {A} (p : A -> bool) (l : list A) (x : A) :
  List.filter p (l ++ [x]) = List.filter p l ++ (if p x then [x] else []).
Proof. by rewrite List.filter_app. Qed.

Lemma detach_snoc_other (h : list Node) w cs c a na :
  a <> c -> detach h w (cs ++ [c]) a na = detach h w cs a na.
Proof.
  intros Hne. unfold detach.
  assert (bool_decide (a ∈ cs ++ [c]) = bool_decide (a ∈ cs)) as ->; [|done].
  apply bool_decide_ext. rewrite elem_of_app, list_elem_of_singleton. tauto.
Qed.

Lemma unlink_loop (h0 : list Node) (w : Widget) (cs0 : list nat) :
  Forall (fun c => is_Some (h0 !! c)) cs0 ->
  exists cs cur h,
    forM (unlink w) (cs0, 0%nat, h0) (seq 0 (length cs0)) = Some (cs, cur, h) /\
    take cur cs = List.filter (kept h0 w) cs0 /\
    length h = length h0 /\
    forall a na, h0 !! a = Some na -> h !! a = Some (detach h0 w cs0 a na).
Proof.
  intros Hvalid.
  pose (I := fun (k : nat) (st : list nat * nat * list Node) =>
    let '(cs, cur, h) := st in
    length cs = length cs0 /\ (cur <= k)%nat /\
    take cur cs = List.filter (kept h0 w) (take k cs0) /\
    drop k cs = drop k cs0 /\
    length h = length h0 /\
    forall a na, h0 !! a = Some na -> h !! a = Some (detach h0 w (take k cs0) a na)).
  destruct (forM_seq_total I (unlink w) (length cs0) 0 (cs0, 0%nat, h0))
    as ([[cs cur] h] & E & Hlen & Hcur & Htake & _ & Hh & Hnodes).
  - unfold I. simpl. rewrite take_0. repeat split; done.
  - intros i [[cs cur] h] Hi (Hlen & Hcur & Htake & Hdrop & Hh & Hnodes).
    destruct (lookup_lt_is_Some_2 cs0 i ltac:(lia)) as [c Hc].
    assert (cs !! i = Some c) as Hci.
    { rewrite <- (Nat.add_0_r i), <- lookup_drop, Hdrop, lookup_drop.
      by rewrite Nat.add_0_r. }
    assert (<[cur := c]> cs !! i = Some c) as Hci'.
    { destruct (decide (cur = i)) as [->|Hne].
      - rewrite list_lookup_insert_eq; [done|lia].
      - by rewrite list_lookup_insert_ne. }
    rewrite Forall_forall in Hvalid.
    destruct (Hvalid c) as [nc Hnc]; [apply list_elem_of_lookup; eauto|].
    pose proof (Hnodes c nc Hnc) as Hhc.
    assert (widget (detach h0 w (take i cs0) c nc) = widget nc) as Hw.
    { unfold detach. by destruct (_ && _). }
    unfold unlink. rewrite Hci.
    destruct (Nat.ltb_spec cur (length cs)); [|lia]. cbn [negb].
    rewrite Hci', Hhc. rewrite Hw.
    assert (drop (S i) (<[cur := c]> cs) = drop (S i) cs0) as Hdrop'.
    { rewrite drop_insert_lt by lia.
      rewrite (drop_S cs c i Hci) in Hdrop. rewrite (drop_S cs0 c i Hc) in Hdrop.
      by injection Hdrop. }
    assert (kept h0 w c = negb (bool_decide (widget nc = w))) as Hkept
      by (unfold kept; by rewrite Hnc).
    destruct (decide (widget nc = w)) as [Hrm|Hkeep].
    + eexists. split; [reflexivity|]. unfold I.
      split; [by rewrite length_insert|]. split; [lia|]. split; [|split; [done|split]].
      * rewrite take_insert_ge by lia. rewrite Htake, (take_S_r cs0 i c Hc).
        rewrite filter_snoc, Hkept, bool_decide_true by done. simpl.
        by rewrite app_nil_r.
      * by rewrite length_insert.
      * intros a na Ha. rewrite (take_S_r cs0 i c Hc).
        destruct (decide (a = c)) as [->|Hne].
        -- rewrite list_lookup_insert_eq by (apply lookup_lt_Some in Hhc; lia).
           rewrite Hnc in Ha. injection Ha as <-. f_equal.
           unfold detach at 2. rewrite bool_decide_true.
           2:{ apply elem_of_app. right. apply list_elem_of_here. }
           rewrite Hkept, bool_decide_true by done. simpl.
           unfold detach. by destruct (_ && _).
        -- rewrite list_lookup_insert_ne by done.
           rewrite detach_snoc_other by done. by apply Hnodes.
    + eexists. split; [reflexivity|]. unfold I.
      split; [by rewrite length_insert|]. split; [lia|]. split; [|split; [done|split]].
      * rewrite (take_S_r (<[cur := c]> cs) cur c).
        2:{ rewrite list_lookup_insert_eq; [done|lia]. }
        rewrite take_insert_ge by lia. rewrite Htake, (take_S_r cs0 i c Hc).
        by rewrite filter_snoc, Hkept, bool_decide_false.
      * done.
      * intros a na Ha. rewrite (take_S_r cs0 i c Hc).
        destruct (decide (a = c)) as [->|Hne].
        -- rewrite Hnc in Ha. injection Ha as <-. rewrite Hhc. f_equal.
           unfold detach. rewrite Hkept, (bool_decide_false (widget nc = w)) by done.
           simpl. by rewrite !andb_false_r.
        -- rewrite detach_snoc_other by done. by apply Hnodes.
  - exists cs, cur, h. split; [done|]. simpl in Htake, Hnodes.
    rewrite firstn_all in Htake, Hnodes. done.
Qed.

(** [UninstallWidget] removes from the children of [n] exactly the
    nodes whose widget is [w], keeps the others in their order, and detaches
    the removed nodes (their parent becomes [nil]); no node is added or
    dropped from the store, no widget and no other parent or children list
    changes, and [RemoveChild] is called once on the widget of [n]. *)
Lemma UninstallWidget_spec
  (t : tree) (n : nat) (w : Widget) (node : Node) :
  nodes t !! n = Some node ->
  Forall (fun c => is_Some (nodes t !! c)) (children node) ->
  exists t',
    UninstallWidget t n w = Some t' /\
    length (nodes t') = length (nodes t) /\
    calls t' = calls t ++ [call_RemoveChild (widget node) w] /\
    forall a na, nodes t !! a = Some na ->
      exists na', nodes t' !! a = Some na' /\
        widget na' = widget na /\
        children na' =
          (if decide (a = n)
           then List.filter (kept (nodes t) w) (children node)
           else children na) /\
        parent na' =
          (if decide (a ∈ children node /\ widget na = w) then None else parent na).
Proof.
  intros Hn Hvalid. unfold UninstallWidget. rewrite Hn.
  destruct (unlink_loop (nodes t) w (children node) Hvalid)
    as (cs & cur & h & -> & Htake & Hlen & Hnodes).
  rewrite (Hnodes n node Hn).
  assert (forall a na, nodes t !! a = Some na ->
            widget (detach (nodes t) w (children node) a na) = widget na /\
            children (detach (nodes t) w (children node) a na) = children na /\
            parent (detach (nodes t) w (children node) a na) =
              if decide (a ∈ children node /\ widget na = w) then None
              else parent na) as Hdetach.
  { intros a na Ha. unfold detach, kept. rewrite Ha.
    destruct (decide (a ∈ children node)) as [Hin|Hout].
    - rewrite bool_decide_true by done.
      destruct (decide (widget na = w)) as [Hw|Hw].
      + rewrite bool_decide_true by done. simpl. by rewrite decide_True.
      + rewrite bool_decide_false by done. simpl. rewrite decide_False; [done|tauto].
    - rewrite bool_decide_false by done. simpl. rewrite decide_False; [done|tauto]. }
  eexists. split; [reflexivity|]. simpl.
  split; [by rewrite length_insert|]. split.
  { by destruct (Hdetach n node Hn) as (-> & _). }
  intros a na Ha. destruct (Hdetach a na Ha) as (Hw & Hc & Hp).
  destruct (decide (a = n)) as [->|Hne].
  - rewrite Hn in Ha. injection Ha as <-.
    rewrite list_lookup_insert_eq by (apply lookup_lt_Some in Hn; lia).
    eexists. split; [reflexivity|]. simpl. by rewrite Htake.
  - rewrite list_lookup_insert_ne by done. rewrite (Hnodes a na Ha).
    eexists. split; [reflexivity|]. done.
Qed.

(** X22. [UninstallWidget] removes from the children of [n] exactly the
    nodes whose widget is [w], keeps the others in their order, and detaches
    the removed nodes (their parent becomes [nil]); no node is added or
    dropped from the store, no widget and no other parent or children list
    changes, and [RemoveChild] is called once on the widget of [n]. *)
Theorem UninstallWidget_removes_matching_children
  (t : tree) (n : nat) (w : Widget) (node : Node) :
  nodes t !! n = Some node ->
  Forall (fun c => is_Some (nodes t !! c)) (children node) ->
  exists t',
    UninstallWidget t n w = Some t' /\
    length (nodes t') = length (nodes t) /\
    calls t' = calls t ++ [call_RemoveChild (widget node) w] /\
    forall a na, nodes t !! a = Some na ->
      exists na', nodes t' !! a = Some na' /\
        widget na' = widget na /\
        children na' =
          (if decide (a = n)
           then List.filter (kept (nodes t) w) (children node)
           else children na) /\
        parent na' =
          (if decide (a ∈ children node /\ widget na = w) then None else parent na).
Proof. apply UninstallWidget_spec. Qed.

Lemma InstallWidget_nodes (t t1 : tree) (n kid : nat) (w : Widget) :
  InstallWidget t n w = Some (t1, kid) ->
  exists node,
    nodes t !! n = Some node /\ kid = length (nodes t) /\
    nodes t1 = <[n := set_children node (children node ++ [kid])]> (nodes t) ++
               [{| widget := w; parent := Some n; children := [] |}] /\
    calls t1 = calls t ++ [call_AddChild (widget node) w].
Proof.
  unfold InstallWidget. destruct (nodes t !! n) as [node|] eqn:Hn; [|done].
  intros [= <- <-]. exists node. split; [done|]. split; [done|]. simpl.
  split; [|done]. apply insert_app_l. by eapply lookup_lt_Some.
Qed.

Lemma node_eq (a b : Node) :
  widget a = widget b -> parent a = parent b -> children a = children b -> a = b.
Proof. destruct a, b. simpl. by intros -> -> ->. Qed.

(** X23. Installing a widget under a node and uninstalling it again gives
    the store back: when none of the node's children held that widget
    before, every node is exactly as it was before the installation, the
    children of the node included; the node made for the widget stays in the
    store, detached, without parent and without children. The widget of the
    node has been told [AddChild] and then [RemoveChild]. *)
Theorem InstallWidget_then_UninstallWidget
  (t t1 : tree) (n kid : nat) (w : Widget) (node : Node) :
  nodes t !! n = Some node ->
  Forall (fun c => is_Some (nodes t !! c)) (children node) ->
  Forall (fun c => kept (nodes t) w c = true) (children node) ->
  InstallWidget t n w = Some (t1, kid) ->
  exists t2,
    UninstallWidget t1 n w = Some t2 /\
    nodes t2 = nodes t ++ [{| widget := w; parent := None; children := [] |}] /\
    calls t2 = calls t ++
      [call_AddChild (widget node) w; call_RemoveChild (widget node) w].
Proof.
  intros Hn Hvalid Hkept (node' & Hn' & -> & Hnodes & Hcalls)%InstallWidget_nodes.
  rewrite Hn in Hn'. injection Hn' as <-.
  pose proof (lookup_lt_Some _ _ _ Hn) as Hlt.
  set (kidnode := {| widget := w; parent := Some n; children := [] |}) in *.
  set (node1 := set_children node (children node ++ [length (nodes t)])) in *.
  assert (forall a, nodes t1 !! a =
            if decide (a = n) then Some node1
            else if decide (a = length (nodes t)) then Some kidnode
            else nodes t !! a) as Hlook.
  { intros a. rewrite Hnodes. destruct (decide (a = n)) as [->|Hne].
    - rewrite lookup_app_l by (rewrite length_insert; lia).
      by rewrite list_lookup_insert_eq.
    - destruct (decide (a = length (nodes t))) as [->|Hne'].
      + rewrite lookup_app_r by (rewrite length_insert; lia).
        by rewrite length_insert, Nat.sub_diag.
      + destruct (decide (a < length (nodes t))%nat).
        * rewrite lookup_app_l by (rewrite length_insert; lia).
          by rewrite list_lookup_insert_ne.
        * rewrite !lookup_ge_None_2; [done|lia|].
          rewrite length_app, length_insert. simpl. lia. }
  assert (forall c, kept (nodes t) w c = true -> kept (nodes t1) w c = true) as Hk1.
  { intros c. unfold kept. rewrite Hlook.
    destruct (decide (c = n)) as [->|Hne]; [by rewrite Hn|].
    destruct (nodes t !! c) as [nc|] eqn:Hc; [|done].
    rewrite decide_False; [done|]. apply lookup_lt_Some in Hc. lia. }
  assert (kept (nodes t1) w (length (nodes t)) = false) as Hk2.
  { unfold kept. rewrite Hlook, decide_False, decide_True by (done || lia).
    simpl. by rewrite bool_decide_true. }
  destruct (UninstallWidget_spec t1 n w node1) as (t2 & E & Hlen & Hc2 & Hall).
  { by rewrite Hlook, decide_True. }
  { simpl. apply Forall_app. split.
    - apply Forall_forall. intros c Hc. rewrite Hlook.
      destruct (decide (c = n)); [done|].
      rewrite Forall_forall in Hvalid. destruct (Hvalid c Hc) as [nc Hnc].
      rewrite decide_False; [eauto|]. apply lookup_lt_Some in Hnc. lia.
    - constructor; [|done]. rewrite Hlook, decide_False, decide_True by (done || lia).
      done. }
  exists t2. split; [done|]. split; [|by rewrite Hc2, Hcalls, <- app_assoc].
  assert (List.filter (kept (nodes t1) w) (children node1) = children node) as Hfilter.
  { simpl. rewrite List.filter_app. simpl. rewrite Hk2, app_nil_r.
    clear -Hkept Hk1. induction Hkept as [|c cs Hc _ IH]; [done|]. simpl.
    by rewrite (Hk1 c Hc), IH. }
  rewrite Forall_forall in Hkept.
  apply list_eq. intros a.
  destruct (nodes t1 !! a) as [na|] eqn:Ha.
  2:{ rewrite Hlook in Ha. destruct (decide (a = n)); [done|].
      destruct (decide (a = length (nodes t))); [done|].
      rewrite lookup_ge_None_2.
      - rewrite lookup_ge_None_2; [done|]. rewrite length_app. simpl.
        apply lookup_ge_None_1 in Ha. lia.
      - rewrite Hlen, Hnodes, length_app, length_insert. simpl.
        apply lookup_ge_None_1 in Ha. lia. }
  destruct (Hall a na Ha) as (na' & -> & Hw & Hch & Hp).
  rewrite Hlook in Ha. destruct (decide (a = n)) as [->|Hne].
  - injection Ha as <-. rewrite lookup_app_l, Hn by done. f_equal.
    apply node_eq; [done| |by rewrite Hch, Hfilter].
    rewrite Hp. simpl. rewrite decide_False; [done|].
    intros [[Hin|Hin%list_elem_of_singleton]%elem_of_app Hwn]; [|lia].
    specialize (Hkept n Hin). unfold kept in Hkept. rewrite Hn in Hkept.
    by rewrite bool_decide_true in Hkept.
  - destruct (decide (a = length (nodes t))) as [->|Hne'].
    + injection Ha as <-. rewrite lookup_app_r, Nat.sub_diag by lia. simpl. f_equal.
      apply node_eq; [done| |done].
      rewrite Hp. simpl. rewrite decide_True; [done|]. split; [|done].
      apply elem_of_app. right. apply list_elem_of_here.
    + rewrite lookup_app_l by (apply lookup_lt_Some in Ha; lia). rewrite Ha. f_equal.
      apply node_eq; [done| |done].
      rewrite Hp. rewrite decide_False; [done|].
      intros [[Hin|Hin%list_elem_of_singleton]%elem_of_app Hwn]; [|lia].
      specialize (Hkept a Hin). unfold kept in Hkept. rewrite Ha in Hkept.
      by rewrite bool_decide_true in Hkept.
Qed.

Lemma chain_ext (h h' : list Node) p ps :
  (forall a na, h !! a = Some na ->
     exists na', h' !! a = Some na' /\ parent na' = parent na) ->
  chain h p ps -> chain h' p ps.
Proof.
  intros Hext. induction 1 as [|a n ps Ha _ IH]; [constructor|].
  destruct (Hext a n Ha) as (n' & Ha' & Hp).
  econstructor; [done|]. by rewrite Hp.
Qed.

(** X24. The path of a freshly installed node is the path of the node it was
    installed under, followed by the new node: its parent pointer is set, and
    no other parent pointer has changed. *)
Theorem InstallWidget_extends_path
  (t t1 : tree) (n kid : nat) (w : Widget) (steps : nat) (path : list nat) :
  InstallWidget t n w = Some (t1, kid) ->
  pathFromRoot steps (nodes t) (Some n) = Some path ->
  pathFromRoot (S steps) (nodes t1) (Some kid) = Some (path ++ [kid]).
Proof.
  intros (node & Hn & -> & Hnodes & _)%InstallWidget_nodes [Hc Hlen]%pathFromRoot_chain.
  apply pathFromRoot_chain. rewrite rev_app_distr, length_app. simpl.
  split; [|lia].
  pose proof (lookup_lt_Some _ _ _ Hn) as Hlt.
  apply (chain_up _ _ {| widget := w; parent := Some n; children := [] |}).
  - rewrite Hnodes, lookup_app_r by (rewrite length_insert; lia).
    by rewrite length_insert, Nat.sub_diag.
  - simpl. revert Hc. apply chain_ext. intros a na Ha. rewrite Hnodes.
    rewrite lookup_app_l by (rewrite length_insert; apply lookup_lt_Some in Ha; lia).
    destruct (decide (a = n)) as [->|Hne].
    + rewrite list_lookup_insert_eq by done. rewrite Hn in Ha. injection Ha as <-.
      by eexists.
    + rewrite list_lookup_insert_ne by done. by exists na.
Qed.

(** ** The focus stack *)

(** X25. The focus stack: [Pop] undoes [Push]; [Pop] panics on the empty
    stack and only there, and otherwise drops the last entry; [Take] replaces
    the last entry and keeps the depth of a stack that is not empty (on the
    empty stack it makes the stack of that one node), so [Take] is [Pop]
    followed by [Push]. *)
Theorem Focus_Push_Pop_Take (f : Focus) (n : option nat) :
  Pop (Push f n) = Main.Returned f /\
  (focus_nodes f = [] <->
     Pop f = Main.Panicked "Cannot pop an empty Focus stack") /\
  (forall f', Pop f = Main.Returned f' ->
     exists m, focus_nodes f = focus_nodes f' ++ [m] /\ Take f n = Push f' n) /\
  (focus_nodes f = [] -> Take f n = Push f n) /\
  length (focus_nodes (Take f n)) = Nat.max 1 (length (focus_nodes f)).
Proof.
  destruct f as [ns]. unfold Pop, Push, Take, len. simpl.
  split; [|split; [|split; [|split]]].
  - rewrite length_app. simpl.
    destruct (Z.eqb_spec (Z.of_nat (length ns + 1)) 0); [lia|].
    f_equal. f_equal. replace (length ns + 1 - 1)%nat with (length ns) by lia.
    apply take_app_length.
  - destruct ns; simpl; [done|]. split; [done|].
    by destruct (Z.eqb_spec (Z.pos (Pos.of_succ_nat (length ns))) 0).
  - intros [ns'] E.
    destruct ns as [|x ns _] using rev_ind; [done|].
    rewrite length_app in *. simpl in *.
    destruct (Z.eqb_spec (Z.of_nat (length ns + 1)) 0); [lia|].
    injection E as <-. replace (length ns + 1 - 1)%nat with (length ns) by lia.
    rewrite take_app_length. exists x. split; [done|]. f_equal.
    rewrite length_app. simpl.
    replace (length ns + 1 - 1)%nat with (length ns + 0)%nat by lia.
    by rewrite insert_app_r.
  - by intros ->.
  - destruct ns as [|x ns]; simpl; [done|].
    destruct (Z.eqb_spec (Z.pos (Pos.of_succ_nat (length ns))) 0); [lia|].
    rewrite length_insert. simpl. lia.
Qed.

(** X26. [top] reports the first entry of the stack, the one that was put
    there first, not the last one: on a stack that is not empty [Push] does
    not change what [top] reports, and neither does [Take] when the stack
    holds two entries or more. Only on the empty stack, and for [Take] on a
    stack of one, does the new node become the one that [top] reports. *)
Theorem top_reports_the_first_entry (f : Focus) (n : option nat) :
  (focus_nodes f = [] -> top f = None /\ top (Push f n) = n /\ top (Take f n) = n) /\
  (forall m rest, focus_nodes f = m :: rest ->
     top f = m /\ top (Push f n) = m /\
     (rest = [] -> top (Take f n) = n) /\
     (rest <> [] -> top (Take f n) = m)).
Proof.
  destruct f as [ns]. unfold top, Push, Take, len. simpl. split.
  - by intros ->.
  - intros m rest ->. simpl. split; [done|]. split; [done|].
    destruct (Z.eqb_spec (Z.pos (Pos.of_succ_nat (length rest))) 0); [lia|].
    simpl. rewrite Nat.sub_0_r. split.
    + by intros ->.
    + intros Hrest. destruct rest; done.
Qed.

End WidgetTree.

(** ** Thinking, leaves first *)

Section Thinking.
Import GoInt Gui.

Variable Widget_Think : list call -> Widget -> Z -> bool -> bool.

(** The children pointers below [n] stay within the store and nest less than
    [depth] deep. *)
Fixpoint nested (h : list Node) (depth : nat) (n : nat) : Prop :=
  match depth with
  | O => False
  | S depth' =>
    match h !! n with
    | Some node => Forall (nested h depth') (children node)
    | None => False
    end
  end.

(** The nodes below [n] and [n] itself, every node after the nodes below
    it and the children of a node in their order. *)
Fixpoint postorder (h : list Node) (depth : nat) (n : nat) : list nat :=
  match depth with
  | O => []
  | S depth' =>
    match h !! n with
    | Some node => flat_map (postorder h depth') (children node) ++ [n]
    | None => []
    end
  end.

(** [c] is a call of [Think] on the widget of the node at [a]. *)
Definition thinks (h : list Node) (ms : Z) (a : nat) (c : call) : Prop :=
  exists node has_focus, h !! a = Some node /\ c = call_Think (widget node) ms has_focus.

(** The focus stack keeps its depth, or was empty and holds one node. *)
Definition same_depth (f f' : Focus) : Prop :=
  length (focus_nodes f') = length (focus_nodes f) \/
  (focus_nodes f = [] /\ length (focus_nodes f') = 1%nat).

Lemma same_depth_refl f : same_depth f f.
Proof. by left. Qed.

Lemma same_depth_trans f1 f2 f3 : same_depth f1 f2 -> same_depth f2 f3 -> same_depth f1 f3.
Proof.
  unfold same_depth. intros [H1|[H1 H1']] [H2|[H2 H2']].
  - left. congruence.
  - right. split; [|done]. rewrite H2 in H1. simpl in H1. by destruct (focus_nodes f1).
  - right. split; [done|]. congruence.
  - rewrite H2 in H1'. done.
Qed.

Lemma same_depth_Take f n : same_depth f (Take f n).
Proof.
  unfold same_depth, Take, len. simpl. destruct (focus_nodes f) as [|x l]; simpl.
  - by right.
  - left. destruct (Z.eqb_spec (Z.pos (Pos.of_succ_nat (length l))) 0); [lia|].
    by rewrite length_insert.
Qed.

Lemma think_visits (ms : Z) (depth : nat) :
  forall n t f, nested (nodes t) depth n ->
  exists t' f' new,
    think Widget_Think depth n ms (t, f) = Some (t', f') /\
    nodes t' = nodes t /\
    calls t' = calls t ++ new /\
    Forall2 (thinks (nodes t) ms) (postorder (nodes t) depth n) new /\
    same_depth f f'.
Proof.
  induction depth as [|depth IH]; intros n t f Hn; [done|].
  simpl in Hn. simpl. destruct (nodes t !! n) as [node|] eqn:Hnode; [|done]. cbn.
  assert (forall cs t f, Forall (nested (nodes t) depth) cs ->
            exists t' f' new,
              forM (fun st child => think Widget_Think depth child ms st) (t, f) cs =
                Some (t', f') /\
              nodes t' = nodes t /\ calls t' = calls t ++ new /\
              Forall2 (thinks (nodes t) ms) (flat_map (postorder (nodes t) depth) cs) new /\
              same_depth f f') as Hkids.
  { clear -IH. induction cs as [|c cs IHcs]; intros t f Hcs.
    - exists t, f, []. cbn. rewrite app_nil_r. repeat split; try done.
      apply same_depth_refl.
    - apply Forall_cons in Hcs as [Hc Hcs].
      destruct (IH c t f Hc) as (t1 & f1 & new1 & E1 & Hn1 & Hc1 & Hv1 & Hd1).
      rewrite <- Hn1 in Hcs.
      destruct (IHcs t1 f1 Hcs) as (t2 & f2 & new2 & E2 & Hn2 & Hc2 & Hv2 & Hd2).
      exists t2, f2, (new1 ++ new2). rewrite forM_cons, E1. cbn. rewrite E2.
      rewrite Hn1 in *. rewrite Hn2, Hc2, Hc1, app_assoc. repeat split; try done.
      + simpl. by apply Forall2_app.
      + by eapply same_depth_trans. }
  destruct (Hkids (children node) t f Hn) as (t1 & f1 & new1 & E1 & Hn1 & Hc1 & Hv1 & Hd1).
  rewrite E1. cbn.
  set (has_focus := bool_decide (Some n = top f1)).
  set (t2 := {| nodes := nodes t1;
                calls := calls t1 ++ [call_Think (widget node) ms has_focus] |}).
  assert (Forall2 (thinks (nodes t) ms)
            (flat_map (postorder (nodes t) depth) (children node) ++ [n])
            (new1 ++ [call_Think (widget node) ms has_focus])) as Hv.
  { apply Forall2_app; [done|]. constructor; [|constructor]. by exists node, has_focus. }
  destruct (Widget_Think (calls t1) (widget node) ms has_focus).
  - exists t2, (Take f1 (Some n)), (new1 ++ [call_Think (widget node) ms has_focus]).
    simpl. rewrite Hc1, app_assoc. repeat split; try done.
    eapply same_depth_trans; [done|]. apply same_depth_Take.
  - exists t2, f1, (new1 ++ [call_Think (widget node) ms has_focus]).
    simpl. rewrite Hc1, app_assoc. repeat split; done.
Qed.

(** X3. [think] calls [Think] on the widgets leaves first: when the children
    pointers below the node stay within the store and nest less than [depth]
    deep, it returns, and the calls it has added are one call of [Think] for
    every node below [n] and for [n], every node after all the nodes below
    it, the children of a node in their order, and [n] last. The nodes are
    not changed, and the focus stack keeps its depth (an empty stack may come
    to hold one node). *)
Theorem think_calls_children_first (ms : Z) (depth : nat) (n : nat) (t : tree) (f : Focus) :
  nested (nodes t) depth n ->
  exists t' f' new,
    think Widget_Think depth n ms (t, f) = Some (t', f') /\
    nodes t' = nodes t /\
    calls t' = calls t ++ new /\
    Forall2 (thinks (nodes t) ms) (postorder (nodes t) depth n) new /\
    same_depth f f'.
Proof. apply think_visits. Qed.

End Thinking.

(** ** Laying out the children of a table *)

Section TableRequests.
Import GoInt GuiTable.

(** The sum of a measure over the children. *)
Definition total (f : Child -> Z) (cs : list Child) : Z :=
  fold_right (fun c acc => f c + acc) 0 cs.

Definition req_Dx (c : Child) : Z := Dx (Requested c).
Definition req_Dy (c : Child) : Z := Dy (Requested c).

Lemma total_nonneg f cs : Forall (fun c => 0 <= f c) cs -> 0 <= total f cs.
Proof. induction 1; simpl; lia. Qed.


Lemma add_fits a b : fits_int (a + b) -> add a b = a + b.
Proof. apply wrap_fits_int. Qed.

Lemma vertical_requests (cs : list Child) (w : Table) :
  Forall (fun c => 0 <= req_Dy c) cs ->
  fits_int (Dy (Request_dims w)) ->
  0 <= Dy (Request_dims w) ->
  Dy (Request_dims w) + total req_Dy cs <= max_int ->
  let w' := fold_left vertical_request cs w in
  Dy (Request_dims w') = Dy (Request_dims w) + total req_Dy cs /\
  Dx (Request_dims w) <= Dx (Request_dims w') /\
  (forall c, In c cs -> req_Dx c <= Dx (Request_dims w')) /\
  (Dx (Request_dims w') = Dx (Request_dims w) \/
   exists c, In c cs /\ Dx (Request_dims w') = req_Dx c) /\
  Ex w' = Ex w || existsb (fun c => fst (Expandable c)) cs /\
  Ey w' = Ey w || existsb (fun c => snd (Expandable c)) cs /\
  Children w' = Children w /\ Render_region w' = Render_region w.
Proof.
  intros Hcs. revert w. induction Hcs as [|c cs Hc Hcs IH]; intros w Hfit Hpos Hsum.
  - simpl. rewrite !orb_false_r, Z.add_0_r. repeat split; try done. by left.
  - cbn [fold_left]. cbv zeta.
    pose proof (total_nonneg req_Dy cs Hcs) as Htot. simpl in Hsum.
    pose proof min_int_eq.
    assert (Dy (Request_dims (vertical_request w c)) = Dy (Request_dims w) + req_Dy c /\
            Dx (Request_dims (vertical_request w c)) =
              Z.max (Dx (Request_dims w)) (req_Dx c) /\
            Ex (vertical_request w c) = Ex w || fst (Expandable c) /\
            Ey (vertical_request w c) = Ey w || snd (Expandable c) /\
            Children (vertical_request w c) = Children w /\
            Render_region (vertical_request w c) = Render_region w)
      as (Ey1 & Ex1 & Eex & Eey & Ech & Err).
    { unfold vertical_request, req_Dy, req_Dx in *.
      destruct (Expandable c) as [[] []]; simpl.
      all: rewrite add_fits by (unfold fits_int; lia).
      all: destruct (Z.gtb_spec (Dx (Requested c)) (Dx (Request_dims w))); simpl.
      all: rewrite ?orb_true_r, ?orb_false_r.
      all: repeat split; try done; lia. }
    destruct (IH (vertical_request w c)) as (I1 & I2 & I3 & I4 & I5 & I6 & I7 & I8).
    { rewrite Ey1. unfold fits_int. lia. }
    { lia. }
    { lia. }
    rewrite I1, I5, I6, I7, I8, Ey1, Eex, Eey, Ech, Err.
    unfold total. cbn [fold_right]. fold (total req_Dy cs).
    split; [lia|]. split; [lia|]. split; [|split].
    + intros c' [<-|Hin]; [lia|]. by apply I3.
    + destruct I4 as [I4|(c' & Hin & I4)].
      * rewrite I4, Ex1. destruct (Z.max_spec (Dx (Request_dims w)) (req_Dx c))
          as [[_ ->]|[_ ->]]; [right; exists c; by split; [left|]|by left].
      * right. exists c'. split; [by right|done].
    + simpl. by rewrite !orb_assoc.
Qed.

Lemma horizontal_requests (cs : list Child) (w : Table) :
  Forall (fun c => 0 <= req_Dx c) cs ->
  fits_int (Dx (Request_dims w)) ->
  0 <= Dx (Request_dims w) ->
  Dx (Request_dims w) + total req_Dx cs <= max_int ->
  let w' := fold_left horizontal_request cs w in
  Dx (Request_dims w') = Dx (Request_dims w) + total req_Dx cs /\
  Dy (Request_dims w) <= Dy (Request_dims w') /\
  (forall c, In c cs -> req_Dy c <= Dy (Request_dims w')) /\
  (Dy (Request_dims w') = Dy (Request_dims w) \/
   exists c, In c cs /\ Dy (Request_dims w') = req_Dy c) /\
  Ex w' = Ex w || existsb (fun c => fst (Expandable c)) cs /\
  Ey w' = Ey w || existsb (fun c => snd (Expandable c)) cs /\
  Children w' = Children w /\ Render_region w' = Render_region w.
Proof.
  intros Hcs. revert w. induction Hcs as [|c cs Hc Hcs IH]; intros w Hfit Hpos Hsum.
  - simpl. rewrite !orb_false_r, Z.add_0_r. repeat split; try done. by left.
  - cbn [fold_left]. cbv zeta.
    pose proof (total_nonneg req_Dx cs Hcs) as Htot. simpl in Hsum.
    pose proof min_int_eq.
    assert (Dx (Request_dims (horizontal_request w c)) = Dx (Request_dims w) + req_Dx c /\
            Dy (Request_dims (horizontal_request w c)) =
              Z.max (Dy (Request_dims w)) (req_Dy c) /\
            Ex (horizontal_request w c) = Ex w || fst (Expandable c) /\
            Ey (horizontal_request w c) = Ey w || snd (Expandable c) /\
            Children (horizontal_request w c) = Children w /\
            Render_region (horizontal_request w c) = Render_region w)
      as (Ey1 & Ex1 & Eex & Eey & Ech & Err).
    { unfold horizontal_request, req_Dx, req_Dy in *.
      destruct (Expandable c) as [[] []]; simpl.
      all: rewrite add_fits by (unfold fits_int; lia).
      all: destruct (Z.gtb_spec (Dy (Requested c)) (Dy (Request_dims w))); simpl.
      all: rewrite ?orb_true_r, ?orb_false_r.
      all: repeat split; try done; lia. }
    destruct (IH (horizontal_request w c)) as (I1 & I2 & I3 & I4 & I5 & I6 & I7 & I8).
    { rewrite Ey1. unfold fits_int. lia. }
    { lia. }
    { lia. }
    rewrite I1, I5, I6, I7, I8, Ey1, Eex, Eey, Ech, Err.
    unfold total. cbn [fold_right]. fold (total req_Dx cs).
    split; [lia|]. split; [lia|]. split; [|split].
    + intros c' [<-|Hin]; [lia|]. by apply I3.
    + destruct I4 as [I4|(c' & Hin & I4)].
      * rewrite I4, Ex1. destruct (Z.max_spec (Dy (Request_dims w)) (req_Dy c))
          as [[_ ->]|[_ ->]]; [right; exists c; by split; [left|]|by left].
      * right. exists c'. split; [by right|done].
    + simpl. by rewrite !orb_assoc.
Qed.

(** X27. What the tables request after [DoThink], when the children request
    sizes that are not negative and whose sum fits an [int]. Along its main
    axis a table requests the sum of its children's requests (the vertical
    table along y, the horizontal table along x); across, it requests the
    largest of them, and 0 without children. It can grow along an axis exactly
    when one of its children can. The children and the render region are not
    touched. *)
Theorem DoThink_requests_sum_and_maximum (w : Table) :
  Forall (fun c => 0 <= req_Dx c /\ 0 <= req_Dy c) (Children w) ->
  (total req_Dy (Children w) <= max_int ->
   let v := VerticalTable_DoThink w in
   Dy (Request_dims v) = total req_Dy (Children w) /\
   0 <= Dx (Request_dims v) /\
   (forall c, In c (Children w) -> req_Dx c <= Dx (Request_dims v)) /\
   (Dx (Request_dims v) = 0 \/
    exists c, In c (Children w) /\ Dx (Request_dims v) = req_Dx c) /\
   Ex v = existsb (fun c => fst (Expandable c)) (Children w) /\
   Ey v = existsb (fun c => snd (Expandable c)) (Children w) /\
   Children v = Children w /\ Render_region v = Render_region w) /\
  (total req_Dx (Children w) <= max_int ->
   let h := HorizontalTable_DoThink w in
   Dx (Request_dims h) = total req_Dx (Children w) /\
   0 <= Dy (Request_dims h) /\
   (forall c, In c (Children w) -> req_Dy c <= Dy (Request_dims h)) /\
   (Dy (Request_dims h) = 0 \/
    exists c, In c (Children w) /\ Dy (Request_dims h) = req_Dy c) /\
   Ex h = existsb (fun c => fst (Expandable c)) (Children w) /\
   Ey h = existsb (fun c => snd (Expandable c)) (Children w) /\
   Children h = Children w /\ Render_region h = Render_region w).
Proof.
  intros Hcs. pose proof min_int_eq. pose proof max_int_eq. split.
  - intros Hsum. cbv zeta. unfold VerticalTable_DoThink.
    match goal with
    | |- context [fold_left vertical_request ?cs ?w0] =>
        destruct (vertical_requests cs w0) as (E1 & E2 & E3 & E4 & E5 & E6 & E7 & E8)
    end.
    + simpl. eapply Forall_impl; [done|]. by intros c [_ ?].
    + done.
    + done.
    + done.
    + simpl in *. rewrite E1, E5, E6, E7, E8. repeat split; try done; lia.
  - intros Hsum. cbv zeta. unfold HorizontalTable_DoThink.
    match goal with
    | |- context [fold_left horizontal_request ?cs ?w0] =>
        destruct (horizontal_requests cs w0) as (E1 & E2 & E3 & E4 & E5 & E6 & E7 & E8)
    end.
    + simpl. eapply Forall_impl; [done|]. by intros c [? _].
    + done.
    + done.
    + done.
    + simpl in *. rewrite E1, E5, E6, E7, E8. repeat split; try done; lia.
Qed.

End TableRequests.

Section TableLayout.
Import GoInt GuiTable.


(** Sizes up to this bound can be multiplied within an [int]. *)
Definition modest : Z := 32767.



Lemma total_le f g (cs : list Child) :
  (forall c, In c cs -> f c <= g c) -> total f cs <= total g cs.
Proof.
  induction cs as [|c cs IH]; intros Hfg; simpl; [done|].
  pose proof (Hfg c ltac:(by left)).
  assert (total f cs <= total g cs) by (apply IH; intros c' Hc'; apply Hfg; by right).
  lia.
Qed.







Lemma modest_product a b :
  0 <= a <= modest -> 0 <= b <= modest -> fits_int (a * b).
Proof.
  unfold modest, fits_int. pose proof min_int_eq. pose proof max_int_eq. nia.
Qed.


(** The size across the main axis that a table gives to a child that requests
    [a] and can ([e]) or cannot grow, when the table is given [R]. *)
Definition across (R : Z) (a : Z) (e : bool) : Z := if e then R else Z.min a R.




Lemma growing_le (e : Child -> bool) (a : Child -> Z) (cs : list Child) :
  Forall (fun c => 0 <= a c) cs ->
  0 <= total (fun c => if e c then a c else 0) cs <= total a cs.
Proof.
  induction 1 as [|c cs Hc Hcs IH]; simpl; [lia|]. destruct (e c); lia.
Qed.




Ltac across_cases c region :=
  unfold across, req_Dx, req_Dy;
  destruct (fst (Expandable c)), (snd (Expandable c)), (Requested c);
  repeat (unfold set_Dims, set_Dx, set_Dy, set_X, set_Y in *;
          cbn [Dims_ Dx Dy X Y andb] in *;
          try match goal with
            | |- context [?a >? ?b] => destruct (Z.gtb_spec a b)
            | |- context [?a <? ?b] => destruct (Z.ltb_spec a b)
            end);
  try done; try lia; repeat (f_equal; try lia).

(** [vertical_place] as the two divisions along y followed by the
    adjustment of the width. *)
Lemma vertical_place_eq (w : Table) (region cr : Region) (c : Child) :
  vertical_place w region cr c =
  do s <- (do d1 <- (if snd (Expandable c) && (vertical_fill_request w >? 0)
                     then do q <- quo (mul (req_Dy c) (vertical_fill_available w region))
                                      (vertical_fill_request w);
                          Some (add (req_Dy c) q)
                     else Some (req_Dy c));
           if Dy (Dims_ region) <? Dy (Request_dims w)
           then quo (mul d1 (Dy (Dims_ region))) (Dy (Request_dims w))
           else Some d1);
  Some {| X := X region; Y := sub (Y cr) s;
          Dims_ := {| Dx := across (Dx (Dims_ region)) (req_Dx c) (fst (Expandable c));
                      Dy := s |} |}.
Proof.
  unfold vertical_place. cbv zeta. cbn [Dims_ set_Dims]. fold (req_Dy c).
  destruct (snd (Expandable c) && (vertical_fill_request w >? 0)) eqn:E1.
  - destruct (quo (mul (req_Dy c) _) _) as [q|]; [|done].
    cbn [Dims_ set_Dims Dy set_Dy].
    destruct (Dy (Dims_ region) <? Dy (Request_dims w)); cbn [Dims_ set_Dims Dy set_Dy].
    + destruct (quo _ _) as [q'|]; [|done]. cbn -[across]. clear E1. across_cases c region.
    + cbn -[across]. clear E1. across_cases c region.
  - cbn [Dims_ set_Dims Dy set_Dy].
    destruct (Dy (Dims_ region) <? Dy (Request_dims w)); cbn [Dims_ set_Dims Dy set_Dy].
    + fold (req_Dy c). destruct (quo _ _) as [q'|]; [|done]. cbn -[across]. clear E1.
      across_cases c region.
    + cbn -[across]. clear E1. across_cases c region.
Qed.






Lemma horizontal_place_eq (w : Table) (region cr : Region) (c : Child) :
  horizontal_place w region cr c =
  do s <- (do d1 <- (if fst (Expandable c) && (horizontal_fill_request w >? 0)
                     then do q <- quo (mul (req_Dx c) (horizontal_fill_available w region))
                                      (horizontal_fill_request w);
                          Some (add (req_Dx c) q)
                     else Some (req_Dx c));
           if Dx (Dims_ region) <? Dx (Request_dims w)
           then quo (mul d1 (Dx (Dims_ region))) (Dx (Request_dims w))
           else Some d1);
  Some {| X := X cr;
          Y := sub (add (Y region) (Dy (Dims_ region)))
                   (across (Dy (Dims_ region)) (req_Dy c) (snd (Expandable c)));
          Dims_ := {| Dx := s;
                      Dy := across (Dy (Dims_ region)) (req_Dy c) (snd (Expandable c)) |} |}.
Proof.
  unfold horizontal_place. cbv zeta. cbn [Dims_ set_Dims]. fold (req_Dx c).
  destruct (fst (Expandable c) && (horizontal_fill_request w >? 0)) eqn:E1.
  - destruct (quo (mul (req_Dx c) _) _) as [q|]; [|done].
    cbn [Dims_ set_Dims Dx set_Dx].
    destruct (Dx (Dims_ region) <? Dx (Request_dims w)); cbn [Dims_ set_Dims Dx set_Dx].
    + destruct (quo _ _) as [q'|]; [|done]. cbn -[across]. clear E1. across_cases c region.
    + cbn -[across]. clear E1. across_cases c region.
  - cbn [Dims_ set_Dims Dx set_Dx].
    destruct (Dx (Dims_ region) <? Dx (Request_dims w)); cbn [Dims_ set_Dims Dx set_Dx].
    + fold (req_Dx c). destruct (quo _ _) as [q'|]; [|done]. cbn -[across]. clear E1.
      across_cases c region.
    + cbn -[across]. clear E1. across_cases c region.
Qed.




Lemma forM_panics {A B} (f : B -> A -> option B) (P : Prop) :
  (forall b a, f b a = None <-> P) ->
  forall l b, forM f b l = None <-> l <> [] /\ P.
Proof.
  intros Hf l. induction l as [|a l IH]; intros b.
  - cbn. split; [done|]. by intros [? _].
  - rewrite forM_cons. destruct (f b a) as [b'|] eqn:E.
    + cbn. rewrite IH. split; intros [_ HP]; apply (Hf b a) in HP; congruence.
    + cbn. split; [|done]. intros _. split; [done|]. by apply (Hf b a).
Qed.

Lemma first_division_returns (e : bool) (a F Q : Z) :
  exists d1, (if e && (Q >? 0)
              then do q <- quo (mul a F) Q; Some (add a q)
              else Some a) = Some d1.
Proof.
  destruct (e && (Q >? 0)) eqn:E; [|by eexists].
  apply andb_true_iff in E as [_ HQ]. apply Z.gtb_lt in HQ.
  unfold quo. destruct (Z.eqb_spec Q 0); [lia|]. by eexists.
Qed.

Lemma second_division_panics (d1 R T : Z) :
  (if R <? T then quo (mul d1 R) T else Some d1) = None <-> T = 0 /\ R < 0.
Proof.
  unfold quo. destruct (Z.ltb_spec R T), (Z.eqb_spec T 0); split; try done; lia.
Qed.

Lemma vertical_place_panics (w : Table) (region cr : Region) (c : Child) :
  vertical_place w region cr c = None <->
  Dy (Request_dims w) = 0 /\ Dy (Dims_ region) < 0.
Proof.
  rewrite vertical_place_eq.
  destruct (first_division_returns (snd (Expandable c)) (req_Dy c)
              (vertical_fill_available w region) (vertical_fill_request w)) as [d1 ->].
  cbn. rewrite <- (second_division_panics d1).
  by destruct (if _ <? _ then _ else _).
Qed.

Lemma horizontal_place_panics (w : Table) (region cr : Region) (c : Child) :
  horizontal_place w region cr c = None <->
  Dx (Request_dims w) = 0 /\ Dx (Dims_ region) < 0.
Proof.
  rewrite horizontal_place_eq.
  destruct (first_division_returns (fst (Expandable c)) (req_Dx c)
              (horizontal_fill_available w region) (horizontal_fill_request w)) as [d1 ->].
  cbn. rewrite <- (second_division_panics d1).
  by destruct (if _ <? _ then _ else _).
Qed.

Lemma imap_nil_inv {A B} (f : nat -> A -> B) (l : list A) : imap f l = [] <-> l = [].
Proof. by destruct l. Qed.

(** X30. The only panic of a table's [Draw] is a division by a requested
    size of 0: the vertical table panics exactly when it has a child, its
    requested height is 0 and the region's height is negative; the horizontal
    table exactly when it has a child, its requested width is 0 and the
    region's width is negative. *)
Theorem Draw_panics_on_negative_region (w : Table) (region : Region) :
  (VerticalTable_Draw w region = None <->
   Children w <> [] /\ Dy (Request_dims w) = 0 /\ Dy (Dims_ region) < 0) /\
  (HorizontalTable_Draw w region = None <->
   Children w <> [] /\ Dx (Request_dims w) = 0 /\ Dx (Dims_ region) < 0).
Proof.
  split.
  - unfold VerticalTable_Draw. cbv zeta.
    match goal with
    | |- context [forM ?f ?b ?l] =>
        pose proof (forM_panics f (Dy (Request_dims w) = 0 /\ Dy (Dims_ region) < 0)) as Hp;
        specialize (Hp ltac:(intros [cr out] [i c]; cbn beta iota;
                             rewrite <- (vertical_place_panics w region cr c);
                             by destruct (vertical_place w region cr c)) l b);
        destruct (forM f b l)
    end.
    + cbn. rewrite imap_nil_inv in Hp. split; [done|]. intros H. by apply Hp in H.
    + cbn. rewrite imap_nil_inv in Hp. split; [|done]. intros _. by apply Hp.
  - unfold HorizontalTable_Draw. cbv zeta.
    match goal with
    | |- context [forM ?f ?b ?l] =>
        pose proof (forM_panics f (Dx (Request_dims w) = 0 /\ Dx (Dims_ region) < 0)) as Hp;
        specialize (Hp ltac:(intros [cr out] [i c]; cbn beta iota;
                             rewrite <- (horizontal_place_panics w region cr c);
                             by destruct (horizontal_place w region cr c)) l b);
        destruct (forM f b l)
    end.
    + cbn. rewrite imap_nil_inv in Hp. split; [done|]. intros H. by apply Hp in H.
    + cbn. rewrite imap_nil_inv in Hp. split; [|done]. intros _. by apply Hp.
Qed.

End TableLayout.


(** * Worked inputs *)

Module Fixtures.
Import GoInt Main.

Definition tile (t : Terrain) : CellData :=
  {| static_ := {| cell_Terrain := t |}; cache_ := {| highlight := NoHighlight |} |}.

(** A mover on foot: grass costs 1, dirt 2, brush 3; water cannot be
    entered. *)
Definition walker : gmap Terrain Z :=
  <[Grass := 1]> (<[Dirt := 2]> (<[Brush := 3]> ∅)).

Definition sword : Weapon := {| Cost := 1; Reach := 1 |}.
Definition foot : UnitType := {| Weapons := [sword]; Move_cost := walker |}.

Definition at_cell (x y : Z) : Vec2 := {| X := inject_Z x; Y := inject_Z y |}.

Definition unit_at (x y ap : Z) : entity :=
  {| pos := at_cell x y; AP := ap; Health := 10; Base := foot;
     path := []; s := []; facing := None |}.

Definition hero : entity := unit_at 0 0 2.

(** A 2 by 2 grid: grass at (0,0) and (1,1), dirt at (0,1), brush at (1,0).
    The hero stands on (0,0), is selected and has been told to move. *)
Definition slope : Level :=
  {| static_data := {| grid := [[tile Grass; tile Dirt]; [tile Brush; tile Grass]] |};
     cached := false; terrain := []; entities := [hero]; selected := Some 0%nat;
     winx := 0; winy := 0; command := Move; reachable := [0; 2]; in_range := [] |}.

Definition slope_graph : unitGraph := {| level := slope; move_cost := walker |}.

(** Collaborators for the worked inputs: an entity that thinks takes one
    step along x; every attack hits for 12; board and window coordinates
    coincide; reachability is the search modelled above; and the shortest
    path search answers with the diagonal step from vertex 0 to vertex 3 at
    its cost 5/2. *)
Definition step_right (dt : Z) (e : entity) : entity :=
  {| pos := {| X := (X (pos e) + 1)%Q; Y := Y (pos e) |}; AP := AP e;
     Health := Health e; Base := Base e; path := path e; s := s e;
     facing := facing e |}.

#[export] Instance oracle : Deps :=
  {| entity_Think := step_right;
     entity_OnRound := fun e => e;
     entity_OnSetup := fun e => e;
     Weapon_Damage := fun _ _ _ =>
       {| Connect := Hit; Damage := {| Piercing := 12 |} |};
     WindowToBoard := fun x y => (inject_Z x, inject_Z y);
     ReachableWithinLimit := fun g src limit =>
       Algorithm.ReachableWithinLimit (graph_of g) src limit;
     Dijkstra := fun _ _ _ => Some ((5 # 2)%Q, [0; 3]) |}.

Definition rival : entity := unit_at 1 1 2.

(** The hero next to a rival, and far from one, with the attack command. *)
Definition duel : Level :=
  {| static_data := static_data slope; cached := false; terrain := [];
     entities := [hero; rival]; selected := Some 0%nat; winx := 0; winy := 0;
     command := Attack; reachable := []; in_range := [3] |}.


(** The hero alone, with the candidates of an earlier attack still listed. *)
Definition stale : Level :=
  {| static_data := static_data slope; cached := false; terrain := [];
     entities := [hero]; selected := Some 0%nat; winx := 0; winy := 0;
     command := NoCommand; reachable := []; in_range := [3] |}.

(** The hero without action points. *)
Definition broke : Level :=
  {| static_data := static_data slope; cached := false; terrain := [];
     entities := [unit_at 0 0 0]; selected := Some 0%nat; winx := 0; winy := 0;
     command := NoCommand; reachable := []; in_range := [3] |}.

(** Package [game]: an attacker with power 5 and attack stat 0 next to a
    defender with defense 3 and health 10; nobody is in range for the range
    query of [lonely]. *)
Definition attacker : Game.Entity :=
  {| Game.Pos := {| Game.Xi := 0; Game.Yi := 0 |}; Game.ap := 3;
     Game.attack_stat := 0; Game.defense_stat := 0; Game.health := 10;
     Game.s := []; Game.facing := None |}.

Definition defender : Game.Entity :=
  {| Game.Pos := {| Game.Xi := 1; Game.Yi := 1 |}; Game.ap := 0;
     Game.attack_stat := 0; Game.defense_stat := 3; Game.health := 10;
     Game.s := []; Game.facing := None |}.

Definition arena : Game.Level :=
  {| Game.entities := [attacker; defender];
     Game.grid := replicate 2 (replicate 2 {| Game.highlight := 0 |}) |}.

Definition strike : Game.ActionBasicAttack :=
  {| Game.Ent := 0%nat; Game.Cost := 1; Game.Power := 5; Game.Range := 1;
     Game.Melee := 1; Game.targets := [1%nat]; Game.mark := Some 1%nat |}.

Definition costly : Game.ActionBasicAttack :=
  {| Game.Ent := 0%nat; Game.Cost := 9; Game.Power := 5; Game.Range := 1;
     Game.Melee := 1; Game.targets := [1%nat]; Game.mark := None |}.

Definition lonely : Game.Deps :=
  {| Game.Attackable := 2;
     Game.getEntsWithinRange := fun _ _ _ => [];
     Game.Pos_Dist := fun p q =>
       maxNormi (Game.Xi p) (Game.Yi p) (Game.Xi q) (Game.Yi q) |}.

Definition crowded : Game.Deps :=
  {| Game.Attackable := 2;
     Game.getEntsWithinRange := fun _ _ _ => [1%nat];
     Game.Pos_Dist := fun p q =>
       maxNormi (Game.Xi p) (Game.Yi p) (Game.Xi q) (Game.Yi q) |}.

(** Level documents: a well-formed one for the grid of [slope], and a ragged
    one whose second row is longer than the first and ends in a label that
    names no terrain. *)
Definition label (name : string) : levelDataCell := {| Terrain_label := name |}.

Definition tidy_document : levelDataContainer :=
  {| Level_data :=
       {| Image := "bg.png";
          Cells := [[label "grass"; label "dirt"]; [label "brush"; label "grass"]] |} |}.

Definition ragged_document : levelDataContainer :=
  {| Level_data :=
       {| Image := "bg.png";
          Cells := [[label "grass"]; [label "grass"; label "lava"]] |} |}.

Definition files_with (ldc : levelDataContainer) : LoadDeps :=
  {| filepath_Clean := fun p => p;
     filepath_Join := fun a b => (a ++ "/" ++ b)%string;
     os_Open := fun p => inr p;
     ioutil_ReadAll := fun f => inr f;
     json_Unmarshal := fun _ => ldc;
     gui_MakeTerrain := fun _ _ _ _ _ => None |}.

(** The level loaded from the well-formed document, with the hero placed. *)
Definition loaded : Level :=
  empty_Level [[tile Grass; tile Dirt]; [tile Brush; tile Grass]].

Definition staged : Level := set_entities loaded [hero].

(** Package [game]: a defender whose defense 8 is the attacker's power 5
    plus its attack stat 0 plus the largest offset 3, and one with 2 points
    of health left. *)
Definition shielded : Game.Entity :=
  {| Game.Pos := {| Game.Xi := 1; Game.Yi := 1 |}; Game.ap := 0;
     Game.attack_stat := 0; Game.defense_stat := 8; Game.health := 10;
     Game.s := []; Game.facing := None |}.

Definition wounded : Game.Entity :=
  {| Game.Pos := {| Game.Xi := 1; Game.Yi := 1 |}; Game.ap := 0;
     Game.attack_stat := 0; Game.defense_stat := 3; Game.health := 2;
     Game.s := []; Game.facing := None |}.

Definition arena_with (d : Game.Entity) : Game.Level :=
  {| Game.entities := [attacker; d];
     Game.grid := replicate 2 (replicate 2 {| Game.highlight := 0 |}) |}.

(** Collaborators as in [oracle], but every attack misses. *)
Definition parrying : Deps :=
  {| entity_Think := step_right;
     entity_OnRound := fun e => e;
     entity_OnSetup := fun e => e;
     Weapon_Damage := fun _ _ _ =>
       {| Connect := Miss; Damage := {| Piercing := 12 |} |};
     WindowToBoard := fun x y => (inject_Z x, inject_Z y);
     ReachableWithinLimit := fun g src limit =>
       Algorithm.ReachableWithinLimit (graph_of g) src limit;
     Dijkstra := fun _ _ _ => Some ((5 # 2)%Q, [0; 3]) |}.

(** An entity that thinks steps between the columns 0 and 1. *)
Definition pace (dt : Z) (e : entity) : entity :=
  {| pos := {| X := (1 - X (pos e))%Q; Y := Y (pos e) |}; AP := AP e;
     Health := Health e; Base := Base e; path := path e; s := s e;
     facing := facing e |}.

(** Collaborators as in [oracle], but the entities pace. *)
Definition pacing : Deps :=
  {| entity_Think := pace;
     entity_OnRound := fun e => e;
     entity_OnSetup := fun e => e;
     Weapon_Damage := fun _ _ _ =>
       {| Connect := Hit; Damage := {| Piercing := 12 |} |};
     WindowToBoard := fun x y => (inject_Z x, inject_Z y);
     ReachableWithinLimit := fun g src limit =>
       Algorithm.ReachableWithinLimit (graph_of g) src limit;
     Dijkstra := fun _ _ _ => Some ((5 # 2)%Q, [0; 3]) |}.

(** Collaborators as in [oracle], but the entities stand still. *)
Definition idle : Deps :=
  {| entity_Think := fun _ e => e;
     entity_OnRound := fun e => e;
     entity_OnSetup := fun e => e;
     Weapon_Damage := fun _ _ _ =>
       {| Connect := Hit; Damage := {| Piercing := 12 |} |};
     WindowToBoard := fun x y => (inject_Z x, inject_Z y);
     ReachableWithinLimit := fun g src limit =>
       Algorithm.ReachableWithinLimit (graph_of g) src limit;
     Dijkstra := fun _ _ _ => Some ((5 # 2)%Q, [0; 3]) |}.

(** An entity on a position given as floats. *)
Definition unit_on (x y : Q) : entity :=
  {| pos := {| X := x; Y := y |}; AP := 2; Health := 10; Base := foot;
     path := []; s := []; facing := None |}.

End Fixtures.

Section WorkedInputs.
Import GoInt Main Fixtures.

Lemma slope_rectangular : rectangular slope_graph.
Proof.
  split.
  - intros row [<-|[<-|[]]]; reflexivity.
  - vm_compute. discriminate.
Qed.

Example slope_adjacent :
  Adjacent slope_graph 0 = Some ([2; 1; 3], [2; 3; 5 # 2]%Q).
Proof. reflexivity. Qed.

(** The spec's scenario for the reachable set, on the embedded adapter: a 3
    by 3 grid of grass, the mover on (0,0) with 2 action points reaches all
    nine cells. *)
Definition meadow : Level :=
  {| static_data := {| grid := replicate 3 (replicate 3 (tile Grass)) |};
     cached := false; terrain := []; entities := [hero]; selected := Some 0%nat;
     winx := 0; winy := 0; command := NoCommand; reachable := []; in_range := [] |}.

Example meadow_reachable :
  Algorithm.ReachableWithinLimit
    (graph_of {| level := meadow; move_cost := walker |}) [0] 2 =
  Some [0; 3; 1; 4; 6; 7; 2; 5; 8].
Proof. vm_compute. reflexivity. Qed.

Example slope_PrepMove :
  option_map reachable (PrepMove slope) = Some [0; 2].
Proof. vm_compute. reflexivity. Qed.

Lemma diagonal_edge_weight_witness :
  exists adj weight,
    Adjacent slope_graph (toVertex slope_graph 0 0) = Some (adj, weight) /\
    exists w, In (toVertex slope_graph (0 + 1) (0 + 1), w) (combine adj weight) /\
              (w == diagonal_weight 2 3 1)%Q.
Proof.
  destruct (diagonal_edge_weight slope_graph 0 0 1 1) as (adj & weight & E & _ & _ & _ & Hex).
  - exact slope_rectangular.
  - by vm_compute.
  - by vm_compute.
  - by left.
  - by left.
  - exists adj, weight. split; [exact E|].
    apply (Hex 2 3 1); clear; vm_compute;
      first [reflexivity | discriminate | split; discriminate].
Defined.

Lemma reachable_within_limit_exact_witness :
  exists r,
    Algorithm.ReachableWithinLimit (graph_of slope_graph) [0] 2 = Some r /\
    NoDup r /\
    (forall v, In v r <->
       exists d, Algorithm.shortest_cost (graph_of slope_graph) [0] v d /\ (d <= 2)%Q) /\
    ((0 <= 2)%Q -> forall s, In s [0] -> In s r).
Proof.
  apply reachable_within_limit_exact.
  - apply graph_of_closed, slope_rectangular.
  - apply graph_of_nonnegative, slope_rectangular.
  - intros s [<-|[]]. by vm_compute.
Defined.

(** C3 on a concrete level. On [slope] the hero has 2 action points. The
    edge from its cell (vertex 0) to the clicked cell (1,1) (vertex 3) weighs
    5/2, and the true shortest cost to that cell is more than 2 and at most
    5/2. The search
    answers with that edge and its cost; [DoMove] compares [int(5/2) = 2] with
    the action points, accepts, and queues the cell. [PrepMove] on the same
    level, which compares the costs as floats, does not list the cell (see
    [slope_PrepMove]). *)
Theorem DoMove_commits_over_budget :
  (exists w, In (3, w) (Algorithm.edges (graph_of slope_graph) 0) /\ (w == 5 # 2)%Q) /\
  (exists d, Algorithm.shortest_cost (graph_of slope_graph) [0] 3 d /\ (d <= 5 # 2)%Q) /\
  (forall d, Algorithm.shortest_cost (graph_of slope_graph) [0] 3 d -> (2 < d)%Q) /\
  AP hero = 2 /\
  exists l' e',
    DoMove slope 1 1 = Some l' /\
    entities l' !! 0%nat = Some e' /\
    path e' = [(1, 1)] /\ AP e' = 2 /\ command l' = NoCommand.
Proof.
  split; [|split; [|split; [|split; [reflexivity|]]]].
  - exists (5 # 2)%Q. split; [|reflexivity]. vm_compute. tauto.
  - destruct (ReachableWithinLimit_spec (graph_of slope_graph) [0] (5 # 2))
      as (r & E & _ & Hiff & _).
    + apply graph_of_closed, slope_rectangular.
    + apply graph_of_nonnegative, slope_rectangular.
    + intros s [<-|[]]. clear. vm_compute. split; [discriminate|reflexivity].
    + apply Hiff. clear -E. vm_compute in E. injection E as <-.
      simpl. tauto.
  - intros d Hd. destruct (Qlt_le_dec 2 d) as [|Hle]; [done|]. exfalso.
    destruct (ReachableWithinLimit_spec (graph_of slope_graph) [0] 2)
      as (r & E & _ & Hiff & _).
    + apply graph_of_closed, slope_rectangular.
    + apply graph_of_nonnegative, slope_rectangular.
    + intros s [<-|[]]. clear. vm_compute. split; [discriminate|reflexivity].
    + assert (In 3 r) as Hin by (apply Hiff; eauto).
      clear -E Hin. vm_compute in E. injection E as <-.
      simpl in Hin. intuition discriminate.
  - eexists _, _. split; [vm_compute; reflexivity|].
    split; [reflexivity|]. by vm_compute.
Qed.


(** C5, the claim as stated fails: on [stale] no target is in range, and
    [PrepAttack] replaces the candidate list [[3]] by the empty one. *)
Lemma PrepAttack_resets_candidates :
  selected stale = Some 0%nat /\
  attack_candidates stale 0 hero sword = [] /\
  in_range stale = [3] /\
  PrepAttack stale = Some (set_in_range stale []) /\
  PrepAttack stale <> Some stale.
Proof.
  split; [reflexivity|]. split; [reflexivity|]. split; [reflexivity|].
  split; [reflexivity|]. vm_compute. discriminate.
Qed.

Lemma Prep_failure_effects_witness :
  PrepAttack broke = Some broke /\
  PrepAttack stale = Some (set_in_range stale []) /\
  @Game.Prep lonely arena costly = Some (false, arena, costly) /\
  @Game.Prep lonely arena strike = Some (false, arena, Game.set_targets strike []).
Proof.
  pose proof (@Prep_failure_effects lonely) as [Hmain Hgame].
  destruct (Hmain broke 0%nat (unit_at 0 0 0) sword eq_refl eq_refl eq_refl) as [Hb _].
  destruct (Hmain stale 0%nat hero sword eq_refl eq_refl eq_refl) as [_ Hs].
  destruct (Hgame arena costly attacker eq_refl) as [Hc _].
  destruct (Hgame arena strike attacker eq_refl) as [_ Ht].
  split; [apply Hb; clear; vm_compute; reflexivity|].
  split; [apply Hs; clear; [vm_compute; discriminate | reflexivity]|].
  split; [apply Hc; clear; vm_compute; reflexivity|].
  apply Ht; clear; [vm_compute; discriminate | reflexivity].
Defined.

(** The spec's scenario for an attack: power 5, attack stat 0, defense 3 and
    an offset of 0 (the dice give 14): the damage is 2, the health goes from
    10 to 8 and the defender is sent "defend" and "damaged". *)
Example strike_damages :
  exists l' a',
    @Game.Maintain lonely arena strike 16 14 = Some (Game.Complete, l', a') /\
    option_map Game.health (Game.entities l' !! 1%nat) = Some 8 /\
    option_map Game.s (Game.entities l' !! 1%nat) = Some ["defend"; "damaged"]%string /\
    option_map Game.ap (Game.entities l' !! 0%nat) = Some 2.
Proof. eexists _, _. split; [vm_compute; reflexivity|]. by vm_compute. Qed.

Lemma committed_attack_signals_witness :
  (exists l' a' me' sig,
     @Game.Maintain lonely (arena_with shielded) strike 16 25 =
       Some (Game.Complete, l', a') /\
     Game.entities l' !! 1%nat = Some me' /\
     Game.s me' = Game.s shielded ++ sig /\
     In "undamaged"%string sig /\ ~ In "damaged"%string sig /\
     ~ In "killed"%string sig /\ Game.health me' = Game.health shielded) /\
  (exists l' a' me' sig,
     @Game.Maintain lonely (arena_with wounded) strike 16 14 =
       Some (Game.Complete, l', a') /\
     Game.entities l' !! 1%nat = Some me' /\
     Game.s me' = Game.s wounded ++ sig /\
     Game.CurHealth me' <= 0 /\
     In "killed"%string sig /\ ~ In "damaged"%string sig) /\
  (exists l' tgt' sig,
     @DoAttack parrying duel 1 = Some l' /\
     entities l' !! 1%nat = Some tgt' /\
     s tgt' = s rival ++ sig /\
     In "undamaged"%string sig /\ ~ In "damaged"%string sig /\
     ~ In "killed"%string sig /\ Health tgt' = Health rival) /\
  (exists l' tgt' sig,
     @DoAttack oracle duel 1 = Some l' /\
     entities l' !! 1%nat = Some tgt' /\
     s tgt' = s rival ++ sig /\
     Health tgt' <= 0 /\
     In "killed"%string sig /\ ~ In "damaged"%string sig).
Proof.
  pose proof (@committed_attack_signals lonely oracle) as [Hgame Hmain].
  pose proof (@committed_attack_signals lonely parrying) as [_ Hparry].
  split; [|split; [|split]].
  - destruct (Hgame (arena_with shielded) strike 16 25 1%nat attacker shielded
                eq_refl eq_refl eq_refl)
      as (l' & a' & me' & sig & E & Hme & Hs & _ & Hevery & _).
    + clear. vm_compute. discriminate.
    + exists l', a', me', sig.
      split; [exact E|]. split; [exact Hme|]. split; [exact Hs|].
      apply Hevery; clear; vm_compute;
        first [discriminate | split; discriminate].
  - destruct (Hgame (arena_with wounded) strike 16 14 1%nat attacker wounded
                eq_refl eq_refl eq_refl)
      as (l' & a' & me' & sig & E & Hme & Hs & _ & _ & Hkill).
    + clear. vm_compute. discriminate.
    + assert (Game.CurHealth me' <= 0) as Hdead.
      { clear -E Hme. vm_compute in E. injection E as <- _.
        vm_compute in Hme. injection Hme as <-. vm_compute. discriminate. }
      exists l', a', me', sig.
      split; [exact E|]. split; [exact Hme|]. split; [exact Hs|].
      split; [exact Hdead|].
      apply Hkill; [clear; vm_compute; reflexivity | exact Hdead].
  - destruct (Hparry duel 1%nat 0%nat hero rival sword eq_refl eq_refl eq_refl)
      as (l' & tgt' & sig & E & Htgt & Hs & Hmiss & _).
    + clear. vm_compute. discriminate.
    + reflexivity.
    + clear. vm_compute. discriminate.
    + exists l', tgt', sig.
      split; [exact E|]. split; [exact Htgt|]. split; [exact Hs|].
      apply Hmiss. reflexivity.
  - destruct (Hmain duel 1%nat 0%nat hero rival sword eq_refl eq_refl eq_refl)
      as (l' & tgt' & sig & E & Htgt & Hs & _ & Hkill).
    + clear. vm_compute. discriminate.
    + reflexivity.
    + clear. vm_compute. discriminate.
    + assert (Health tgt' <= 0) as Hdead.
      { clear -E Htgt. vm_compute in E. injection E as <-.
        vm_compute in Htgt. injection Htgt as <-. vm_compute. discriminate. }
      exists l', tgt', sig.
      split; [exact E|]. split; [exact Htgt|]. split; [exact Hs|].
      split; [exact Hdead|].
      apply Hkill; [reflexivity | exact Hdead].
Defined.

(** [Prep] succeeding and [Cancel] undoing its marks. *)
Example Prep_then_Cancel :
  exists l a,
    @Game.Prep crowded arena strike = Some (true, l, a) /\
    option_map Game.highlight (Game.grid l !! 1%nat ≫= (.!! 1%nat)) = Some 2 /\
    fst (@Game.Cancel crowded l a) = arena.
Proof. eexists _, _. split; [vm_compute; reflexivity|]. by vm_compute. Qed.

(** C6, the claim as stated fails: the ragged document holds the label
    "lava", which names no terrain, and yet [LoadLevel] returns a level, built
    from the first cell of each row. *)
Lemma LoadLevel_accepts_unknown_label :
  (exists row c,
     In row (Cells (Level_data ragged_document)) /\ In c row /\
     terrain_of_label (Terrain_label c) = None) /\
  @LoadLevel (files_with ragged_document) "meadow" =
    Returned (Some (empty_Level [[tile Grass]; [tile Grass]]), None).
Proof.
  split; [|reflexivity].
  exists [label "grass"; label "lava"], (label "lava").
  split; [right; by left|]. split; [right; by left|]. reflexivity.
Qed.

Lemma LoadLevel_resolves_labels_witness :
  exists l,
    @LoadLevel (files_with tidy_document) "slope" = Returned (Some l, None) /\
    has_dims 2 2 (grid l) /\ unlit (grid l) /\
    forall i j, (i < 2)%nat -> (j < 2)%nat ->
      exists c, cell_at (grid l) i j = Some c /\
                Some (cell_Terrain c) = resolved tidy_document i j.
Proof.
  destruct (@LoadLevel_resolves_labels (files_with tidy_document)
              "slope" "slope/data.json" "slope/data.json" eq_refl eq_refl)
    as [_ Hcells].
  destruct (Hcells [label "grass"; label "dirt"] eq_refl) as [_ Hok].
  - clear. vm_compute. discriminate.
  - clear. vm_compute. discriminate.
  - apply Hok. clear.
    intros [|[|i]] [|[|j]] Hi Hj; simpl in Hi, Hj; try lia; eexists; reflexivity.
Defined.

Example tidy_document_loads :
  @LoadLevel (files_with tidy_document) "slope" = Returned (Some loaded, None).
Proof. reflexivity. Qed.

Lemma staged_in_play :
  @in_play oracle (files_with tidy_document) staged.
Proof.
  eapply in_play_step.
  - eapply in_play_loaded. exact tidy_document_loads.
  - apply step_populate.
Qed.

(** The level after one frame: the hero has stepped from (0,0) to (1,0). *)
Definition after_frame : Level :=
  Eval vm_compute in default staged (Think staged 16).

(** A frame with a lit cache: the hero is selected by a click, told to move
    and has paced to (1,0); the cells it could reach are highlighted and the
    cache flag is set. In the frame after it the hero paces back. *)
Definition picked : Level :=
  Eval vm_compute in default staged (@HandleEventGroup pacing staged 0 0 true).

Definition ordered : Level :=
  Eval vm_compute in default picked (@PrepMove pacing picked).

Definition lit : Level :=
  Eval vm_compute in default ordered (@Think pacing ordered 16).

Definition relit : Level :=
  Eval vm_compute in default lit (@Think pacing lit 16).

Lemma lit_in_play : @in_play pacing (files_with tidy_document) lit.
Proof.
  assert (@HandleEventGroup pacing staged 0 0 true = Some picked) as E1
    by (vm_compute; reflexivity).
  assert (@PrepMove pacing picked = Some ordered) as E2 by (vm_compute; reflexivity).
  assert (@Think pacing ordered 16 = Some lit) as E3 by (vm_compute; reflexivity).
  eapply in_play_step; [|eapply step_Think; exact E3].
  eapply in_play_step; [|eapply step_PrepMove; exact E2].
  eapply in_play_step; [|eapply step_HandleEventGroup; exact E1].
  eapply in_play_step.
  - eapply in_play_loaded. exact tidy_document_loads.
  - apply step_populate.
Qed.

Lemma Think_clears_cache_on_move_witness :
  cached lit = true /\
  cellAt lit 0 1 = Some (with_highlight (tile Dirt) Reachable) /\
  exists l1 l2,
    @think_entities pacing 16 lit = Some l1 /\
    cached l1 = false /\ unlit (grid l1) /\
    maintainCommand l1 = Some l2 /\
    grid relit = grid l2 /\ cached relit = true.
Proof.
  split; [reflexivity|]. split; [reflexivity|].
  apply (@Think_clears_cache_on_move pacing (files_with tidy_document)
           lit relit 16 0%nat (unit_at 1 0 2)).
  - exact lit_in_play.
  - vm_compute. reflexivity.
  - reflexivity.
  - vm_compute. reflexivity.
Defined.

Lemma grid_never_holds_MouseOver_witness :
  no_MouseOver after_frame /\
  (forall dt l',
     Think after_frame dt = Some l' ->
     no_MouseOver l' /\
     exists l1 l2,
       think_entities dt after_frame = Some l1 /\ maintainCommand l1 = Some l2 /\
       grid l' = grid l2).
Proof.
  apply (@grid_never_holds_MouseOver oracle (files_with tidy_document)).
  eapply in_play_step; [exact staged_in_play|].
  apply (step_Think staged 16). vm_compute. reflexivity.
Defined.

(** In that frame the cell under the cursor is handed to the terrain widget
    as a copy highlighted [MouseOver]; the cell of the grid is not. *)
Example cursor_is_drawn_on_a_copy :
  In (FlattenedCopy 0 0 (with_highlight (tile Grass) MouseOver)) (terrain after_frame) /\
  cellAt after_frame 0 0 = Some (tile Grass).
Proof. split; [vm_compute; tauto | reflexivity]. Qed.

End WorkedInputs.

(** ** Worked inputs: the grid, the commands and the basic attack *)

Module Scenes.
Import GoInt Main Fixtures.

(** [slope] with a vertex listed as reachable that is no cell of the grid. *)
Definition astray : Level := set_reachable slope [0; 9].

(** [duel] before the attack command is given. *)
Definition face_off : Level := set_in_range (set_command duel NoCommand) [].

(** The hero and the rival on the loaded level, nobody selected. *)
Definition crowd : Level := set_entities loaded [hero; rival].

(** Two entities whose distances to a click on (1,1) differ by [2^-24]
    before rounding: the second one stands one [float32] step below 1. *)
Definition neck_and_neck : Level :=
  set_entities loaded
    [unit_on 0 0; unit_on (16777215 # 16777216) (16777215 # 16777216)].

(** An entity on the [float32] nearest to 0.1. *)
Definition misty : Level :=
  set_entities loaded [unit_on (13421773 # 134217728) 0].

(** The hero and an entity far beyond the range of [int]. *)
Definition outlier : entity := unit_on (inject_Z 3000000000) 0.
Definition beyond : Level := set_entities duel [hero; outlier].

(** Collaborators as in [oracle], but the search answers with a cost beyond
    the range of [int]. *)
Definition lavish : Deps :=
  {| entity_Think := step_right;
     entity_OnRound := fun e => e;
     entity_OnSetup := fun e => e;
     Weapon_Damage := fun _ _ _ =>
       {| Connect := Hit; Damage := {| Piercing := 12 |} |};
     WindowToBoard := fun x y => (inject_Z x, inject_Z y);
     ReachableWithinLimit := fun g src limit =>
       Algorithm.ReachableWithinLimit (graph_of g) src limit;
     Dijkstra := fun _ _ _ => Some (inject_Z 3000000000, [0; 3]) |}.

(** Package [game]: a candidate on the column [min_int]. *)
Definition remote : Game.Entity :=
  {| Game.Pos := {| Game.Xi := min_int; Game.Yi := 0 |}; Game.ap := 0;
     Game.attack_stat := 0; Game.defense_stat := 3; Game.health := 10;
     Game.s := []; Game.facing := None |}.

End Scenes.

Section MoreWorkedInputs.
Import GoInt Main Fixtures Scenes.

Lemma maxNormi_is_maximum_norm_witness :
  maxNormi 0 0 3 (-4) = 4 /\ maxNormi 0 0 3 (-4) = maxNormi 3 (-4) 0 0.
Proof.
  destruct (maxNormi_is_maximum_norm 0 0 3 (-4)) as (E & Hsym & _);
    [by vm_compute..|].
  split; [exact E|exact Hsym].
Defined.

Lemma vertex_numbering_round_trip_witness :
  NumVertex slope_graph = Some (dim_x slope_graph * dim_y slope_graph) /\
  fromVertex slope_graph (toVertex slope_graph 1 0) = Some (1, 0).
Proof.
  destruct (vertex_numbering_round_trip slope_graph slope_rectangular) as (Hn & Hv & _).
  split.
  - apply Hn. by vm_compute.
  - apply Hv. by vm_compute.
Defined.

Lemma orthogonal_edge_weight_witness :
  exists adj weight,
    Adjacent slope_graph (toVertex slope_graph 0 0) = Some (adj, weight) /\
    In (toVertex slope_graph (0 + 0) (0 + 1), to_float 2) (combine adj weight).
Proof.
  destruct (orthogonal_edge_weight slope_graph 0 0 0 1) as (adj & weight & E & Hw).
  - exact slope_rectangular.
  - by vm_compute.
  - by vm_compute.
  - left. split; [reflexivity|by left].
  - exists adj, weight. split; [exact E|]. apply Hw.
    split; [reflexivity|]. exists 2. split; [reflexivity|]. split; [lia|reflexivity].
Defined.

Lemma Adjacent_lists_orthogonal_first_witness :
  exists keep : Z * Z -> bool,
    keep (0, 1) = true /\ keep (-1, 0) = false /\
    Adjacent slope_graph (toVertex slope_graph 0 0) =
      Some (map (fun d => toVertex slope_graph (0 + fst d) (0 + snd d))
                (List.filter keep orthogonal_offsets) ++
            map (fun d => toVertex slope_graph (0 + fst d) (0 + snd d))
                (List.filter keep diagonal_offsets),
            map (fun d => step_cost slope_graph 0 0 (0 + fst d) (0 + snd d))
                (List.filter keep orthogonal_offsets) ++
            map (fun d => step_cost slope_graph 0 0 (0 + fst d) (0 + snd d))
                (List.filter keep diagonal_offsets)).
Proof.
  destruct (Adjacent_lists_orthogonal_first slope_graph 0 0 slope_rectangular)
    as (keep & Hkeep & E).
  - by vm_compute.
  - exists keep. split; [|split; [|exact E]].
    + apply Hkeep. clear. simpl. split; [right; discriminate|].
      split; [by vm_compute|]. split; [reflexivity|]. vm_compute. discriminate.
    + destruct (keep (-1, 0)) eqn:Ek; [|reflexivity].
      apply Hkeep in Ek. destruct Ek as (_ & Hb & _). clear -Hb. exfalso.
      vm_compute in Hb. destruct Hb as [[Hb _] _]. by apply Hb.
Defined.

Lemma Adjacent_lists_free_cells_once_witness :
  exists adj weight,
    Adjacent slope_graph (toVertex slope_graph 0 0) = Some (adj, weight) /\
    length adj = length weight /\ (length adj <= 8)%nat /\ NoDup adj.
Proof.
  destruct (Adjacent_lists_free_cells_once slope_graph 0 0 slope_rectangular)
    as (adj & weight & E & Hlen & Hle & Hnd & _).
  - by vm_compute.
  - exists adj, weight. exact (conj E (conj Hlen (conj Hle Hnd))).
Defined.

Lemma maintainCommand_marks_listed_cells_witness :
  exists g',
    maintainCommand slope = Some (set_grid slope g') /\
    shape g' = shape (grid slope) /\
    exists c', cellAt (set_grid slope g') 0 1 = Some c' /\ highlight c' = Reachable.
Proof.
  destruct (maintainCommand_marks_listed_cells slope slope_rectangular)
    as (g' & E & Hshape & _ & Hcells).
  - repeat constructor; by vm_compute.
  - exists g'. split; [exact E|]. split; [exact Hshape|].
    destruct (Hcells 0 1 (tile Dirt) eq_refl) as (c' & Hc' & _ & Hh).
    exists c'. split; [exact Hc'|].
    rewrite decide_True in Hh by (apply list_elem_of_In; right; left; reflexivity).
    exact Hh.
Defined.

Lemma maintainCommand_panics_on_stray_vertex_witness :
  maintainCommand astray = None.
Proof.
  apply (maintainCommand_panics_on_stray_vertex astray slope_rectangular).
  - repeat constructor; by vm_compute.
  - apply Exists_cons_tl, Exists_cons_hd. clear. vm_compute. intros [_ H]. discriminate H.
Defined.

Lemma PrepAttack_lists_others_in_reach_witness :
  exists l',
    PrepAttack face_off = Some l' /\
    (forall v, In v (in_range l') <->
       exists i e, i <> 0%nat /\ entities face_off !! i = Some e /\
         attack_distance e hero <= Reach sword /\
         v = toVertex face_off (fst (cell_of e)) (snd (cell_of e))) /\
    entities l' = entities face_off.
Proof.
  destruct (PrepAttack_lists_others_in_reach face_off 0%nat hero sword)
    as (l' & E & Hin & He & _).
  - reflexivity.
  - reflexivity.
  - reflexivity.
  - by vm_compute.
  - exists l'. exact (conj E (conj Hin He)).
Defined.

Lemma PrepAttack_then_maintainCommand_witness :
  exists l1 l2,
    PrepAttack face_off = Some l1 /\ maintainCommand l1 = Some l2 /\
    exists c, cellAt l2 1 1 = Some c /\ highlight c = Attackable.
Proof.
  destruct (PrepAttack face_off) as [l1|] eqn:E1; [|by vm_compute in E1].
  destruct (PrepAttack_then_maintainCommand face_off l1 0%nat hero sword)
    as (l2 & E2 & Hcells).
  - exact slope_rectangular.
  - intros _. clear. repeat constructor.
  - reflexivity.
  - reflexivity.
  - reflexivity.
  - by vm_compute.
  - clear. intros [|[|i]] e Hi He _; [done| |done].
    injection He as <-. by vm_compute.
  - exact E1.
  - clear -E1. vm_compute in E1. injection E1 as <-. discriminate.
  - exists l1, l2. split; [reflexivity|]. split; [exact E2|].
    destruct (Hcells 1 1) as (c & Hc & _ & Hiff); [clear; by vm_compute|].
    exists c. split; [exact Hc|]. apply Hiff.
    exists 1%nat, rival. split; [done|]. split; [reflexivity|].
    split; [by vm_compute|reflexivity].
Defined.

Lemma DoMove_queues_path_cells_witness :
  exists l' cells,
    DoMove slope 1 1 = Some l' /\
    Forall2 (fun v xy => fromVertex slope v = Some xy) (tail [0; 3]) cells /\
    entities l' !! 0%nat = Some (set_path hero cells) /\
    reachable l' = [] /\ command l' = NoCommand.
Proof.
  destruct (DoMove_queues_path_cells slope 0%nat hero 1 1 (5 # 2)%Q [0; 3]
              eq_refl eq_refl) as [_ Hcommit].
  - discriminate.
  - reflexivity.
  - destruct Hcommit as (l' & cells & E & Hcells & He & _ & Hr & Hc & _).
    + discriminate.
    + by vm_compute.
    + exists l', cells. exact (conj E (conj Hcells (conj He (conj Hr Hc)))).
Defined.

Lemma click_selects_nearest_entity_witness :
  exists l',
    HandleEventGroup crowd 2 2 true = Some l' /\
    entities l' = entities crowd /\ command l' = NoCommand /\
    selected l' = Some 1%nat.
Proof.
  destruct (click_selects_nearest_entity crowd 2 2 eq_refl) as (l' & E & He & Hc & _).
  exists l'. split; [exact E|]. split; [exact He|]. split; [exact Hc|].
  clear -E. vm_compute in E. injection E as <-. reflexivity.
Defined.

(** Rounding decides who is nearest: for a click on (1,1) the second entity
    of [neck_and_neck] is nearer than the first by [2^-24], but the centre
    of its cell, [1 - 2^-24 + 0.5], rounds to 1.5, both distances are 0.5 in
    [float32], and the first entity is selected. *)
Example rounding_ties_select_the_first :
  (X (pos (unit_on (16777215 # 16777216) (16777215 # 16777216))) + (1 # 2) < 3 # 2)%Q /\
  round32 ((16777215 # 16777216) + (1 # 2)) = (3 # 2)%Q /\
  option_map selected (HandleEventGroup neck_and_neck 1 1 true) = Some (Some 0%nat).
Proof. split; [reflexivity|]. split; reflexivity. Qed.

Lemma Think_runs_every_entity_once_witness :
  exists l' rest,
    @Think idle misty 16 = Some l' /\
    entities l' = entities misty /\
    terrain l' =
      terrain misty ++ [Upright (11744051 # 33554432) (1 # 4) []] ++ rest /\
    cached l' = true.
Proof.
  destruct (@Think idle misty 16) as [l'|] eqn:E; [|by vm_compute in E].
  destruct (@Think_runs_every_entity_once idle misty l' 16 E)
    as (He & (rest & Ht) & Hc & _).
  exists l', rest. split; [reflexivity|]. split; [exact He|]. split; [|exact Hc].
  rewrite He in Ht. exact Ht.
Defined.

(** [int(f)] of a float beyond the range of [int]: for the controller the
    entity at x = 3e9 stands on the column [min_int], at distance 0 from the
    hero in the wrapping arithmetic of [maxNormi]; it is a candidate of
    [PrepAttack], and an attack on it is resolved. *)
Example conversion_beyond_int :
  of_float (inject_Z 3000000000) = min_int /\
  attack_distance outlier hero = 0 /\
  option_map in_range (PrepAttack beyond) = Some [toVertex beyond min_int 0] /\
  option_map (fun l => (option_map s (entities l !! 1%nat), command l))
    (DoAttack beyond 1) =
  Some (Some ["defend"; "killed"]%string, NoCommand).
Proof. split; [reflexivity|]. split; [reflexivity|]. split; reflexivity. Qed.

(** Likewise a cost of 3e9 that the search answers is cut to [min_int],
    which no amount of action points is below, and [DoMove] queues the path;
    and a click at x = 3e9 falls on a candidate of the basic attack that
    stands on the column [min_int]. *)
Example conversion_beyond_int_commits :
  option_map (fun l => option_map path (entities l !! 0%nat))
    (@DoMove lavish slope 1 1) = Some (Some [(1, 1)]) /\
  Game.MouseClick (arena_with remote) strike (inject_Z 3000000000) 0 =
    Some (Game.StandardAction, Game.set_mark strike (Some 1%nat)).
Proof. split; reflexivity. Qed.

Lemma MouseClick_marks_first_target_on_cell_witness :
  exists r, Game.MouseClick arena strike 1 1 = Some r.
Proof.
  destruct (MouseClick_marks_first_target_on_cell arena strike 1 1)
    as [(t & pre & post & _ & _ & _ & E)|[_ E]].
  - repeat constructor. by eexists.
  - by eexists.
  - by eexists.
Defined.

Lemma aiDoAttack_then_Maintain_witness :
  @Game.aiDoAttack crowded arena strike 1%nat =
    Some (true, Game.set_mark strike (Some 1%nat)) /\
  exists l' a' ent',
    @Game.Maintain crowded arena (Game.set_mark strike (Some 1%nat)) 16 14 =
      Some (Game.Complete, l', a') /\
    Game.entities l' !! 0%nat = Some ent' /\
    Game.ap ent' = sub (Game.ap attacker) (Game.Cost strike).
Proof.
  destruct (@aiDoAttack_then_Maintain crowded arena strike 1%nat defender attacker
              eq_refl eq_refl) as [Haccept _].
  destruct Haccept as [E Hm]; [by vm_compute|].
  split; [exact E|].
  destruct (Hm 16 14) as (l' & a' & ent' & me' & Em & He & Hap & _).
  exists l', a', ent'. exact (conj Em (conj He Hap)).
Defined.

Lemma Maintain_completes_and_releases_witness :
  exists l' a',
    @Game.Maintain crowded arena strike 16 14 = Some (Game.Complete, l', a') /\
    Game.mark a' = None /\ Game.targets a' = [] /\
    length (Game.entities l') = length (Game.entities arena).
Proof.
  destruct (@Game.Maintain crowded arena strike 16 14) as [r|] eqn:E;
    [|by vm_compute in E].
  destruct (@Maintain_completes_and_releases crowded arena strike 16 14 r E)
    as (l' & a' & -> & Hm & Ht & _ & _ & Hl & _).
  exists l', a'. exact (conj eq_refl (conj Hm (conj Ht Hl))).
Defined.

Lemma Prep_marks_every_target_witness :
  exists l' a',
    @Game.Prep crowded arena strike = Some (true, l', a') /\
    Game.targets a' <> [] /\ Game.entities l' = Game.entities arena.
Proof.
  assert (exists l' a', @Game.Prep crowded arena strike = Some (true, l', a'))
    as (l' & a' & E) by (eexists _, _; vm_compute; reflexivity).
  destruct (@Prep_marks_every_target crowded arena l' strike a' E)
    as (_ & Ht & _ & He & _).
  exists l', a'. exact (conj E (conj Ht He)).
Defined.

End MoreWorkedInputs.

(** ** Worked inputs: widgets *)

Module GuiFixtures.
Import Gui GuiTable.

(** A root with two leaves. *)
Definition family : tree :=
  {| nodes := [ {| widget := 10%nat; parent := None; children := [1; 2]%nat |};
                {| widget := 11%nat; parent := Some 0%nat; children := [] |};
                {| widget := 12%nat; parent := Some 0%nat; children := [] |} ];
     calls := [] |}.

(** Only the widget 12 asks for the focus. *)
Definition eager (history : list call) (w : Widget) (ms : Z) (has_focus : bool) : bool :=
  Nat.eqb w 12.

(** A table with a fixed child of 30 by 10 and a child of 20 by 20 that can
    grow, and a region of 40 by 60 at (5, 7). *)
Definition panel : Table :=
  {| Request_dims := {| Dx := 0; Dy := 0 |};
     Render_region := {| X := 0; Y := 0; Dims_ := {| Dx := 0; Dy := 0 |} |};
     Ex := false; Ey := false;
     Children := [ {| Expandable := (false, false); Requested := {| Dx := 30; Dy := 10 |} |};
                   {| Expandable := (true, true); Requested := {| Dx := 20; Dy := 20 |} |} ] |}.

Definition area : Region := {| X := 5; Y := 7; Dims_ := {| Dx := 40; Dy := 60 |} |}.

End GuiFixtures.

Section GuiWorkedInputs.
Import GoInt Gui GuiTable GuiFixtures.

Example family_thinks :
  option_map (fun st => (calls (fst st), focus_nodes (snd st)))
    (think eager 2 0 16 (family, {| focus_nodes := [] |})) =
  Some ([call_Think 11%nat 16 false; call_Think 12%nat 16 false;
         call_Think 10%nat 16 false],
        [Some 2%nat]).
Proof. reflexivity. Qed.

Lemma think_calls_children_first_witness :
  exists t' f' new,
    think eager 2 0 16 (family, {| focus_nodes := [] |}) = Some (t', f') /\
    nodes t' = nodes family /\
    calls t' = calls family ++ new /\
    Forall2 (thinks (nodes family) 16) (postorder (nodes family) 2 0) new.
Proof.
  destruct (think_calls_children_first eager 16 2 0%nat family {| focus_nodes := [] |})
    as (t' & f' & new & E & Hn & Hc & Hv & _).
  - simpl. repeat constructor.
  - exists t', f', new. exact (conj E (conj Hn (conj Hc Hv))).
Defined.

Lemma UninstallWidget_removes_matching_children_witness :
  exists t',
    UninstallWidget family 0 11%nat = Some t' /\
    length (nodes t') = length (nodes family) /\
    calls t' = calls family ++ [call_RemoveChild 10%nat 11%nat].
Proof.
  destruct (UninstallWidget_removes_matching_children family 0%nat 11%nat
              {| widget := 10%nat; parent := None; children := [1; 2]%nat |} eq_refl)
    as (t' & E & Hl & Hc & _).
  - repeat constructor; by eexists.
  - exists t'. exact (conj E (conj Hl Hc)).
Defined.

Lemma InstallWidget_then_UninstallWidget_witness :
  exists t1 kid t2,
    InstallWidget family 0 13%nat = Some (t1, kid) /\
    UninstallWidget t1 0 13%nat = Some t2 /\
    nodes t2 = nodes family ++ [{| widget := 13%nat; parent := None; children := [] |}].
Proof.
  assert (exists t1 kid, InstallWidget family 0 13%nat = Some (t1, kid))
    as (t1 & kid & E1) by (by eexists _, _).
  destruct (InstallWidget_then_UninstallWidget family t1 0%nat kid 13%nat
              {| widget := 10%nat; parent := None; children := [1; 2]%nat |} eq_refl)
    as (t2 & E2 & Hn & _).
  - repeat constructor; by eexists.
  - repeat constructor.
  - exact E1.
  - exists t1, kid, t2. exact (conj E1 (conj E2 Hn)).
Defined.

Lemma InstallWidget_extends_path_witness :
  exists t1 kid,
    InstallWidget family 1 13%nat = Some (t1, kid) /\
    pathFromRoot 3 (nodes t1) (Some kid) = Some ([0; 1]%nat ++ [kid]).
Proof.
  assert (exists t1 kid, InstallWidget family 1 13%nat = Some (t1, kid))
    as (t1 & kid & E1) by (by eexists _, _).
  exists t1, kid. split; [exact E1|].
  apply (InstallWidget_extends_path family t1 1%nat kid 13%nat 2 [0; 1]%nat E1).
  reflexivity.
Defined.

Lemma DoThink_requests_sum_and_maximum_witness :
  Dy (Request_dims (VerticalTable_DoThink panel)) = total req_Dy (Children panel) /\
  Dx (Request_dims (HorizontalTable_DoThink panel)) = total req_Dx (Children panel).
Proof.
  destruct (DoThink_requests_sum_and_maximum panel) as [Hv Hh].
  - repeat constructor; by vm_compute.
  - destruct Hv as [Ev _]; [by vm_compute|].
    destruct Hh as [Eh _]; [by vm_compute|].
    split; [exact Ev|exact Eh].
Defined.



(** The regions that the tables give to the children of [panel] in [area]:
    the vertical table stacks the fixed child on top and lets the other one
    fill the rest; the horizontal table, asked for 50 of width in a region of
    40, shrinks both and puts them side by side, the first one 10 high at the
    top edge. *)
Example panel_drawn :
  option_map (fun r => drop 20 (snd r))
    (VerticalTable_Draw (VerticalTable_DoThink panel) area) =
  Some [child_Draw 0 {| X := 5; Y := 57; Dims_ := {| Dx := 30; Dy := 10 |} |};
        child_Draw 1 {| X := 5; Y := 7; Dims_ := {| Dx := 40; Dy := 50 |} |}] /\
  option_map (fun r => drop 20 (snd r))
    (HorizontalTable_Draw (HorizontalTable_DoThink panel) area) =
  Some [child_Draw 0 {| X := 5; Y := 57; Dims_ := {| Dx := 24; Dy := 10 |} |};
        child_Draw 1 {| X := 29; Y := 7; Dims_ := {| Dx := 16; Dy := 60 |} |}].
Proof. split; reflexivity. Qed.

End GuiWorkedInputs.
